(** * dynamo.tools.cell_velocities: the Markov-chain core, embedded in Rocq

    Source: [src/dynamo/tools/cell_velocities.py].

    Conventions of the embedding.
    - A numpy float64 is idealised as a real number ([R]); a statement
      "within tolerance" is therefore proved as an exact equality.  NaN and
      infinities have no counterpart: wherever the Python code would divide
      by zero the theorems carry the hypothesis that excludes it.
    - A numpy array keeps its number of dimensions: [Arr1] is a 1-D array,
      [Arr2] a 2-D array stored row-major as a list of rows.
    - A Python exception is a value of [exception]; a function that may
      raise returns a [result].
    - Library routines that are not part of the repository (LAPACK's
      eigen-solver behind [scipy.linalg.eig], numba's random generator, the
      collaborators of the orchestrator) are parameters of the sections that
      use them. *)

From Stdlib Require Import Reals Lra Lia List String Permutation.
From stdpp Require Import gmap strings.
Import ListNotations.

(** ** Exceptions and results *)

Inductive exception : Type :=
| ValueError (msg : string)
| LinAlgError (msg : string)
| IndexError (msg : string)
| KeyError (key : string)
| NameError (name : string)
| UnboundLocalError (name : string).

Inductive result (A : Type) : Type :=
| Ok (a : A)
| Raise (e : exception).

Arguments Ok {A} a.
Arguments Raise {A} e.

Global Instance result_ret : MRet result := fun _ a => Ok a.

Global Instance result_bind : MBind result := fun _ _ k r =>
  match r with
  | Ok a => k a
  | Raise e => Raise e
  end.

(** ** numpy arrays over the reals *)

Module Np.

Local Open Scope R_scope.

Abbreviation vec := (list R).
Abbreviation mat := (list (list R)).

Inductive ndarray : Type :=
| Arr1 (v : vec)
| Arr2 (m : mat).

Definition ndim (a : ndarray) : nat :=
  match a with
  | Arr1 _ => 1
  | Arr2 _ => 2
  end.

(** [np.sum] of a 1-D array. *)
Definition vsum (v : vec) : R := fold_right Rplus 0 v.

Definition nrows (M : mat) : nat := length M.

Definition ncols (M : mat) : nat :=
  match M with
  | [] => 0%nat
  | r :: _ => length r
  end.

(** [M.shape == (n, m)]. *)
Definition has_shape (n m : nat) (M : mat) : Prop :=
  length M = n /\ Forall (fun r => length r = m) M.

Definition is_square (M : mat) : bool :=
  forallb (fun r => Nat.eqb (length r) (length M)) M.

(** [M[:, j]]. *)
Definition col (j : nat) (M : mat) : vec := map (fun r => nth j r 0) M.

(** [M.T]. *)
Definition transpose (M : mat) : mat :=
  map (fun j => col j M) (seq 0 (ncols M)).

(** [M.sum(1)]: the 1-D array of the row sums. *)
Definition sum_axis1 (M : mat) : vec := map vsum M.

(** [np.sum(M)] over every entry of a 2-D array. *)
Definition sum_all (M : mat) : R := vsum (map vsum M).

(** [M / s] for a 2-D [M] and a 1-D [s]: numpy aligns [s] with the LAST axis,
    so entry [(i, j)] is divided by [s[j]]. *)
Definition div_bcast_last (M : mat) (s : vec) : mat :=
  map (fun r => zip_with Rdiv r s) M.

(** [M / s[:, None]]: entry [(i, j)] is divided by [s[i]]. *)
Definition div_bcast_rows (M : mat) (s : vec) : mat :=
  zip_with (fun r si => map (fun x => x / si) r) M s.

(** [M / c] for a scalar [c]. *)
Definition div_scalar (M : mat) (c : R) : mat :=
  map (map (fun x => x / c)) M.

Definition dot (u v : vec) : R := vsum (zip_with Rmult u v).

(** [p.dot(M)] for a 1-D [p]. *)
Definition vec_mat (p : vec) (M : mat) : vec :=
  map (fun j => dot p (col j M)) (seq 0 (ncols M)).

(** [A.dot(B)] for 2-D arrays. *)
Definition matmul (A B : mat) : mat := map (fun r => vec_mat r B) A.

Definition identity (n : nat) : mat :=
  map (fun i => map (fun j => if Nat.eqb i j then 1 else 0) (seq 0 n)) (seq 0 n).

(** [np.linalg.matrix_power(M, k)] for [k >= 0]: the product of [k] copies
    of [M]. *)
Fixpoint matrix_power (M : mat) (k : nat) : mat :=
  match k with
  | O => identity (nrows M)
  | S k' =>
      match k' with
      | O => M
      | S _ => matmul M (matrix_power M k')
      end
  end.

(** [np.nanmean(A, 0)]: the mean of every column, that is the average of the
    rows (no NaN exists in the idealised arithmetic). *)
Definition nanmean0 (A : mat) : vec :=
  map (fun j => vsum (col j A) / INR (nrows A)) (seq 0 (ncols A)).

(** [np.isclose(a, b)] with the default [rtol=1e-05], [atol=1e-08]. *)
Definition rtol : R := 1 / 100000.
Definition atol : R := 1 / 100000000.

Definition Rleb (x y : R) : bool := if Rle_dec x y then true else false.
Definition Rltb (x y : R) : bool := if Rlt_dec x y then true else false.

Definition isclose (a b : R) : bool := Rleb (Rabs (a - b)) (atol + rtol * Rabs b).

(** Complex numbers, for the output of the eigen-solver. *)
Record complex : Type := mkC { Cre : R; Cim : R }.

Definition Cabs (z : complex) : R := sqrt (Cre z * Cre z + Cim z * Cim z).
Definition Cconj (z : complex) : complex := mkC (Cre z) (- Cim z).
Definition Cmult (a b : complex) : complex :=
  mkC (Cre a * Cre b - Cim a * Cim b) (Cre a * Cim b + Cim a * Cre b).
Definition RtoC (x : R) : complex := mkC x 0.

(** [np.isclose(z, b)] for a complex [z] and a real [b]. *)
Definition isclose_c (z : complex) (b : R) : bool :=
  Rleb (Cabs (mkC (Cre z - b) (Cim z))) (atol + rtol * Rabs b).

(** [a[mask]] for a boolean mask as long as [a]. *)
Fixpoint compress {A : Type} (mask : list bool) (l : list A) : list A :=
  match mask, l with
  | b :: mask', x :: l' => if b then x :: compress mask' l' else compress mask' l'
  | _, _ => []
  end.

(** [A[:, mask]]: the columns selected by a boolean mask; the result is
    still 2-D. *)
Definition select_cols {A : Type} (mask : list bool) (M : list (list A)) : list (list A) :=
  map (compress mask) M.

End Np.

(** ** The steady-state module: [diffusion] and [expected_return_time] *)

Module Diffusion.

Import Np.
Local Open Scope R_scope.

Section WithEig.

(** [scipy.linalg.eig(M, left=True, right=False)]: the eigenvalues [w] and the
    matrix [vl] whose column [k] is a left eigenvector for [w[k]]; it raises
    on an input that is not square or not finite. *)
Variable eig : mat -> result (list complex * list (list complex)).

(** Lines 307-309: [M = M.T; M = M / M.sum(1)].  [M] is a [numpy.ndarray]
    (docstring), so [M.sum(1)] is 1-D and the division broadcasts it along
    the last axis. *)
Definition backward_matrix (M : mat) : mat :=
  let M := transpose M in
  div_bcast_last M (sum_axis1 M).

(** Lines 321-323: [mu[isclose(mu, 0) & (mu < 0)] = 0]. *)
Definition zero_negative_noise (x : R) : R :=
  if isclose x 0 && Rltb x 0 then 0 else x.

(** [np.linalg.matrix_power] refuses an array that is not square. *)
Definition matrix_power_checked (M : mat) (k : nat) : result mat :=
  if is_square M then Ok (matrix_power M k)
  else Raise (LinAlgError "Last 2 dimensions of the array must be square").

(** [P0.dot(A)] refuses a [P0] whose length is not the number of rows. *)
Definition vec_mat_checked (p : vec) (A : mat) : result vec :=
  if Nat.eqb (length p) (nrows A) then Ok (vec_mat p A)
  else Raise (ValueError "shapes not aligned").

(** Lines 287-328.  [steps], when given, is a number of random-walk steps
    (a natural number). *)
Definition diffusion (M : mat) (P0 : option vec) (steps : option nat)
    (backward : bool) : result ndarray :=
  let M := if backward then backward_matrix M else M in
  match steps with
  | None =>
      '(eigenvalue, eigenvector) ← eig M;
      let eigenvector := map (map Cre) eigenvector in
      let eigenvalue_1_ind := map (fun l => isclose_c l 1) eigenvalue in
      let selected := select_cols eigenvalue_1_ind eigenvector in
      let mu := div_scalar selected (sum_all selected) in
      let mu := map (map zero_negative_noise) mu in
      Ok (Arr2 mu)
  | Some steps =>
      Mk ← matrix_power_checked M steps;
      match P0 with
      | None => Ok (Arr1 (nanmean0 (matmul M Mk)))
      | Some P0 => mu ← vec_mat_checked P0 Mk; Ok (Arr1 mu)
      end
  end.

Definition arr_map (f : R -> R) (a : ndarray) : ndarray :=
  match a with
  | Arr1 v => Arr1 (map f v)
  | Arr2 m => Arr2 (map (map f) m)
  end.

(** Lines 331-350. *)
Definition expected_return_time (M : mat) (backward : bool) : result ndarray :=
  steady_state ← diffusion M None None backward;
  let T := arr_map (fun x => 1 / x) steady_state in
  Ok T.

End WithEig.

(** What the specification says of the two paths, for comparison with the
    code: power iteration applies [M] exactly [steps] times, and the
    backward matrix is the transpose with every ROW renormalised. *)
Definition rows_average_of_power (M : mat) (steps : nat) : vec :=
  nanmean0 (matrix_power M steps).

Definition transpose_row_renormalized (M : mat) : mat :=
  let Mt := transpose M in
  div_bcast_rows Mt (sum_axis1 Mt).

(** Row-stochastic: square, entries non-negative, every row sums to 1. *)
Definition row_stochastic (P : mat) : Prop :=
  has_shape (length P) (length P) P /\
  Forall (Forall (fun x => 0 <= x)) P /\
  Forall (fun r => vsum r = 1) P.

(** Column [k] of the eigenvector matrix. *)
Definition col_c (k : nat) (vl : list (list complex)) : list complex :=
  map (fun r => nth k r (RtoC 0)) vl.

(** What scipy documents of a left eigenvector [v] for the eigenvalue [lam]
    of a real matrix [M]: [M.H @ v = conj(lam) * v], written on the real and
    imaginary parts ([x . M] is the row vector [(M.T @ x).T]). *)
Definition is_left_eigenpair (M : mat) (lam : complex) (v : list complex) : Prop :=
  vec_mat (map Cre v) M = map (fun z => Cre (Cmult (Cconj lam) z)) v /\
  vec_mat (map Cim v) M = map (fun z => Cim (Cmult (Cconj lam) z)) v.

(** A probability vector over [n] states that [P] leaves fixed. *)
Definition stationary_distribution_of (P : mat) (mu : vec) : Prop :=
  length mu = length P /\
  vsum mu = 1 /\
  Forall (fun x => 0 <= x) mu /\
  vec_mat mu P = mu.

(** Entry [(i, j)] of a 2-D array. *)
Definition entry (M : mat) (i j : nat) : option R :=
  r ← M !! i; r !! j.

End Diffusion.

(** ** Concrete inputs used by the evaluation lemmas *)

Module Examples.

Import Np.
Local Open Scope R_scope.

(** An eigen-solver answer for the 1x1 matrix [[2]]: eigenvalue 2. *)
Definition eig_two (_ : mat) : result (list complex * list (list complex)) :=
  Ok ([RtoC 2], [[RtoC 1]]).

(** An eigen-solver answer for the 1x1 matrix [[1]]: eigenvalue 1. *)
Definition eig_one (_ : mat) : result (list complex * list (list complex)) :=
  Ok ([RtoC 1], [[RtoC 1]]).

(** A 2-state chain with an absorbing first state. *)
Definition M_absorbing : mat := [[1; 0]; [1/2; 1/2]].

(** The 2x2 identity, a row-stochastic matrix whose eigenvalue 1 is double,
    with the eigen-solver answer for it. *)
Definition I2 : mat := [[1; 0]; [0; 1]].

Definition eig_I2 (_ : mat) : result (list complex * list (list complex)) :=
  Ok ([RtoC 1; RtoC 1], [[RtoC 1; RtoC 0]; [RtoC 0; RtoC 1]]).

(** The eigen-solver answer for [M_absorbing]: eigenvalue 1 with left
    eigenvector (1, 0), eigenvalue 1/2 with left eigenvector (1, -1). *)
Definition eig_absorbing (_ : mat) : result (list complex * list (list complex)) :=
  Ok ([RtoC 1; RtoC (1/2)], [[RtoC 1; RtoC 1]; [RtoC 0; RtoC (-1)]]).

(** An irreducible 2-state chain. *)
Definition P_chain : mat := [[1/2; 1/2]; [1/4; 3/4]].

(** The eigen-solver answers for the two matrices that the backward pass
    over [P_chain] is about: the one the code builds,
    [[2/3, 1/5], [2/3, 3/5]], and the row-renormalised transpose,
    [[2/3, 1/3], [2/5, 3/5]].  Both have the eigenvalues 1 and 4/15. *)
Definition eig_answer_backward : list complex * list (list complex) :=
  ([RtoC 1; RtoC (4/15)], [[RtoC 2; RtoC 5]; [RtoC 1; RtoC (-3)]]).

Definition eig_answer_renormalized : list complex * list (list complex) :=
  ([RtoC 1; RtoC (4/15)], [[RtoC 6; RtoC 1]; [RtoC 5; RtoC (-1)]]).

(** An eigen-solver that tells the two matrices apart by entry (0, 1). *)
Definition eig_chain (M : mat) : result (list complex * list (list complex)) :=
  if Req_dec_T (nth 1 (nth 0 M []) 0) (1/5)
  then Ok eig_answer_backward
  else Ok eig_answer_renormalized.

End Examples.

(** ** The empirical correlation kernel: [_empirical_vec] *)

Module Empirical.

Import Np.
Local Open Scope R_scope.

(** A row of [X_embedding[:, :2]]. *)
Abbreviation point := (R * R)%type.

Definition padd (a b : point) : point := (fst a + fst b, snd a + snd b).
Definition psub (a b : point) : point := (fst a - fst b, snd a - snd b).
Definition pscale (c : R) (a : point) : point := (c * fst a, c * snd a).
Definition pdiv (a : point) (d : R) : point := (fst a / d, snd a / d).

(** [scp.linalg.norm] of a row with two entries. *)
Definition norm2 (a : point) : R := sqrt (fst a * fst a + snd a * snd a).

(** [np.sign]. *)
Definition sgn (x : R) : R :=
  if Rlt_dec 0 x then 1 else if Rlt_dec x 0 then -1 else 0.

(** [np.sign(v) * np.sqrt(np.abs(v))]. *)
Definition sign_sqrt (v : vec) : vec := map (fun x => sgn x * sqrt (Rabs x)) v.

Definition vsub (a b : vec) : vec := zip_with Rminus a b.

Definition mean (v : vec) : R := vsum v / INR (length v).

(** Entry [(0, 1)] of [np.cov(x, y)] (and, with [y = x], entry [(0, 0)]):
    centred dot product times [1 / (N - 1)]. *)
Definition cov (x y : vec) : R :=
  dot (map (fun a => a - mean x) x) (map (fun b => b - mean y) y)
  * (1 / (INR (length x) - 1)).

(** [np.clip(c, -1, 1)]. *)
Definition clip (lo hi x : R) : R := Rmin (Rmax x lo) hi.

(** [np.corrcoef(x, y)[0, 1]]: the covariance divided by the two standard
    deviations, clipped to [-1, 1]. *)
Definition corrcoef01 (x y : vec) : R :=
  clip (-1) 1 (cov x y / sqrt (cov x x) / sqrt (cov y y)).

(** The Pearson correlation is a number (not NaN) when there are at least
    two features and neither argument is constant. *)
Definition pearson_defined (x y : vec) : Prop :=
  INR (length x) - 1 <> 0 /\ 0 < cov x x /\ 0 < cov y y.

(** Python's builtin [max] over a non-empty sequence. *)
Definition pymax (v : vec) : R :=
  match v with
  | [] => 0
  | x :: v' => fold_left (fun acc y => if Rlt_dec acc y then y else acc) v' x
  end.

(** [np.where(np.sign(i_vals) == sig)[0]]. *)
Definition where_sign (i_vals : vec) (sig : R) : list nat :=
  List.filter (fun j => if Req_dec_T (sgn (nth j i_vals 0)) sig then true else false)
              (seq 0 (length i_vals)).

(** [a[idx]] for an array of positions [idx]. *)
Definition take_at {A : Type} (d : A) (a : list A) (idx : list nat) : list A :=
  map (fun j => nth j a d) idx.

(** [a[idx] = v], position by position. *)
Fixpoint scatter (a : vec) (idx : list nat) (v : vec) : vec :=
  match idx, v with
  | j :: idx', x :: v' => scatter (<[j := x]> a) idx' v'
  | _, _ => a
  end.

(** Lines 387-391: the softmax weights [i_prob] of one sign group. *)
Definition group_prob (i_vals : vec) (sig : R) : vec :=
  let cur_ind := where_sign i_vals sig in
  let cur_i_vals := take_at 0 i_vals cur_ind in
  let sigma := pymax (map Rabs cur_i_vals) in
  let exp_i_vals := map (fun v => exp (Rabs v / sigma)) cur_i_vals in
  let denominator := vsum exp_i_vals in
  map (fun e => e / denominator) exp_i_vals.

(** Lines 401-404: the softmax weights over all the neighbours. *)
Definition plain_prob (i_vals : vec) : vec :=
  let sigma := pymax (map Rabs i_vals) in
  let exp_i_vals := map (fun v => exp (v / sigma)) i_vals in
  let denominator := vsum exp_i_vals in
  map (fun e => e / denominator) exp_i_vals.

(** 1 when the sign group [sig] of a cell has a member, 0 when it is empty. *)
Definition group_count (i_vals : vec) (sig : R) : R :=
  if Nat.eqb (length (where_sign i_vals sig)) 0 then 0 else 1.

(** [w.T.dot(numerator / np.hstack((denominator, denominator)))]. *)
Definition weighted_drift (w : vec) (numerator : list point) (denominator : vec) : point :=
  let unit := zip_with pdiv numerator denominator in
  (dot w (map fst unit), dot w (map snd unit)).

Section Kernel.

Variable X_embedding : list point.

Definition emb (j : nat) : point := nth j X_embedding (0, 0).

(** Lines 383-399: one pass of [for sig in [-1, 1]] for cell [i]; the state
    is the slice of [vals] that belongs to the cell and [delta_X[i, :]]. *)
Definition neg_cells_group (nbrs : list nat) (i : nat) (i_vals : vec)
    (st : vec * point) (sig : R) : vec * point :=
  let cur_ind := where_sign i_vals sig in
  if Nat.eqb (length cur_ind) 0 then st
  else
    let i_prob := group_prob i_vals sig in
    let vals := scatter (fst st) cur_ind (map (Rmult sig) i_prob) in
    let j_vec := take_at 0%nat nbrs cur_ind in
    let numerator := map (fun j => pscale sig (psub (emb j) (emb i))) j_vec in
    let denominator := map norm2 numerator in
    let w := map (fun p => p - 1 / INR (length cur_ind)) i_prob in
    (vals, padd (snd st) (pscale (1/2) (weighted_drift w numerator denominator))).

(** Lines 380-399. *)
Definition neg_cells_row (nbrs : list nat) (i : nat) (i_vals : vec) : vec * point :=
  fold_left (neg_cells_group nbrs i i_vals) [-1; 1]
            (repeat 0 (length i_vals), (0, 0)).

(** Lines 401-411. *)
Definition plain_row (nbrs : list nat) (i : nat) (i_vals : vec) : vec * point :=
  let i_prob := plain_prob i_vals in
  let j_vec := nbrs in
  let numerator := map (fun j => psub (emb j) (emb i)) j_vec in
  let denominator := map norm2 numerator in
  let w := map (fun p => p - 1 / INR (length i_vals)) i_prob in
  (i_prob, weighted_drift w numerator denominator).

Variable X_pca : mat.
Variable V_mat : mat.
Variable indices : list (list nat).

(** [knn = indices.shape[1] - 1]. *)
Definition knn : nat := length (hd [] indices) - 1.

(** Lines 365-378: the correlations of cell [i] with its neighbours
    [indices[i, 1 .. knn]]. *)
Definition cell_correlations (i : nat) : vec :=
  let velocity := nth i V_mat [] in
  let diff_velocity := sign_sqrt velocity in
  map (fun j =>
         let neighbor_ind_j := nth j (nth i indices []) 0%nat in
         let diff := vsub (nth neighbor_ind_j X_pca []) (nth i X_pca []) in
         let diff_rho := sign_sqrt diff in
         corrcoef01 diff_rho diff_velocity)
      (seq 1 knn).

(** The correlations of cell [i] are numbers: every neighbour's transformed
    displacement and the transformed velocity have a defined Pearson
    correlation. *)
Definition cell_correlations_defined (i : nat) : Prop :=
  Forall (fun j =>
            let neighbor_ind_j := nth j (nth i indices []) 0%nat in
            let diff := vsub (nth neighbor_ind_j X_pca []) (nth i X_pca []) in
            pearson_defined (sign_sqrt diff) (sign_sqrt (nth i V_mat [])))
         (seq 1 knn).

(** [indices[i, 1:]]. *)
Definition neighbors_of (i : nat) : list nat := tl (nth i indices []).

(** The unit directions of cell [i] are numbers: no neighbour sits on the
    cell in the embedding. *)
Definition cell_directions_defined (i : nat) : Prop :=
  Forall (fun j => norm2 (psub (emb j) (emb i)) <> 0) (neighbors_of i).

Variable neg_cells_trick : bool.

(** One iteration of the loop over the cells: the slice of [vals] and the
    row of [delta_X] of cell [i]. *)
Definition cell_row (i : nat) : vec * point :=
  let i_vals := cell_correlations i in
  if neg_cells_trick then neg_cells_row (neighbors_of i) i i_vals
  else plain_row (neighbors_of i) i i_vals.

(** The (row, col, value) triples that the loop leaves in [rows], [cols]
    and [vals] for cell [i]. *)
Definition cell_triples (i : nat) : list (nat * nat * R) :=
  zip_with (fun j v => (i, nth j (nth i indices []) 0%nat, v))
           (seq 1 knn) (fst (cell_row i)).

End Kernel.

(** A (row, col, value) entry of the sparse matrix. *)
Abbreviation triple := (nat * nat * R)%type.

Definition in_shape (nr nc : nat) (t : triple) : bool :=
  Nat.ltb (fst (fst t)) nr && Nat.ltb (snd (fst t)) nc.

Definition at_position (a b : nat) (t : triple) : bool :=
  Nat.eqb (fst (fst t)) a && Nat.eqb (snd (fst t)) b.

(** [csr_matrix((vals, (rows, cols)), shape=(nr, nc))], as the dense matrix
    it stands for: entries at the same position are added; a position
    outside the shape is refused. *)
Definition csr_matrix (triples : list triple) (shape : nat * nat) : result mat :=
  let '(nr, nc) := shape in
  if forallb (in_shape nr nc) triples then
    Ok (map (fun a =>
          map (fun b => vsum (map snd (List.filter (at_position a b) triples)))
              (seq 0 nc))
          (seq 0 nr))
  else Raise (ValueError "index exceeds matrix dimensions").

(** The shapes the caller hands over: [X_pca] and [V_mat] are n x d,
    [X_embedding] is n x 2, [indices] is n x (knn + 1) with entries below n,
    and [neighbors] is n x n. *)
Definition kernel_inputs_conform (X_pca : mat) (X_embedding : list point) (V_mat : mat)
    (indices : list (list nat)) (neighbors_shape : nat * nat) : Prop :=
  let n := length X_pca in
  has_shape n (ncols X_pca) X_pca /\
  has_shape n (ncols X_pca) V_mat /\
  length X_embedding = n /\
  length indices = n /\
  Forall (fun row => length row = S (knn indices) /\ Forall (fun j => (j < n)%nat) row)
         indices /\
  neighbors_shape = (n, n).

Section Whole.

(** The grid aggregator of the Markov module, [velocity_on_grid], with its
    three outputs taken together. *)
Variable Grid : Type.
Variable velocity_on_grid : list point -> list point -> nat * nat -> Grid.

(** Lines 353-417, for [indices] that is not [None].  Without the trick,
    a first cell without neighbours makes Python's [max] raise on an empty
    sequence (line 401); after an empty loop [X_grid] is unbound at the
    return. *)
Definition _empirical_vec (X_pca : mat) (X_embedding : list point) (V_mat : mat)
    (indices : list (list nat)) (neg_cells_trick : bool) (xy_grid_nums : nat * nat)
    (neighbors_shape : nat * nat) : result (mat * list point * Grid) :=
  let n := length X_pca in
  if negb (Nat.eqb n 0) && negb neg_cells_trick && Nat.eqb (knn indices) 0 then
    Raise (ValueError "max() arg is an empty sequence")
  else
    let cell := cell_row X_embedding X_pca V_mat indices neg_cells_trick in
    let delta_X := map (fun i => snd (cell i)) (seq 0 n) in
    let triples :=
      flat_map (cell_triples X_embedding X_pca V_mat indices neg_cells_trick) (seq 0 n) in
    T ← csr_matrix triples neighbors_shape;
    if Nat.eqb n 0 then Raise (UnboundLocalError "X_grid")
    else
      let grid := velocity_on_grid X_embedding (zip_with padd X_embedding delta_X)
                                   xy_grid_nums in
      Ok (T, delta_X, grid).

End Whole.

End Empirical.

(** ** A concrete input of the empirical kernel *)

Module EmpiricalExamples.

Import Np Empirical.
Local Open Scope R_scope.

(** Three cells with two features; every cell has the two other cells as
    neighbours (column 0 of [indices] is the cell itself). *)
Definition X_pca3 : mat := [[0; 0]; [1; -1]; [-1; 1]].
Definition V_mat3 : mat := [[1; -1]; [1; -1]; [1; -1]].
Definition indices3 : list (list nat) := [[0; 1; 2]; [1; 0; 2]; [2; 0; 1]]%nat.
Definition X_embedding3 : list point := [(0, 0); (1, 0); (0, 1)].

(** A grid aggregator that keeps nothing. *)
Definition no_grid (_ _ : list point) (_ : nat * nat) : unit := tt.

End EmpiricalExamples.

(** ** Where the kernel writes *)

Module KernelColumns.

Import Np Empirical.

(** The columns [cols[idx]] that the loop of lines 369-378 records for cell
    [i]: [indices[i, 1]], ..., [indices[i, knn]]. *)
Definition written_columns (indices : list (list nat)) (i : nat) : list nat :=
  map (fun j => nth j (nth i indices []) 0%nat) (seq 1 (knn indices)).

End KernelColumns.

(** ** The random control: [numba_random_seed] and [permute_rows_nsign] *)

Module RandomControl.

Import Np.
Local Open Scope R_scope.

(** numba's random generator, as far as the two functions use it: a state
    that [np.random.seed] sets from the seed alone, and a draw of an integer
    below a positive bound ([np.random.randint(0, bound)]). *)
Class NumbaRandom (rng : Type) : Type := {
  seed_state : Z -> rng;
  randint : rng -> nat -> nat * rng;
  randint_lt : forall (st : rng) (bound : nat),
    (0 < bound)%nat -> (fst (randint st bound) < bound)%nat
}.

Section WithGenerator.

Context {rng : Type} `{NumbaRandom rng}.

(** Lines 421-436: [np.random.seed(seed)] on the generator state. *)
Definition numba_random_seed (seed : Z) (st : rng) : rng := seed_state seed.

(** [x[i], x[j] = x[j], x[i]]. *)
Definition swap (x : vec) (i j : nat) : vec :=
  <[j := nth i x 0]> (<[i := nth j x 0]> x).

(** numba's [np.random.shuffle] on a 1-D array:
    [for i in range(len(x) - 1, 0, -1): j = randint(0, i + 1); swap]. *)
Fixpoint shuffle_from (i : nat) (x : vec) (st : rng) : vec * rng :=
  match i with
  | O => (x, st)
  | S i' =>
      let '(j, st) := randint st (i + 1) in
      shuffle_from i' (swap x i j) st
  end.

Definition shuffle (x : vec) (st : rng) : vec * rng :=
  shuffle_from (length x - 1) x st.

(** numba's [np.random.choice(a, size=size)]: [size] draws
    [a[randint(0, len(a))]]. *)
Fixpoint choice (a : vec) (size : nat) (st : rng) : vec * rng :=
  match size with
  | O => ([], st)
  | S size' =>
      let '(k, st) := randint st (length a) in
      let '(rest, st) := choice a size' st in
      (nth k a 0 :: rest, st)
  end.

(** Lines 456-457, for one row. *)
Definition permute_row_nsign (row : vec) (st : rng) : vec * rng :=
  let plmi := [1; -1] in
  let '(row, st) := shuffle row st in
  let '(signs, st) := choice plmi (length row) st in
  (zip_with Rmult row signs, st).

(** Lines 439-457: the rows in order, the generator state threaded through;
    the array that Python updates in place is returned. *)
Fixpoint permute_rows_nsign (A : mat) (st : rng) : mat * rng :=
  match A with
  | [] => ([], st)
  | row :: A' =>
      let '(row, st) := permute_row_nsign row st in
      let '(A', st) := permute_rows_nsign A' st in
      (row :: A', st)
  end.

End WithGenerator.

(** What one row becomes: a permutation of the row, multiplied entry by
    entry by signs. *)
Definition signed_permutation_of (row row' : vec) : Prop :=
  exists p signs : vec,
    Permutation p row /\
    length signs = length p /\
    Forall (fun s => s = 1 \/ s = -1) signs /\
    row' = zip_with Rmult p signs.

(** A small linear congruential generator, an instance of the interface. *)
Definition lcg_next (st : nat) : nat := ((st * 21 + 7) mod 64)%nat.

Definition lcg_randint (st bound : nat) : nat * nat := ((st mod bound)%nat, lcg_next st).

Global Instance lcg : NumbaRandom nat := {
  seed_state := fun seed => Z.to_nat seed;
  randint := lcg_randint;
  randint_lt := fun st bound Hb =>
    Nat.mod_upper_bound st bound (fun E => Nat.lt_neq 0 bound Hb (eq_sym E))
}.

End RandomControl.

(** ** The orchestrator: [cell_velocities] *)

Module Orchestrator.

Import Np Empirical RandomControl.
Local Open Scope R_scope.

Section CellVelocities.

Context {rng : Type} `{NumbaRandom rng}.

(** Objects of the collaborators (layers, gene table, neighbour graphs,
    fitted models) and the three outputs of [velocity_on_grid]. *)
Variable Object : Type.
Variable Grid : Type.

Inductive value : Type :=
| VMatrix (m : mat)
| VPoints (p : list point)
| VGrid (g : Grid)
| VObject (o : Object).

(** The annotated-matrix container: the two namespaces this function
    writes, and everything else. *)
Record AnnData : Type := mkAnnData {
  uns : gmap string value;
  obsm : gmap string value;
  other : Object
}.

Record arguments : Type := mkArguments {
  ekey : option string;
  vkey : option string;
  use_mnn : bool;
  neighbors_from_basis : bool;
  n_pca_components : option nat;
  min_r2 : R;
  basis : string;
  method : string;
  neg_cells_trick : bool;
  calc_rnd_vel : bool;
  xy_grid_nums : nat * nat;
  correct_density : bool;
  scale : bool;
  sample_fraction : option R;
  random_seed : Z;
  kmc_kwargs : Object
}.

(** The mutable world of a call: the container and numba's generator. *)
Record world : Type := mkWorld { adata : AnnData; generator : rng }.

(** A computation that reads and updates the world and may raise; the world
    at the moment of the exception is kept. *)
Definition comp (A : Type) : Type := world -> result A * world.

Definition ret {A : Type} (a : A) : comp A := fun w => (Ok a, w).

Definition bind {A B : Type} (m : comp A) (k : A -> comp B) : comp B :=
  fun w =>
    match m w with
    | (Ok a, w') => k a w'
    | (Raise e, w') => (Raise e, w')
    end.

Definition raise {A : Type} (e : exception) : comp A := fun w => (Raise e, w).

Definition of_result {A : Type} (r : result A) : comp A := fun w => (r, w).

(** Reading a local variable that may not have been assigned. *)
Definition bound {A : Type} (name : string) (local : option A) : comp A :=
  match local with
  | Some a => ret a
  | None => raise (UnboundLocalError name)
  end.

(** [adata.uns[key] = v] and [adata.obsm[key] = v]. *)
Definition set_uns (key : string) (v : value) : comp unit :=
  fun w =>
    let a := adata w in
    (Ok tt, mkWorld (mkAnnData (<[key := v]> (uns a)) (obsm a) (other a)) (generator w)).

Definition set_obsm (key : string) (v : value) : comp unit :=
  fun w =>
    let a := adata w in
    (Ok tt, mkWorld (mkAnnData (uns a) (<[key := v]> (obsm a)) (other a)) (generator w)).

(** A collaborator that works on the container only. *)
Definition on_adata {A : Type} (f : AnnData -> result A * AnnData) : comp A :=
  fun w => let '(r, a) := f (adata w) in (r, mkWorld a (generator w)).

(** [numba_random_seed(seed)]. *)
Definition seed_generator (seed : Z) : comp unit :=
  fun w => (Ok tt, mkWorld (adata w) (numba_random_seed seed (generator w))).

(** [permute_rows_nsign(V_mat)]. *)
Definition permute_in_place (V_mat : mat) : comp mat :=
  fun w =>
    let '(V, st) := permute_rows_nsign V_mat (generator w) in
    (Ok V, mkWorld (adata w) st).

(** The locals that lines 72-105 leave: the two matrices restricted to the
    velocity genes and the finite columns, the embedding, and, when the
    branch of line 79 was taken, [indices] and the shape of [neighbors]. *)
Record prepared : Type := mkPrepared {
  X : mat;
  V_mat : mat;
  X_embedding : list point;
  graph : option (list (list nat) * (nat * nat))
}.

(** The locals that the dispatch on [method] may or may not assign. *)
Record locals : Type := mkLocals {
  T : option value;
  delta_X : option (list point);
  X_grid : option Grid;
  rnd : option (value * list point * Grid)
}.

(** Collaborators outside this file. *)

(** Lines 72-74: [get_mapper_inverse], [get_ekey_vkey_from_adata]. *)
Variable resolve_keys :
  option string -> option string -> AnnData -> result (string * string * string) * AnnData.

(** Lines 79-105: the neighbour graph, [set_velocity_genes], the layers,
    the embedding ([reduceDimension] when it is not there yet),
    [get_finite_inds].  It is given the keys, [use_mnn],
    [neighbors_from_basis], [min_r2] and [basis]. *)
Variable gather_inputs :
  string * string * string -> bool -> bool -> R -> string ->
  AnnData -> result prepared * AnnData.

(** Lines 114-133: the PCA projection of [X] and [V_mat], which stores the
    fitted model and the projections in the container. *)
Variable pca_project :
  option nat -> mat -> mat -> AnnData -> result (mat * mat) * AnnData.

(** Lines 135-148 (and 151-161): a fresh [KernelMarkovChain], its [fit],
    the drift and the grid; it gives [kmc.P], the drift, the grid and the
    fitted object. *)
Variable kmc_project :
  arguments -> mat -> mat -> option (list (list nat)) -> list point ->
  result (value * list point * Grid * Object).

(** Line 171: [umap_trans.transform], a name this file does not define. *)
Variable umap_trans_transform : mat -> result (list point).

Variable velocity_on_grid : list point -> list point -> nat * nat -> Grid.

(** Lines 72-105. *)
Definition preparation (a : arguments) : comp prepared :=
  bind (on_adata (resolve_keys (ekey a) (vkey a))) (fun keys =>
  bind (if calc_rnd_vel a then seed_generator (random_seed a) else ret tt) (fun _ =>
  on_adata (gather_inputs keys (use_mnn a) (neighbors_from_basis a) (min_r2 a) (basis a)))).

(** Lines 108-163. *)
Definition analytical_branch (a : arguments) (p : prepared) : comp locals :=
  bind (match n_pca_components a with
        | Some _ => on_adata (pca_project (n_pca_components a) (X p) (V_mat p))
        | None => ret (X p, V_mat p)
        end) (fun XV =>
  let '(X, V_mat) := XV in
  bind (if neighbors_from_basis a then ret None
        else bind (bound "indices" (graph p)) (fun g => ret (Some (fst g)))) (fun neighbor_idx =>
  bind (of_result (kmc_project a X V_mat neighbor_idx (X_embedding p))) (fun r =>
  let '(T, delta_X, grid, kmc) := r in
  bind (if calc_rnd_vel a then
          bind (permute_in_place V_mat) (fun V_mat =>
          bind (of_result (kmc_project a X V_mat None (X_embedding p))) (fun r_rnd =>
          let '(T_rnd, delta_X_rnd, grid_rnd, kmc) := r_rnd in
          ret (Some (T_rnd, delta_X_rnd, grid_rnd), kmc)))
        else ret (None, kmc)) (fun rk =>
  bind (set_uns "kmc" (VObject (snd rk))) (fun _ =>
  ret (mkLocals (Some T) (Some delta_X) (Some grid) (fst rk))))))).

(** Lines 164-169. *)
Definition empirical_call (a : arguments) (p : prepared) (V_mat : mat)
    : comp (value * list point * Grid) :=
  bind (bound "indices" (graph p)) (fun g =>
  bind (of_result (_empirical_vec Grid velocity_on_grid (X p) (X_embedding p) V_mat
                     (fst g) (neg_cells_trick a) (xy_grid_nums a) (snd g))) (fun r =>
  let '(T, delta_X, grid) := r in
  ret (VMatrix T, delta_X, grid))).

Definition empirical_branch (a : arguments) (p : prepared) : comp locals :=
  bind (empirical_call a p (V_mat p)) (fun r =>
  let '(T, delta_X, grid) := r in
  bind (if calc_rnd_vel a then
          bind (permute_in_place (V_mat p)) (fun V_mat =>
          bind (empirical_call a p V_mat) (fun r_rnd => ret (Some r_rnd)))
        else ret None) (fun rnd =>
  ret (mkLocals (Some T) (Some delta_X) (Some grid) rnd))).

(** Lines 170-174. *)
Definition transform_branch (a : arguments) (p : prepared) : comp locals :=
  bind (of_result (umap_trans_transform (zip_with (zip_with Rplus) (X p) (V_mat p)))) (fun X_v =>
  let delta_X := zip_with psub X_v (X_embedding p) in
  let grid := velocity_on_grid (X_embedding p) delta_X (xy_grid_nums a) in
  ret (mkLocals None (Some delta_X) (Some grid) None)).

(** Lines 176-183. *)
Definition store_results (a : arguments) (l : locals) : comp unit :=
  bind (bound "T" (T l)) (fun T =>
  bind (set_uns "transition_matrix" T) (fun _ =>
  bind (bound "delta_X" (delta_X l)) (fun delta_X =>
  bind (set_obsm ("velocity_" ++ basis a) (VPoints delta_X)) (fun _ =>
  bind (bound "X_grid" (X_grid l)) (fun grid =>
  bind (set_uns ("grid_velocity_" ++ basis a) (VGrid grid)) (fun _ =>
  if calc_rnd_vel a then
    bind (bound "T_rnd" (rnd l)) (fun r =>
    let '(T_rnd, delta_X_rnd, grid_rnd) := r in
    bind (set_uns "transition_matrix_rnd" T_rnd) (fun _ =>
    bind (set_obsm ("velocity_" ++ basis a ++ "_rnd") (VPoints delta_X_rnd)) (fun _ =>
    set_uns ("grid_velocity_" ++ basis a ++ "_rnd") (VGrid grid_rnd))))
  else ret tt)))))).

(** Lines 10-185.  The returned [adata] is the container of the final
    world. *)
Definition cell_velocities (a : arguments) : comp unit :=
  bind (preparation a) (fun p =>
  bind (if String.eqb (method a) "analytical" then analytical_branch a p
        else if String.eqb (method a) "empirical" then empirical_branch a p
        else if String.eqb (method a) "transform" then transform_branch a p
        else ret (mkLocals None None None None)) (fun l =>
  store_results a l)).

End CellVelocities.

Arguments ekey {Object} a.
Arguments vkey {Object} a.
Arguments use_mnn {Object} a.
Arguments neighbors_from_basis {Object} a.
Arguments n_pca_components {Object} a.
Arguments min_r2 {Object} a.
Arguments basis {Object} a.
Arguments method {Object} a.
Arguments neg_cells_trick {Object} a.
Arguments calc_rnd_vel {Object} a.
Arguments xy_grid_nums {Object} a.
Arguments correct_density {Object} a.
Arguments scale {Object} a.
Arguments sample_fraction {Object} a.
Arguments random_seed {Object} a.
Arguments kmc_kwargs {Object} a.
Arguments T {Object Grid} l.
Arguments delta_X {Object Grid} l.
Arguments X_grid {Object Grid} l.
Arguments rnd {Object Grid} l.
Arguments uns {Object Grid} a.
Arguments obsm {Object Grid} a.
Arguments other {Object Grid} a.
Arguments adata {rng Object Grid} w.
Arguments generator {rng Object Grid} w.

End Orchestrator.

(** ** Concrete collaborators for the orchestrator *)

Module OrchestratorExamples.

Import Np Empirical EmpiricalExamples RandomControl Orchestrator.
Local Open Scope R_scope.

Abbreviation demo_adata := (AnnData unit unit).

Definition demo_resolve_keys (_ _ : option string) (a : demo_adata)
    : result (string * string * string) * demo_adata :=
  (Ok ("X", "velocity_S", "X")%string, a).

(** The three-cell input, found in the container as it is. *)
Definition demo_gather_inputs (_ : string * string * string) (_ _ : bool) (_ : R)
    (_ : string) (a : demo_adata) : result (prepared) * demo_adata :=
  (Ok (mkPrepared X_pca3 V_mat3 X_embedding3 (Some (indices3, (3, 3)%nat))), a).

(** A container without the embedding that line 96 reads. *)
Definition missing_embedding (_ : string * string * string) (_ _ : bool) (_ : R)
    (b : string) (a : demo_adata) : result (prepared) * demo_adata :=
  (Raise (KeyError ("X_" ++ b)), a).

Definition demo_pca (_ : option nat) (X V : mat) (a : demo_adata)
    : result (mat * mat) * demo_adata :=
  (Ok (X, V), a).

Definition demo_kmc (_ : arguments unit) (_ _ : mat) (_ : option (list (list nat)))
    (_ : list point) : result (value unit unit * list point * unit * unit) :=
  Raise (ValueError "not fitted").

Definition demo_umap (_ : mat) : result (list point) :=
  Raise (NameError "umap_trans").

Definition demo_arguments (method : string) (neg_cells_trick : bool) : arguments unit :=
  mkArguments unit None None false false (Some 30%nat) (1/100) "umap" method
              neg_cells_trick false (50, 50)%nat true true None 19491001%Z tt.

Definition empty_world : world (rng := nat) unit unit :=
  mkWorld unit unit (mkAnnData unit unit ∅ ∅ tt) 0%nat.

End OrchestratorExamples.

(** ** What a call of [cell_velocities] may touch *)

Module OrchestratorFrames.

Import Np Empirical EmpiricalExamples RandomControl Orchestrator.
Local Open Scope R_scope.

Section Frames.

Context {rng : Type}.
Variable Object : Type.
Variable Grid : Type.

(** The keys of [adata.uns] that lines 176-183 assign. *)
Definition uns_result_keys (a : arguments Object) : list string :=
  ["transition_matrix"; "grid_velocity_" ++ basis a]%string
  ++ (if calc_rnd_vel a
      then ["transition_matrix_rnd"; "grid_velocity_" ++ basis a ++ "_rnd"]%string
      else []).

(** The keys of [adata.obsm] that lines 176-183 assign. *)
Definition obsm_result_keys (a : arguments Object) : list string :=
  ["velocity_" ++ basis a]%string
  ++ (if calc_rnd_vel a then ["velocity_" ++ basis a ++ "_rnd"]%string else []).

(** The container of [w'] is the one of [w] outside the keys [uk] of
    [uns] and [ok] of [obsm]. *)
Definition writes_only (uk ok : list string) (w w' : world (rng := rng) Object Grid) : Prop :=
  other (adata w') = other (adata w) /\
  (forall k, ~ In k uk -> uns (adata w') !! k = uns (adata w) !! k) /\
  (forall k, ~ In k ok -> obsm (adata w') !! k = obsm (adata w) !! k).

(** A computation whose final world, returned or raised, is always
    related by [P] to the world it started in. *)
Definition preserves {A : Type} (P : world (rng := rng) Object Grid ->
                                     world (rng := rng) Object Grid -> Prop)
    (m : comp (rng := rng) Object Grid A) : Prop :=
  forall w, P w (snd (m w)).

End Frames.

(** The demo arguments with [calc_rnd_vel=True] and the seed 7. *)
Definition rnd_arguments (method : string) (neg_cells_trick : bool) : arguments unit :=
  mkArguments unit None None false false (Some 30%nat) (1/100) "umap" method
              neg_cells_trick true (50, 50)%nat true true None 7%Z tt.

(** A [umap_trans.transform] that answers: the first two columns. *)
Definition demo_umap_two_columns (m : mat) : result (list point) :=
  Ok (map (fun row => (nth 0 row 0, nth 1 row 0)) m).

(** A container without ['neighbors'] in [uns]: the branch of line 79 is
    not taken and [indices] stays unassigned. *)
Definition demo_gather_without_graph (_ : string * string * string) (_ _ : bool) (_ : R)
    (_ : string) (a : AnnData unit unit) : result (prepared) * AnnData unit unit :=
  (Ok (mkPrepared X_pca3 V_mat3 X_embedding3 None), a).

End OrchestratorFrames.

(** * Properties *)

(** ** Facts about the array operations *)

Module NpFacts.

Import Np.
Local Open Scope R_scope.

(** Equality of two explicit lists of reals, entry by entry. *)
Ltac list_R_eq :=
  repeat (apply (f_equal2 (@cons R)); [lra|]); reflexivity.

Lemma Rleb_true (x y : R) : x <= y -> Rleb x y = true.
Proof. intros H. unfold Rleb. destruct (Rle_dec x y); [reflexivity | contradiction]. Qed.

Lemma Rleb_false (x y : R) : y < x -> Rleb x y = false.
Proof. intros H. unfold Rleb. destruct (Rle_dec x y); [lra | reflexivity]. Qed.

Lemma Rltb_true (x y : R) : x < y -> Rltb x y = true.
Proof. intros H. unfold Rltb. destruct (Rlt_dec x y); [reflexivity | contradiction]. Qed.

Lemma Rltb_false (x y : R) : y <= x -> Rltb x y = false.
Proof. intros H. unfold Rltb. destruct (Rlt_dec x y); [lra | reflexivity]. Qed.

Lemma Cabs_real (x : R) : Cabs (mkC x 0) = Rabs x.
Proof.
  unfold Cabs. simpl. rewrite Rmult_0_l, Rplus_0_r.
  apply sqrt_Rsqr_abs.
Qed.

Lemma isclose_c_real (x b : R) :
  isclose_c (RtoC x) b = Rleb (Rabs (x - b)) (atol + rtol * Rabs b).
Proof. unfold isclose_c, RtoC. simpl. now rewrite Cabs_real. Qed.

Lemma isclose_c_one : isclose_c (RtoC 1) 1 = true.
Proof.
  rewrite isclose_c_real. apply Rleb_true.
  replace (1 - 1) with 0 by lra. rewrite Rabs_R0, Rabs_R1.
  unfold atol, rtol. lra.
Qed.

Lemma isclose_c_far (x : R) : 1 / 1000 <= Rabs (x - 1) -> isclose_c (RtoC x) 1 = false.
Proof.
  intros H. rewrite isclose_c_real. apply Rleb_false.
  rewrite Rabs_R1. unfold atol, rtol. lra.
Qed.

Lemma lookup_map {A B : Type} (f : A -> B) (l : list A) (i : nat) :
  map f l !! i = option_map f (l !! i).
Proof.
  revert i. induction l as [|a l IH]; intros [|i]; simpl; try reflexivity.
  apply IH.
Qed.

Lemma compress_all_false {A : Type} (mask : list bool) (l : list A) :
  Forall (fun b => b = false) mask -> compress mask l = [].
Proof.
  intros H. revert l. induction H as [|b mask Hb _ IH]; intros l.
  - reflexivity.
  - destruct l as [|x l]; [reflexivity|]. simpl. rewrite Hb. apply IH.
Qed.

(** *** Sums and dot products *)

Lemma vsum_cons (x : R) (v : vec) : vsum (x :: v) = x + vsum v.
Proof. reflexivity. Qed.

Lemma dot_cons (x y : R) (p c : vec) : dot (x :: p) (y :: c) = x * y + dot p c.
Proof. reflexivity. Qed.

Lemma dot_nil_r (p : vec) : dot p [] = 0.
Proof. destruct p; reflexivity. Qed.

Lemma vsum_map_zero {A : Type} (l : list A) : vsum (map (fun _ => 0) l) = 0.
Proof. induction l as [|a l IH]; simpl; [reflexivity | rewrite IH; lra]. Qed.

Lemma vsum_map_plus {A : Type} (f g : A -> R) (l : list A) :
  vsum (map (fun a => f a + g a) l) = vsum (map f l) + vsum (map g l).
Proof. induction l as [|a l IH]; simpl; [lra | rewrite IH; lra]. Qed.

Lemma vsum_map_scale {A : Type} (c : R) (f : A -> R) (l : list A) :
  vsum (map (fun a => c * f a) l) = c * vsum (map f l).
Proof. induction l as [|a l IH]; simpl; [lra | rewrite IH; lra]. Qed.

Lemma vsum_map_div (s : R) (v : vec) : vsum (map (fun x => x / s) v) = vsum v / s.
Proof.
  induction v as [|x v IH]; simpl; [unfold Rdiv; lra | rewrite IH; unfold Rdiv; lra].
Qed.

Lemma vsum_app (u v : vec) : vsum (u ++ v) = vsum u + vsum v.
Proof. induction u as [|x u IH]; simpl; [lra | rewrite IH; lra]. Qed.

Lemma map_nth_seq (r : vec) : map (fun j => nth j r 0) (seq 0 (length r)) = r.
Proof.
  induction r as [|x r IH]; [reflexivity|].
  simpl. f_equal. rewrite <- seq_shift, map_map. exact IH.
Qed.

Lemma vsum_nonneg (v : vec) : Forall (fun x => 0 <= x) v -> 0 <= vsum v.
Proof. induction 1 as [|x v Hx _ IH]; simpl; lra. Qed.

Lemma vsum_le (a b : vec) : Forall2 Rle a b -> vsum a <= vsum b.
Proof. induction 1 as [|x y a b Hxy _ IH]; simpl; lra. Qed.

(** Two lists ordered entry by entry that have the same sum are equal. *)
Lemma Forall2_le_vsum_eq (a b : vec) :
  Forall2 Rle a b -> vsum a = vsum b -> a = b.
Proof.
  induction 1 as [|x y a b Hxy Hab IH]; simpl; intros Hs; [reflexivity|].
  pose proof (vsum_le a b Hab) as Hle.
  assert (x = y) by lra. subst y. f_equal. apply IH. lra.
Qed.

Lemma Rabs_dot_le (u c : vec) :
  Forall (fun x => 0 <= x) c -> Rabs (dot u c) <= dot (map Rabs u) c.
Proof.
  intros Hc. revert u. induction Hc as [|y c Hy _ IH]; intros u.
  - rewrite !dot_nil_r, Rabs_R0. lra.
  - destruct u as [|x u]; [unfold dot; simpl; rewrite Rabs_R0; lra|].
    simpl map. rewrite !dot_cons.
    eapply Rle_trans; [apply Rabs_triang|].
    rewrite Rabs_mult, (Rabs_right y) by lra.
    specialize (IH u). lra.
Qed.

Lemma dot_div_l (s : R) (u c : vec) : dot (map (fun x => x / s) u) c = dot u c / s.
Proof.
  revert c. induction u as [|x u IH]; intros c.
  - unfold dot. simpl. unfold Rdiv. lra.
  - destruct c as [|y c]; [rewrite !dot_nil_r; unfold Rdiv; lra|].
    simpl map. rewrite !dot_cons, IH. unfold Rdiv. lra.
Qed.

Lemma vec_mat_div_l (s : R) (u : vec) (P : mat) :
  vec_mat (map (fun x => x / s) u) P = map (fun x => x / s) (vec_mat u P).
Proof.
  unfold vec_mat. rewrite map_map. apply map_ext. intros j. apply dot_div_l.
Qed.

(** The sum of the entries of [a . P] is [a . (row sums of P)]. *)
Lemma vsum_vec_mat_cols (a : vec) (P : mat) (m : nat) :
  Forall (fun r => length r = m) P ->
  vsum (map (fun j => dot a (col j P)) (seq 0 m)) = dot a (sum_axis1 P).
Proof.
  intros HP. revert a. induction HP as [|r P Hr _ IH]; intros a.
  - change (sum_axis1 []) with (@nil R). rewrite dot_nil_r.
    erewrite map_ext; [apply vsum_map_zero|].
    intros j. apply dot_nil_r.
  - destruct a as [|x a].
    + unfold dot. simpl. apply vsum_map_zero.
    + simpl sum_axis1. rewrite dot_cons.
      rewrite (map_ext _ (fun j => x * nth j r 0 + dot a (col j P)))
        by (intros j; reflexivity).
      rewrite vsum_map_plus, vsum_map_scale, IH.
      rewrite <- Hr, map_nth_seq. reflexivity.
Qed.

Lemma dot_row_sums_one (a : vec) (P : mat) :
  Forall (fun r => vsum r = 1) P -> length a = length P ->
  dot a (sum_axis1 P) = vsum a.
Proof.
  intros HP. revert a. induction HP as [|r P Hr _ IH]; intros a Hlen.
  - destruct a; [reflexivity | discriminate].
  - destruct a as [|x a]; [discriminate|].
    simpl sum_axis1. rewrite dot_cons, Hr, vsum_cons, IH by (simpl in Hlen; lia). lra.
Qed.

Lemma nth_nonneg (j : nat) (r : vec) : Forall (fun x => 0 <= x) r -> 0 <= nth j r 0.
Proof.
  intros Hr. revert j. induction Hr as [|x r Hx _ IH]; intros [|j]; simpl; try lra.
  apply IH.
Qed.

Lemma col_nonneg (j : nat) (P : mat) :
  Forall (Forall (fun x => 0 <= x)) P -> Forall (fun x => 0 <= x) (col j P).
Proof.
  induction 1 as [|r P Hr _ IH]; simpl; constructor; [apply nth_nonneg; exact Hr | exact IH].
Qed.

Lemma ncols_square (P : mat) :
  has_shape (length P) (length P) P -> ncols P = length P.
Proof.
  intros [_ H]. destruct P as [|r P']; [reflexivity|].
  inversion H; assumption.
Qed.

(** For a row-stochastic [P]: if [u . P = u] then [|u| . P = |u|]. *)
Lemma abs_of_fixed_vector_is_fixed (u : vec) (P : mat) :
  has_shape (length P) (length P) P ->
  Forall (Forall (fun x => 0 <= x)) P ->
  Forall (fun r => vsum r = 1) P ->
  length u = length P ->
  vec_mat u P = u ->
  vec_mat (map Rabs u) P = map Rabs u.
Proof.
  intros Hshape Hpos Hsum Hlen Hfix. symmetry.
  apply Forall2_le_vsum_eq.
  - rewrite <- Hfix at 1. unfold vec_mat. rewrite map_map.
    generalize (seq 0 (ncols P)). intros l.
    induction l as [|j l IH]; simpl; constructor; [|exact IH].
    apply Rabs_dot_le, col_nonneg, Hpos.
  - unfold vec_mat. rewrite (ncols_square P Hshape).
    rewrite (vsum_vec_mat_cols _ P (length P)) by apply Hshape.
    rewrite dot_row_sums_one; [reflexivity | exact Hsum | now rewrite length_map].
Qed.

(** *** Selecting one column *)

Lemma compress_single {A : Type} (m1 m2 : list bool) (l : list A) (d : A) :
  Forall (fun b => b = false) m1 -> Forall (fun b => b = false) m2 ->
  length l = length (m1 ++ true :: m2) ->
  compress (m1 ++ true :: m2) l = [nth (length m1) l d].
Proof.
  intros H1 H2. revert l. induction H1 as [|b m1 Hb _ IH]; intros l Hlen.
  - destruct l as [|x l]; [discriminate|]. simpl.
    now rewrite compress_all_false.
  - destruct l as [|x l]; [discriminate|]. simpl. rewrite Hb.
    apply IH. simpl in Hlen. lia.
Qed.

Lemma sum_all_column (u : vec) : sum_all (map (fun x => [x]) u) = vsum u.
Proof.
  unfold sum_all. rewrite map_map.
  induction u as [|x u IH]; simpl in *; [reflexivity | rewrite IH; lra].
Qed.

Lemma vsum_abs_pos (u : vec) (x : R) : In x u -> x <> 0 -> 0 < vsum (map Rabs u).
Proof.
  induction u as [|y u IH]; intros Hin Hx; [contradiction|].
  simpl. destruct Hin as [-> | Hin].
  - pose proof (Rabs_pos_lt x Hx).
    assert (0 <= vsum (map Rabs u)).
    { apply vsum_nonneg. clear. induction u; simpl; constructor; auto using Rabs_pos. }
    lra.
  - specialize (IH Hin Hx). pose proof (Rabs_pos y). lra.
Qed.

End NpFacts.


(** ** The steady-state module *)

Module DiffusionFacts.

Import Np NpFacts Diffusion Examples.
Local Open Scope R_scope.

Lemma zero_negative_noise_nonneg (x : R) : 0 <= x -> zero_negative_noise x = x.
Proof.
  intros H. unfold zero_negative_noise.
  rewrite (Rltb_false x 0 H). now rewrite andb_false_r.
Qed.

(** *** No eigenvalue close to 1 *)

(** C3, as stated, fails: the 1x1 matrix [[2]] has the single eigenvalue 2
    (with the left eigenvector [1]), which is not close to 1, and
    [diffusion] returns an array with one row and no column instead of
    raising. *)
Lemma diffusion_without_unit_eigenvalue_returns :
  is_left_eigenpair [[2]] (RtoC 2) [RtoC 1] /\
  Forall (fun l => isclose_c l 1 = false) [RtoC 2] /\
  diffusion eig_two [[2]] None None false = Ok (Arr2 [[]]) /\
  ~ (exists e, diffusion eig_two [[2]] None None false = Raise e).
Proof.
  assert (Hfar : isclose_c (RtoC 2) 1 = false).
  { apply isclose_c_far. replace (2 - 1) with 1 by lra. rewrite Rabs_R1. lra. }
  assert (Hrun : diffusion eig_two [[2]] None None false = Ok (Arr2 [[]])).
  { unfold diffusion, eig_two. simpl. rewrite Hfar. reflexivity. }
  split; [|split; [|split]].
  - split; unfold vec_mat, col, dot; simpl; list_R_eq.
  - constructor; [exact Hfar | constructor].
  - exact Hrun.
  - intros [e He]. rewrite Hrun in He. discriminate He.
Qed.

(** C3, amended: when the eigen-solver answers and none of its eigenvalues
    is close to 1, [diffusion] raises nothing and returns the 2-D array
    with one empty row per row of the eigenvector matrix (shape n x 0). *)
Theorem diffusion_without_unit_eigenvalue_is_empty
    (eig : mat -> result (list complex * list (list complex)))
    (M : mat) (backward : bool) (w : list complex) (vl : list (list complex)) :
  eig (if backward then backward_matrix M else M) = Ok (w, vl) ->
  Forall (fun l => isclose_c l 1 = false) w ->
  diffusion eig M None None backward = Ok (Arr2 (map (fun _ => []) vl)).
Proof.
  intros Heig Hfar. unfold diffusion. rewrite Heig. simpl.
  do 2 f_equal. unfold div_scalar, select_cols.
  rewrite !map_map. apply map_ext. intros r.
  rewrite compress_all_false; [reflexivity|].
  apply Forall_map. exact Hfar.
Qed.

Lemma diffusion_without_unit_eigenvalue_is_empty_witness :
  diffusion eig_two [[2]] None None false = Ok (Arr2 [[]]).
Proof.
  apply (diffusion_without_unit_eigenvalue_is_empty eig_two [[2]] false
           [RtoC 2] [[RtoC 1]]).
  - reflexivity.
  - constructor; [|constructor].
    apply isclose_c_far. replace (2 - 1) with 1 by lra. rewrite Rabs_R1. lra.
Defined.

(** *** The stationary distribution *)

Lemma left_eigenpair_one_fixed (P : mat) (v : list complex) :
  is_left_eigenpair P (RtoC 1) v -> vec_mat (map Cre v) P = map Cre v.
Proof.
  intros [Hre _]. rewrite Hre. apply map_ext. intros z. simpl. lra.
Qed.

Lemma selected_unit_column (w1 w2 : list complex) (vl : list (list complex)) :
  Forall (fun l => isclose_c l 1 = false) w1 ->
  Forall (fun l => isclose_c l 1 = false) w2 ->
  Forall (fun r => length r = length (w1 ++ RtoC 1 :: w2)) vl ->
  select_cols (map (fun l => isclose_c l 1) (w1 ++ RtoC 1 :: w2)) (map (map Cre) vl)
  = map (fun x => [x]) (map Cre (col_c (length w1) vl)).
Proof.
  intros H1 H2 Hrows. unfold select_cols, col_c. rewrite !map_map.
  induction Hrows as [|r vl Hr _ IH]; [reflexivity|].
  simpl. rewrite IH. f_equal.
  rewrite map_app. simpl. rewrite isclose_c_one.
  rewrite (compress_single _ _ _ 0).
  - rewrite length_map. f_equal.
    change 0 with (Cre (RtoC 0)). apply map_nth.
  - apply Forall_map. exact H1.
  - apply Forall_map. exact H2.
  - rewrite !length_map, Hr, !length_app. simpl. now rewrite !length_map.
Qed.

(** A vector proportional to its entrywise absolute value, with a non-zero
    entry, normalises to a non-negative vector that sums to 1. *)
Lemma normalized_of_constant_sign (u : vec) (c : R) :
  map Rabs u = map (Rmult c) u ->
  (exists x, In x u /\ x <> 0) ->
  vsum u <> 0 /\
  vsum (map (fun x => x / vsum u) u) = 1 /\
  Forall (fun x => 0 <= x) (map (fun x => x / vsum u) u).
Proof.
  intros Habs (x0 & Hin & Hx0).
  assert (Hpt : forall x, In x u -> Rabs x = c * x).
  { intros x Hx. clear -Habs Hx. induction u as [|y u IH]; [contradiction|].
    simpl in Habs. injection Habs as Hy Hu. destruct Hx as [->|Hx]; auto. }
  assert (Ht : 0 < vsum (map Rabs u)) by (eapply vsum_abs_pos; eauto).
  assert (Hts : vsum (map Rabs u) = c * vsum u).
  { rewrite Habs. pose proof (vsum_map_scale c (fun a => a) u) as E.
    rewrite map_id in E. exact E. }
  assert (Hc : c * c = 1).
  { pose proof (Hpt x0 Hin) as H0. unfold Rabs in H0.
    destruct (Rcase_abs x0).
    - assert (c = -1) by (apply (Rmult_eq_reg_r x0); lra). subst c. lra.
    - assert (c = 1) by (apply (Rmult_eq_reg_r x0); lra). subst c. lra. }
  assert (Hs : vsum u <> 0) by (intros E; rewrite E in Hts; lra).
  split; [exact Hs|split].
  - rewrite vsum_map_div. now field.
  - apply Forall_map. apply List.Forall_forall. intros x Hx.
    replace (x / vsum u) with (Rabs x / vsum (map Rabs u)).
    + apply Rmult_le_pos; [apply Rabs_pos | left; now apply Rinv_0_lt_compat].
    + rewrite Hts, (Hpt x Hx). field. split; [exact Hs | nra].
Qed.

(** C2, as stated, fails: the 2x2 identity is row-stochastic, the
    eigen-solver's answer for it is a pair of genuine left eigenpairs, both
    eigenvalues are flagged as close to 1, and [diffusion] returns the 2-D
    array [[1/2, 0], [0, 1/2]]: not a 1-D vector, and none of its columns
    sums to 1. *)
Lemma diffusion_identity_is_not_a_probability_vector :
  row_stochastic I2 /\
  is_left_eigenpair I2 (RtoC 1) [RtoC 1; RtoC 0] /\
  is_left_eigenpair I2 (RtoC 1) [RtoC 0; RtoC 1] /\
  diffusion eig_I2 I2 None None false = Ok (Arr2 [[1/2; 0]; [0; 1/2]]) /\
  ~ (exists mu : vec,
       diffusion eig_I2 I2 None None false = Ok (Arr1 mu) /\
       stationary_distribution_of I2 mu) /\
  vsum (col 0 [[1/2; 0]; [0; 1/2]]) <> 1.
Proof.
  assert (Hrun : diffusion eig_I2 I2 None None false = Ok (Arr2 [[1/2; 0]; [0; 1/2]])).
  { unfold diffusion, eig_I2. simpl. rewrite isclose_c_one. simpl.
    unfold sum_all. simpl.
    replace (1 / (1 + (0 + 0) + (0 + (1 + 0) + 0))) with (1 / 2) by (field; lra).
    replace (0 / (1 + (0 + 0) + (0 + (1 + 0) + 0))) with 0 by (field; lra).
    rewrite !zero_negative_noise_nonneg by lra. reflexivity. }
  repeat split.
  - repeat constructor.
  - repeat constructor; lra.
  - repeat constructor; simpl; lra.
  - unfold vec_mat, col, dot. simpl. list_R_eq.
  - unfold vec_mat, col, dot. simpl. list_R_eq.
  - unfold vec_mat, col, dot. simpl. list_R_eq.
  - unfold vec_mat, col, dot. simpl. list_R_eq.
  - exact Hrun.
  - intros (mu & Hmu & _). rewrite Hrun in Hmu. discriminate Hmu.
  - simpl. lra.
Qed.

(** C2, amended: let [P] be square and row-stochastic, let exactly one
    eigenvalue returned by the eigen-solver be flagged as close to 1, let it
    be 1 itself with a genuine left eigenvector whose real part [u] is not
    zero, and let every vector fixed by [P] be a multiple of [u].  Then
    [diffusion] returns a two-dimensional n x 1 column whose entries form a
    probability vector [mu] (non-negative, summing to 1) with
    [mu . P = mu]. *)
Theorem diffusion_simple_unit_eigenvalue_is_stationary
    (eig : mat -> result (list complex * list (list complex)))
    (P : mat) (w1 w2 : list complex) (vl : list (list complex)) :
  row_stochastic P ->
  eig P = Ok (w1 ++ RtoC 1 :: w2, vl) ->
  Forall (fun l => isclose_c l 1 = false) w1 ->
  Forall (fun l => isclose_c l 1 = false) w2 ->
  length vl = length P ->
  Forall (fun r => length r = length (w1 ++ RtoC 1 :: w2)) vl ->
  is_left_eigenpair P (RtoC 1) (col_c (length w1) vl) ->
  (exists x, In x (map Cre (col_c (length w1) vl)) /\ x <> 0) ->
  (forall u' : vec, length u' = length P -> vec_mat u' P = u' ->
     exists c, u' = map (Rmult c) (map Cre (col_c (length w1) vl))) ->
  exists mu : vec,
    diffusion eig P None None false = Ok (Arr2 (map (fun x => [x]) mu)) /\
    stationary_distribution_of P mu.
Proof.
  intros (Hshape & Hpos & Hsum) Heig H1 H2 Hlen Hrows Hpair Hnz Huniq.
  set (u := map Cre (col_c (length w1) vl)) in *.
  assert (Hu_len : length u = length P).
  { unfold u, col_c. now rewrite !length_map. }
  assert (Hfix : vec_mat u P = u) by (apply left_eigenpair_one_fixed; exact Hpair).
  assert (Habs : vec_mat (map Rabs u) P = map Rabs u).
  { apply abs_of_fixed_vector_is_fixed; assumption. }
  destruct (Huniq (map Rabs u)) as [c Hc]; [now rewrite length_map | exact Habs |].
  destruct (normalized_of_constant_sign u c Hc Hnz) as (Hs & Hone & Hnonneg).
  exists (map (fun x => x / vsum u) u). split.
  - unfold diffusion. rewrite Heig. simpl.
    rewrite selected_unit_column by assumption. fold u.
    rewrite sum_all_column. unfold div_scalar. rewrite !map_map. simpl.
    do 2 f_equal. apply map_ext_in. intros x Hx. f_equal.
    apply zero_negative_noise_nonneg.
    rewrite List.Forall_forall in Hnonneg. apply Hnonneg.
    apply in_map_iff. exists x. auto.
  - split; [now rewrite length_map|].
    split; [exact Hone|]. split; [exact Hnonneg|].
    rewrite vec_mat_div_l, Hfix. reflexivity.
Qed.

Lemma diffusion_simple_unit_eigenvalue_is_stationary_witness :
  exists mu : vec,
    diffusion eig_absorbing M_absorbing None None false = Ok (Arr2 (map (fun x => [x]) mu)) /\
    stationary_distribution_of M_absorbing mu.
Proof.
  assert (Hhalf : isclose_c (RtoC (1/2)) 1 = false).
  { apply isclose_c_far. replace (1 / 2 - 1) with (- (1 / 2)) by lra.
    rewrite Rabs_Ropp, Rabs_right; lra. }
  apply (diffusion_simple_unit_eigenvalue_is_stationary eig_absorbing M_absorbing
           [] [RtoC (1/2)] [[RtoC 1; RtoC 1]; [RtoC 0; RtoC (-1)]]).
  - repeat split; repeat constructor; simpl; lra.
  - reflexivity.
  - constructor.
  - constructor; [exact Hhalf | constructor].
  - reflexivity.
  - repeat constructor.
  - split; unfold vec_mat, col, dot, M_absorbing; simpl; list_R_eq.
  - exists 1. split; [simpl; left; reflexivity | lra].
  - intros u' Hu' Hfix. destruct u' as [|a [|b [|? ?]]]; try discriminate.
    exists a. unfold vec_mat, col, dot, M_absorbing in Hfix. simpl in Hfix.
    injection Hfix as Ha Hb. simpl. f_equal; [lra|]. f_equal. lra.
Defined.

(** *** The backward pass *)

Lemma backward_matrix_P_chain : backward_matrix P_chain = [[2/3; 1/5]; [2/3; 3/5]].
Proof.
  unfold backward_matrix, P_chain, transpose, col, div_bcast_last, sum_axis1.
  simpl. repeat (apply (f_equal2 cons)); try reflexivity; field.
Qed.

Lemma transpose_row_renormalized_P_chain :
  transpose_row_renormalized P_chain = [[2/3; 1/3]; [2/5; 3/5]].
Proof.
  unfold transpose_row_renormalized, P_chain, transpose, col, div_bcast_rows, sum_axis1.
  simpl. repeat (apply (f_equal2 cons)); try reflexivity; field.
Qed.

(** The two eigen-solver answers are genuine: each column is a left
    eigenvector for its eigenvalue. *)
Lemma eig_answers_P_chain_genuine :
  is_left_eigenpair (backward_matrix P_chain) (RtoC 1) [RtoC 2; RtoC 1] /\
  is_left_eigenpair (backward_matrix P_chain) (RtoC (4/15)) [RtoC 5; RtoC (-3)] /\
  is_left_eigenpair (transpose_row_renormalized P_chain) (RtoC 1) [RtoC 6; RtoC 5] /\
  is_left_eigenpair (transpose_row_renormalized P_chain) (RtoC (4/15)) [RtoC 1; RtoC (-1)].
Proof.
  rewrite backward_matrix_P_chain, transpose_row_renormalized_P_chain.
  repeat split; unfold vec_mat, col, dot; simpl; list_R_eq.
Qed.

Lemma isclose_c_four_fifteenths : isclose_c (RtoC (4/15)) 1 = false.
Proof.
  apply isclose_c_far. replace (4 / 15 - 1) with (- (11 / 15)) by lra.
  rewrite Rabs_Ropp, Rabs_right; lra.
Qed.

(** C4, at the failing input [P = [[1/2, 1/2], [1/4, 3/4]]]: the backward
    pass divides column [j] of [P.T] by the sum of row [j], which gives
    [[2/3, 1/5], [2/3, 3/5]] and the distribution (2/3, 1/3), whereas the
    row-renormalised transpose is [[2/3, 1/3], [2/5, 3/5]] with the
    distribution (6/11, 5/11).  One step from [P0 = [1, 0]] shows the same
    without the eigen-solver: [2/3, 1/5] against [2/3, 1/3]. *)
Theorem diffusion_backward_is_not_row_renormalized
    (eig : mat -> result (list complex * list (list complex))) :
  eig (backward_matrix P_chain) = Ok eig_answer_backward ->
  eig (transpose_row_renormalized P_chain) = Ok eig_answer_renormalized ->
  backward_matrix P_chain = [[2/3; 1/5]; [2/3; 3/5]] /\
  transpose_row_renormalized P_chain = [[2/3; 1/3]; [2/5; 3/5]] /\
  diffusion eig P_chain None None true = Ok (Arr2 [[2/3]; [1/3]]) /\
  diffusion eig (transpose_row_renormalized P_chain) None None false
    = Ok (Arr2 [[6/11]; [5/11]]) /\
  diffusion eig P_chain (Some [1; 0]) (Some 1%nat) true = Ok (Arr1 [2/3; 1/5]) /\
  diffusion eig (transpose_row_renormalized P_chain) (Some [1; 0]) (Some 1%nat) false
    = Ok (Arr1 [2/3; 1/3]).
Proof.
  intros Hb Hq.
  split; [exact backward_matrix_P_chain|].
  split; [exact transpose_row_renormalized_P_chain|].
  split; [|split; [|split]].
  - unfold diffusion. rewrite Hb. unfold eig_answer_backward. simpl.
    rewrite isclose_c_one, isclose_c_four_fifteenths. simpl.
    unfold sum_all. simpl.
    replace (2 / (2 + 0 + (1 + 0 + 0))) with (2 / 3) by (field; lra).
    replace (1 / (2 + 0 + (1 + 0 + 0))) with (1 / 3) by (field; lra).
    rewrite !zero_negative_noise_nonneg by lra. reflexivity.
  - unfold diffusion. cbv iota. rewrite Hq. unfold eig_answer_renormalized. simpl.
    rewrite isclose_c_one, isclose_c_four_fifteenths. simpl.
    unfold sum_all. simpl.
    replace (6 / (6 + 0 + (5 + 0 + 0))) with (6 / 11) by (field; lra).
    replace (5 / (6 + 0 + (5 + 0 + 0))) with (5 / 11) by (field; lra).
    rewrite !zero_negative_noise_nonneg by lra. reflexivity.
  - unfold diffusion. rewrite backward_matrix_P_chain.
    unfold matrix_power_checked, vec_mat_checked. simpl.
    unfold vec_mat, col, dot. simpl. do 2 f_equal. list_R_eq.
  - unfold diffusion. cbv iota. rewrite transpose_row_renormalized_P_chain.
    unfold matrix_power_checked, vec_mat_checked. simpl.
    unfold vec_mat, col, dot. simpl. do 2 f_equal. list_R_eq.
Qed.

Lemma diffusion_backward_is_not_row_renormalized_witness :
  diffusion eig_chain P_chain None None true = Ok (Arr2 [[2/3]; [1/3]]) /\
  diffusion eig_chain (transpose_row_renormalized P_chain) None None false
    = Ok (Arr2 [[6/11]; [5/11]]).
Proof.
  assert (Hb : eig_chain (backward_matrix P_chain) = Ok eig_answer_backward).
  { rewrite backward_matrix_P_chain. unfold eig_chain. simpl.
    destruct (Req_dec_T (1 / 5) (1 / 5)); [reflexivity | congruence]. }
  assert (Hq : eig_chain (transpose_row_renormalized P_chain) = Ok eig_answer_renormalized).
  { rewrite transpose_row_renormalized_P_chain. unfold eig_chain. simpl.
    destruct (Req_dec_T (1 / 3) (1 / 5)); [lra | reflexivity]. }
  pose proof (diffusion_backward_is_not_row_renormalized eig_chain Hb Hq)
    as (_ & _ & H1 & H2 & _).
  split; [exact H1 | exact H2].
Defined.

(** *** Power iteration *)

Lemma diffusion_steps_from_P0
    (eig : mat -> result (list complex * list (list complex)))
    (M : mat) (p : vec) (steps : nat) :
  is_square M = true -> length p = length M ->
  length (matrix_power M steps) = length M ->
  diffusion eig M (Some p) (Some steps) false = Ok (Arr1 (vec_mat p (matrix_power M steps))).
Proof.
  intros Hsq Hp Hlen. unfold diffusion, matrix_power_checked, vec_mat_checked.
  rewrite Hsq. simpl. unfold nrows. rewrite Hlen, Hp, Nat.eqb_refl. reflexivity.
Qed.

(** With [P0=None] the code multiplies [M] once more before averaging:
    it averages the rows of the power [steps + 1]. *)
Lemma diffusion_steps_without_P0
    (eig : mat -> result (list complex * list (list complex)))
    (M : mat) (steps : nat) :
  is_square M = true -> (1 <= steps)%nat ->
  diffusion eig M None (Some steps) false = Ok (Arr1 (rows_average_of_power M (S steps))).
Proof.
  intros Hsq Hk. unfold diffusion, matrix_power_checked, rows_average_of_power.
  rewrite Hsq. simpl. destruct steps as [|k]; [lia|]. reflexivity.
Qed.

(** C5, at the failing input [M = [[1, 0], [1/2, 1/2]]], [steps = 1]: with
    a supplied [P0 = [0, 1]] the code returns [P0 . M^1 = [1/2, 1/2]], but
    with [P0=None] it returns [[7/8, 1/8]], the average of the rows of
    [M^2], and not [[3/4, 1/4]], the average of the rows of [M^1]. *)
Theorem diffusion_power_iteration_one_step_too_many
    (eig : mat -> result (list complex * list (list complex))) :
  diffusion eig M_absorbing (Some [0; 1]) (Some 1%nat) false = Ok (Arr1 [1/2; 1/2]) /\
  diffusion eig M_absorbing None (Some 1%nat) false = Ok (Arr1 [7/8; 1/8]) /\
  rows_average_of_power M_absorbing 1 = [3/4; 1/4] /\
  diffusion eig M_absorbing None (Some 1%nat) false
    <> Ok (Arr1 (rows_average_of_power M_absorbing 1)).
Proof.
  assert (H1 : diffusion eig M_absorbing None (Some 1%nat) false = Ok (Arr1 [7/8; 1/8])).
  { unfold diffusion, matrix_power_checked, M_absorbing. simpl.
    unfold nanmean0, matmul, vec_mat, col, dot. simpl.
    do 2 f_equal. list_R_eq. }
  assert (H2 : rows_average_of_power M_absorbing 1 = [3/4; 1/4]).
  { unfold rows_average_of_power, nanmean0, M_absorbing, col. simpl.
    list_R_eq. }
  split; [|split; [exact H1|split; [exact H2|]]].
  - unfold diffusion, matrix_power_checked, vec_mat_checked, M_absorbing. simpl.
    unfold vec_mat, col, dot. simpl.
    do 2 f_equal. list_R_eq.
  - rewrite H1, H2. intros H. injection H as H. lra.
Qed.

(** *** Expected return time *)

(** C7: whenever [diffusion] with the default [P0] and [steps] returns the
    steady state [mu], [expected_return_time] returns an array with as many
    rows, which holds at every entry where [mu] is positive the reciprocal
    of that entry. *)
Theorem expected_return_time_is_reciprocal
    (eig : mat -> result (list complex * list (list complex)))
    (M : mat) (backward : bool) (mu : mat) :
  diffusion eig M None None backward = Ok (Arr2 mu) ->
  exists T : mat,
    expected_return_time eig M backward = Ok (Arr2 T) /\
    length T = length mu /\
    forall (i j : nat) (x : R),
      entry mu i j = Some x -> 0 < x ->
      entry T i j = Some (1 / x) /\ x * (1 / x) = 1.
Proof.
  intros Hd. exists (map (map (fun x => 1 / x)) mu).
  split; [|split].
  - unfold expected_return_time. rewrite Hd. reflexivity.
  - now rewrite length_map.
  - intros i j x Hx Hpos. split; [|field; lra].
    unfold entry in *. rewrite lookup_map.
    destruct (mu !! i) as [r|] eqn:Hr; simpl in *; [|discriminate].
    rewrite lookup_map, Hx. reflexivity.
Qed.

Lemma expected_return_time_is_reciprocal_witness :
  exists T : mat,
    expected_return_time eig_one [[1]] false = Ok (Arr2 T) /\ entry T 0 0 = Some (1 / 1).
Proof.
  assert (Hd : diffusion eig_one [[1]] None None false = Ok (Arr2 [[1]])).
  { unfold diffusion, eig_one. simpl. rewrite isclose_c_one. simpl.
    unfold sum_all. simpl. replace (1 / (1 + 0 + 0)) with 1 by (field; lra).
    rewrite zero_negative_noise_nonneg by lra. reflexivity. }
  destruct (expected_return_time_is_reciprocal eig_one [[1]] false [[1]] Hd)
    as (T & HT & _ & Hent).
  exists T. split; [exact HT|].
  apply (Hent 0%nat 0%nat 1); [reflexivity | lra].
Defined.

End DiffusionFacts.

(** ** More on the steady-state module: power iteration *)

Module PowerIterationFacts.

Import Np NpFacts Diffusion Examples DiffusionFacts.
Local Open Scope R_scope.

(** *** Shapes *)

Lemma is_square_shape (M : mat) :
  has_shape (length M) (length M) M -> is_square M = true.
Proof.
  intros [_ H]. unfold is_square. apply forallb_forall. intros r Hr.
  rewrite List.Forall_forall in H. apply Nat.eqb_eq. apply H. exact Hr.
Qed.

Lemma length_vec_mat (p : vec) (M : mat) : length (vec_mat p M) = ncols M.
Proof. unfold vec_mat. now rewrite length_map, length_seq. Qed.

Lemma ncols_shape (n m : nat) (M : mat) : has_shape n m M -> M <> [] -> ncols M = m.
Proof.
  intros [_ H] Hne. destruct M as [|r M]; [congruence|]. inversion H; assumption.
Qed.

Lemma ncols_of_square (n : nat) (M : mat) : has_shape n n M -> ncols M = n.
Proof.
  intros [Hl Hr]. destruct M as [|r M]; [exact Hl|]. inversion Hr; assumption.
Qed.

Lemma shape_matmul (n : nat) (A B : mat) :
  has_shape n n A -> has_shape n n B -> has_shape n n (matmul A B).
Proof.
  intros [HA _] [HB HBr]. unfold matmul. split; [now rewrite length_map|].
  apply Forall_map. apply List.Forall_forall. intros r _. simpl.
  rewrite length_vec_mat. destruct B as [|b B].
  - simpl in *. exact HB.
  - inversion HBr; assumption.
Qed.

Lemma shape_identity (n : nat) : has_shape n n (identity n).
Proof.
  unfold identity. split; [now rewrite length_map, length_seq|].
  apply Forall_map. apply List.Forall_forall. intros i _.
  now rewrite length_map, length_seq.
Qed.

Lemma matrix_power_succ (M : mat) (k : nat) :
  matrix_power M (S (S k)) = matmul M (matrix_power M (S k)).
Proof. reflexivity. Qed.

Lemma shape_matrix_power (M : mat) (k : nat) :
  has_shape (length M) (length M) M ->
  has_shape (length M) (length M) (matrix_power M k).
Proof.
  intros HM. destruct k as [|k]; [apply shape_identity|].
  induction k as [|k IH]; [exact HM|].
  rewrite matrix_power_succ. apply shape_matmul; assumption.
Qed.

(** *** Distributions *)

Lemma dot_nonneg (u c : vec) :
  Forall (fun x => 0 <= x) u -> Forall (fun x => 0 <= x) c -> 0 <= dot u c.
Proof.
  intros Hu. revert c. induction Hu as [|x u Hx _ IH]; intros c Hc.
  - unfold dot. simpl. lra.
  - destruct Hc as [|y c Hy Hc]; [rewrite dot_nil_r; lra|].
    rewrite dot_cons. specialize (IH c Hc). nra.
Qed.

Lemma vec_mat_nonneg (p : vec) (M : mat) :
  Forall (fun x => 0 <= x) p -> Forall (Forall (fun x => 0 <= x)) M ->
  Forall (fun x => 0 <= x) (vec_mat p M).
Proof.
  intros Hp HM. unfold vec_mat. apply Forall_map. apply List.Forall_forall.
  intros j _. simpl. apply dot_nonneg; [exact Hp | apply col_nonneg; exact HM].
Qed.

(** Multiplying a vector by a row-stochastic matrix keeps its sum. *)
Lemma vsum_vec_mat_stochastic (p : vec) (M : mat) :
  row_stochastic M -> length p = length M -> vsum (vec_mat p M) = vsum p.
Proof.
  intros (Hshape & _ & Hsum) Hlen. unfold vec_mat.
  rewrite (ncols_square M Hshape).
  rewrite (vsum_vec_mat_cols p M (length M)) by apply Hshape.
  apply dot_row_sums_one; assumption.
Qed.

Lemma matmul_stochastic (A B : mat) :
  length A = length B -> row_stochastic A -> row_stochastic B ->
  row_stochastic (matmul A B).
Proof.
  intros Hlen HA HB.
  destruct HA as (HAs & HAp & HAu). pose proof HB as (HBs & HBp & HBu).
  unfold row_stochastic. unfold matmul at 1 2. rewrite length_map.
  split; [|split].
  - rewrite Hlen. apply shape_matmul; [rewrite <- Hlen; exact HAs | exact HBs].
  - unfold matmul. apply Forall_map. apply List.Forall_forall. intros r Hr. simpl.
    rewrite List.Forall_forall in HAp. apply vec_mat_nonneg; [apply HAp; exact Hr | exact HBp].
  - unfold matmul. apply Forall_map. apply List.Forall_forall. intros r Hr. simpl.
    destruct HAs as [_ HAr]. rewrite List.Forall_forall in HAr, HAu.
    rewrite vsum_vec_mat_stochastic; [apply HAu; exact Hr | exact HB |].
    rewrite <- Hlen. apply HAr. exact Hr.
Qed.

Lemma vsum_unit_row (i s n : nat) :
  vsum (map (fun j => if Nat.eqb i j then 1 else 0) (seq s n))
  = if (Nat.leb s i && Nat.ltb i (s + n))%bool then 1 else 0.
Proof.
  revert s. induction n as [|n IH]; intros s.
  - simpl. destruct (Nat.leb s i) eqn:E1; simpl; [|reflexivity].
    destruct (Nat.ltb i (s + 0)) eqn:E2; [|reflexivity].
    apply Nat.leb_le in E1. apply Nat.ltb_lt in E2. lia.
  - simpl seq. simpl map. rewrite vsum_cons, IH.
    destruct (Nat.eqb i s) eqn:E.
    + apply Nat.eqb_eq in E. subst s.
      replace (Nat.leb (S i) i) with false by (symmetry; apply Nat.leb_gt; lia).
      replace (Nat.leb i i) with true by (symmetry; apply Nat.leb_le; lia).
      replace (Nat.ltb i (i + S n)) with true by (symmetry; apply Nat.ltb_lt; lia).
      simpl. lra.
    + apply Nat.eqb_neq in E.
      destruct (Nat.leb s i) eqn:E1.
      * apply Nat.leb_le in E1.
        replace (Nat.leb (S s) i) with true by (symmetry; apply Nat.leb_le; lia).
        replace (S s + n)%nat with (s + S n)%nat by lia. simpl. lra.
      * apply Nat.leb_gt in E1.
        replace (Nat.leb (S s) i) with false by (symmetry; apply Nat.leb_gt; lia).
        simpl. lra.
Qed.

Lemma identity_stochastic (n : nat) : row_stochastic (identity n).
Proof.
  pose proof (shape_identity n) as Hs. pose proof Hs as [Hl _].
  unfold row_stochastic. rewrite Hl. split; [exact Hs|].
  unfold identity. split; apply Forall_map; apply List.Forall_forall; intros i Hi; simpl.
  - apply Forall_map. apply List.Forall_forall. intros j _. simpl.
    destruct (Nat.eqb i j); lra.
  - apply in_seq in Hi. rewrite vsum_unit_row.
    replace (Nat.ltb i (0 + n)) with true by (symmetry; apply Nat.ltb_lt; lia).
    reflexivity.
Qed.

Lemma matrix_power_stochastic (M : mat) (k : nat) :
  row_stochastic M ->
  row_stochastic (matrix_power M k) /\ length (matrix_power M k) = length M.
Proof.
  intros HM. pose proof HM as (Hs & _ & _).
  split; [|apply shape_matrix_power; exact Hs].
  destruct k as [|k]; [apply identity_stochastic|].
  induction k as [|k IH]; [exact HM|].
  rewrite matrix_power_succ. apply matmul_stochastic; [|exact HM | exact IH].
  symmetry. apply (shape_matrix_power M (S k)). exact Hs.
Qed.

Lemma M_absorbing_stochastic : row_stochastic M_absorbing.
Proof. repeat split; repeat constructor; simpl; lra. Qed.

(** X1: power iteration from a supplied distribution.  For a row-stochastic
    [M], a probability vector [P0] over its states and any number of steps,
    [diffusion] returns a one-dimensional probability vector over the same
    states. *)
Theorem diffusion_steps_keeps_distribution
    (eig : mat -> result (list complex * list (list complex)))
    (M : mat) (p : vec) (steps : nat) :
  row_stochastic M ->
  length p = length M -> Forall (fun x => 0 <= x) p -> vsum p = 1 ->
  exists mu : vec,
    diffusion eig M (Some p) (Some steps) false = Ok (Arr1 mu) /\
    length mu = length M /\ Forall (fun x => 0 <= x) mu /\ vsum mu = 1.
Proof.
  intros HM Hlen Hpos Hsum. pose proof HM as (Hs & _ & _).
  destruct (matrix_power_stochastic M steps HM) as [HMk HMkl].
  exists (vec_mat p (matrix_power M steps)). split; [|split; [|split]].
  - unfold diffusion, matrix_power_checked, vec_mat_checked.
    rewrite (is_square_shape M Hs). simpl. unfold nrows.
    rewrite HMkl, Hlen, Nat.eqb_refl. reflexivity.
  - rewrite length_vec_mat, ncols_square by apply HMk. exact HMkl.
  - apply vec_mat_nonneg; [exact Hpos | apply HMk].
  - rewrite vsum_vec_mat_stochastic; [exact Hsum | exact HMk | congruence].
Qed.

Lemma diffusion_steps_keeps_distribution_witness :
  exists mu : vec,
    diffusion eig_one M_absorbing (Some [0; 1]) (Some 5%nat) false = Ok (Arr1 mu) /\
    length mu = 2%nat /\ Forall (fun x => 0 <= x) mu /\ vsum mu = 1.
Proof.
  apply (diffusion_steps_keeps_distribution eig_one M_absorbing [0; 1] 5).
  - exact M_absorbing_stochastic.
  - reflexivity.
  - repeat constructor; lra.
  - simpl. lra.
Defined.

Lemma dot_ones (c : vec) : dot (repeat 1 (length c)) c = vsum c.
Proof.
  induction c as [|x c IH]; [reflexivity|].
  simpl repeat. rewrite dot_cons, IH. simpl. lra.
Qed.

Lemma vsum_columns (A : mat) (m : nat) :
  Forall (fun r => length r = m) A ->
  vsum (map (fun j => vsum (col j A)) (seq 0 m)) = vsum (sum_axis1 A).
Proof.
  intros HA.
  rewrite (map_ext _ (fun j => dot (repeat 1 (length A)) (col j A))).
  - rewrite (vsum_vec_mat_cols _ A m HA).
    replace (length A) with (length (sum_axis1 A)) by (unfold sum_axis1; apply length_map).
    apply dot_ones.
  - intros j. replace (length A) with (length (col j A)) by (unfold col; apply length_map).
    symmetry. apply dot_ones.
Qed.

Lemma vsum_row_sums_stochastic (A : mat) :
  Forall (fun r => vsum r = 1) A -> vsum (sum_axis1 A) = INR (length A).
Proof.
  induction 1 as [|r A Hr _ IH]; [reflexivity|].
  simpl sum_axis1. rewrite vsum_cons, Hr, IH.
  change (length (r :: A)) with (S (length A)). rewrite S_INR. lra.
Qed.

(** X2: power iteration without an initial distribution.  For a
    row-stochastic [M] with at least one state and any number of steps, the
    average of the rows that [diffusion] returns is a one-dimensional
    probability vector over the states. *)
Theorem diffusion_steps_average_is_distribution
    (eig : mat -> result (list complex * list (list complex)))
    (M : mat) (steps : nat) :
  row_stochastic M ->
  M <> [] ->
  exists mu : vec,
    diffusion eig M None (Some steps) false = Ok (Arr1 mu) /\
    length mu = length M /\ Forall (fun x => 0 <= x) mu /\ vsum mu = 1.
Proof.
  intros HM Hne. pose proof HM as (Hs & _ & _).
  destruct (matrix_power_stochastic M steps HM) as [HMk HMkl].
  assert (HA : row_stochastic (matmul M (matrix_power M steps)))
    by (apply matmul_stochastic; [congruence | exact HM | exact HMk]).
  set (A := matmul M (matrix_power M steps)) in *.
  assert (HAl : length A = length M) by (unfold A, matmul; apply length_map).
  assert (Hn : 0 < INR (length M)).
  { apply lt_0_INR. destruct M; [congruence | simpl; lia]. }
  destruct HA as (HAs & HAp & HAu).
  exists (nanmean0 A). split; [|split; [|split]].
  - unfold diffusion, matrix_power_checked.
    rewrite (is_square_shape M Hs). reflexivity.
  - unfold nanmean0. rewrite length_map, length_seq, (ncols_square A HAs). exact HAl.
  - unfold nanmean0. apply Forall_map. apply List.Forall_forall. intros j _. simpl.
    unfold nrows. rewrite HAl. apply Rmult_le_pos.
    + apply vsum_nonneg, col_nonneg, HAp.
    + left. apply Rinv_0_lt_compat. exact Hn.
  - unfold nanmean0, nrows. rewrite (ncols_square A HAs), HAl.
    rewrite <- (map_map (fun j => vsum (col j A)) (fun x => x / INR (length M))).
    rewrite vsum_map_div, <- HAl at 1.
    rewrite vsum_columns by apply HAs.
    rewrite vsum_row_sums_stochastic by exact HAu.
    rewrite HAl. field. lra.
Qed.

Lemma diffusion_steps_average_is_distribution_witness :
  exists mu : vec,
    diffusion eig_one M_absorbing None (Some 5%nat) false = Ok (Arr1 mu) /\
    length mu = 2%nat /\ Forall (fun x => 0 <= x) mu /\ vsum mu = 1.
Proof.
  apply (diffusion_steps_average_is_distribution eig_one M_absorbing 5).
  - exact M_absorbing_stochastic.
  - discriminate.
Defined.

(** *** Steps compose *)

Lemma dot_map_zero {A : Type} (l : list A) (c : vec) : dot (map (fun _ => 0) l) c = 0.
Proof.
  revert c. induction l as [|a l IH]; intros c; [reflexivity|].
  destruct c as [|y c]; [apply dot_nil_r|].
  simpl map. rewrite dot_cons, IH. lra.
Qed.

Lemma dot_map_plus {A : Type} (f g : A -> R) (l : list A) (c : vec) :
  dot (map (fun a => f a + g a) l) c = dot (map f l) c + dot (map g l) c.
Proof.
  revert c. induction l as [|a l IH]; intros c; [unfold dot; simpl; lra|].
  destruct c as [|y c]; [rewrite !dot_nil_r; lra|].
  simpl map. rewrite !dot_cons, IH. lra.
Qed.

Lemma dot_map_scale {A : Type} (x : R) (f : A -> R) (l : list A) (c : vec) :
  dot (map (fun a => x * f a) l) c = x * dot (map f l) c.
Proof.
  revert c. induction l as [|a l IH]; intros c; [unfold dot; simpl; lra|].
  destruct c as [|y c]; [rewrite !dot_nil_r; lra|].
  simpl map. rewrite !dot_cons, IH. lra.
Qed.

(** [(p . A) . c = p . (A c)] for a matrix with [m] columns. *)
Lemma dot_vec_mat (p : vec) (A : mat) (c : vec) (m : nat) :
  Forall (fun r => length r = m) A ->
  dot (map (fun j => dot p (col j A)) (seq 0 m)) c
  = dot p (map (fun r => dot r c) A).
Proof.
  intros HA. revert p. induction HA as [|r A Hr _ IH]; intros p.
  - change (map (fun r => dot r c) []) with (@nil R). rewrite dot_nil_r.
    erewrite map_ext; [apply dot_map_zero|]. intros j. apply dot_nil_r.
  - destruct p as [|x p].
    + change (dot [] (map (fun r0 => dot r0 c) (r :: A))) with 0.
      erewrite map_ext; [apply dot_map_zero|]. intros j. reflexivity.
    + simpl map at 2. rewrite dot_cons.
      rewrite (map_ext _ (fun j => x * nth j r 0 + dot p (col j A)))
        by (intros j; reflexivity).
      rewrite dot_map_plus, dot_map_scale, IH.
      rewrite <- Hr, map_nth_seq. reflexivity.
Qed.

Lemma nth_vec_mat (r : vec) (B : mat) (j : nat) :
  (j < ncols B)%nat -> nth j (vec_mat r B) 0 = dot r (col j B).
Proof.
  intros Hj. unfold vec_mat.
  rewrite (nth_indep _ 0 (dot r (col 0 B))) by (now rewrite length_map, length_seq).
  rewrite (map_nth (fun j => dot r (col j B)) (seq 0 (ncols B)) 0%nat j).
  now rewrite seq_nth.
Qed.

(** [p . (A . B) = (p . A) . B] for square matrices of one size. *)
Lemma vec_mat_matmul (n : nat) (p : vec) (A B : mat) :
  has_shape n n A -> has_shape n n B ->
  vec_mat p (matmul A B) = vec_mat (vec_mat p A) B.
Proof.
  intros HA HB.
  pose proof (shape_matmul n A B HA HB) as HAB.
  assert (HcAB : ncols (matmul A B) = n).
  { destruct HAB as [Hl Hr]. rewrite <- Hl. apply ncols_square. rewrite Hl. split; auto. }
  assert (HcA : ncols A = n).
  { destruct HA as [Hl Hr]. rewrite <- Hl. apply ncols_square. rewrite Hl. split; auto. }
  assert (HcB : ncols B = n).
  { destruct HB as [Hl Hr]. rewrite <- Hl. apply ncols_square. rewrite Hl. split; auto. }
  unfold vec_mat at 1 2. rewrite HcAB, HcB.
  apply map_ext_in. intros j Hj. apply in_seq in Hj.
  unfold vec_mat. rewrite HcA.
  rewrite (dot_vec_mat p A (col j B) n) by apply HA.
  f_equal. unfold col at 1. unfold matmul. rewrite map_map.
  apply map_ext. intros r. apply nth_vec_mat. lia.
Qed.

Lemma vec_mat_matrix_power_succ (M : mat) (p : vec) (k : nat) :
  has_shape (length M) (length M) M ->
  vec_mat p (matrix_power M (S (S k))) = vec_mat (vec_mat p M) (matrix_power M (S k)).
Proof.
  intros HM. rewrite matrix_power_succ.
  apply (vec_mat_matmul (length M)); [exact HM | apply shape_matrix_power; exact HM].
Qed.

Lemma vec_mat_matrix_power_add (M : mat) (p : vec) (a b : nat) :
  has_shape (length M) (length M) M ->
  vec_mat p (matrix_power M (S a + S b))
  = vec_mat (vec_mat p (matrix_power M (S a))) (matrix_power M (S b)).
Proof.
  intros HM. revert p. induction a as [|a IH]; intros p.
  - simpl Nat.add. apply vec_mat_matrix_power_succ. exact HM.
  - change (S (S a) + S b)%nat with (S (S (a + S b))).
    replace (S (a + S b)) with (S a + S b)%nat by lia.
    replace (S (S a + S b)) with (S (S (a + S b))) by lia.
    rewrite vec_mat_matrix_power_succ by exact HM.
    replace (S (a + S b)) with (S a + S b)%nat by lia.
    rewrite IH. rewrite <- vec_mat_matrix_power_succ by exact HM. reflexivity.
Qed.

Lemma diffusion_steps_value
    (eig : mat -> result (list complex * list (list complex)))
    (M : mat) (p : vec) (steps : nat) :
  has_shape (length M) (length M) M ->
  length p = length M ->
  diffusion eig M (Some p) (Some steps) false
  = Ok (Arr1 (vec_mat p (matrix_power M steps))).
Proof.
  intros HM Hlen. apply diffusion_steps_from_P0.
  - apply is_square_shape. exact HM.
  - exact Hlen.
  - apply shape_matrix_power. exact HM.
Qed.

(** X3: steps compose.  For a square [M], an initial vector of its size and
    [a, b >= 1], running [a + b] steps is running [a] steps and then [b]
    steps from the vector reached. *)
Theorem diffusion_steps_compose
    (eig : mat -> result (list complex * list (list complex)))
    (M : mat) (p : vec) (a b : nat) :
  has_shape (length M) (length M) M ->
  length p = length M ->
  (1 <= a)%nat -> (1 <= b)%nat ->
  exists mid : vec,
    diffusion eig M (Some p) (Some a) false = Ok (Arr1 mid) /\
    diffusion eig M (Some p) (Some (a + b)%nat) false
    = diffusion eig M (Some mid) (Some b) false.
Proof.
  intros HM Hlen Ha Hb.
  destruct a as [|a]; [lia|]. destruct b as [|b]; [lia|].
  exists (vec_mat p (matrix_power M (S a))).
  assert (Hmid : length (vec_mat p (matrix_power M (S a))) = length M).
  { rewrite length_vec_mat.
    apply ncols_of_square, shape_matrix_power. exact HM. }
  rewrite !diffusion_steps_value by assumption.
  split; [reflexivity|].
  now rewrite vec_mat_matrix_power_add.
Qed.

Lemma diffusion_steps_compose_witness :
  exists mid : vec,
    diffusion eig_one M_absorbing (Some [0; 1]) (Some 2%nat) false = Ok (Arr1 mid) /\
    diffusion eig_one M_absorbing (Some [0; 1]) (Some 5%nat) false
    = diffusion eig_one M_absorbing (Some mid) (Some 3%nat) false.
Proof.
  apply (diffusion_steps_compose eig_one M_absorbing [0; 1] 2 3).
  - repeat constructor.
  - reflexivity.
  - lia.
  - lia.
Defined.

Lemma dot_unit_column (p : vec) (j s : nat) :
  dot p (map (fun i => if Nat.eqb i j then 1 else 0) (seq s (length p)))
  = if (Nat.leb s j && Nat.ltb j (s + length p))%bool then nth (j - s) p 0 else 0.
Proof.
  revert s. induction p as [|x p IH]; intros s.
  - simpl. destruct (Nat.leb s j && Nat.ltb j (s + 0))%bool; [destruct (j - s)%nat|];
      reflexivity.
  - simpl length. simpl seq. simpl map. rewrite dot_cons, IH.
    destruct (Nat.eqb s j) eqn:E.
    + apply Nat.eqb_eq in E. subst s.
      replace (Nat.leb (S j) j) with false by (symmetry; apply Nat.leb_gt; lia).
      replace (Nat.leb j j) with true by (symmetry; apply Nat.leb_le; lia).
      replace (Nat.ltb j (j + S (length p))) with true by (symmetry; apply Nat.ltb_lt; lia).
      rewrite Nat.sub_diag. simpl. lra.
    + apply Nat.eqb_neq in E.
      destruct (Nat.leb s j) eqn:E1.
      * apply Nat.leb_le in E1.
        replace (Nat.leb (S s) j) with true by (symmetry; apply Nat.leb_le; lia).
        replace (S s + length p)%nat with (s + S (length p))%nat by lia.
        simpl andb. destruct (Nat.ltb j (s + S (length p))); [|lra].
        replace (j - s)%nat with (S (j - S s)) by lia. simpl. lra.
      * apply Nat.leb_gt in E1.
        replace (Nat.leb (S s) j) with false by (symmetry; apply Nat.leb_gt; lia).
        simpl. lra.
Qed.

Lemma vec_mat_identity (p : vec) : vec_mat p (identity (length p)) = p.
Proof.
  unfold vec_mat. rewrite (ncols_of_square _ _ (shape_identity (length p))).
  transitivity (map (fun j => nth j p 0) (seq 0 (length p))); [|apply map_nth_seq].
  apply map_ext_in. intros j Hj. apply in_seq in Hj.
  unfold col, identity. rewrite map_map.
  rewrite (map_ext_in _ (fun i => if Nat.eqb i j then 1 else 0)).
  - rewrite dot_unit_column.
    replace (Nat.ltb j (0 + length p)) with true by (symmetry; apply Nat.ltb_lt; lia).
    simpl. now rewrite Nat.sub_0_r.
  - intros i _.
    rewrite (nth_indep _ 0 (if Nat.eqb i 0 then 1 else 0))
      by (rewrite length_map, length_seq; lia).
    rewrite (map_nth (fun j0 => if Nat.eqb i j0 then 1 else 0) (seq 0 (length p)) 0%nat j).
    rewrite seq_nth by lia. reflexivity.
Qed.

(** X4: a run of zero steps returns the initial vector unchanged, for every
    square [M] of its size. *)
Theorem diffusion_zero_steps_returns_P0
    (eig : mat -> result (list complex * list (list complex)))
    (M : mat) (p : vec) :
  has_shape (length M) (length M) M ->
  length p = length M ->
  diffusion eig M (Some p) (Some 0%nat) false = Ok (Arr1 p).
Proof.
  intros HM Hlen.
  rewrite diffusion_steps_value by assumption.
  simpl matrix_power. unfold nrows. rewrite <- Hlen, vec_mat_identity. reflexivity.
Qed.

Lemma diffusion_zero_steps_returns_P0_witness :
  diffusion eig_one M_absorbing (Some [1/3; 2/3]) (Some 0%nat) false = Ok (Arr1 [1/3; 2/3]).
Proof.
  apply (diffusion_zero_steps_returns_P0 eig_one M_absorbing [1/3; 2/3]).
  - repeat constructor.
  - reflexivity.
Defined.

(** X5: a vector that [M] leaves fixed is returned unchanged by any number
    of steps: the stationary distribution is a fixed point of the power
    iteration. *)
Theorem diffusion_steps_fix_stationary
    (eig : mat -> result (list complex * list (list complex)))
    (M : mat) (p : vec) (steps : nat) :
  has_shape (length M) (length M) M ->
  length p = length M ->
  vec_mat p M = p ->
  diffusion eig M (Some p) (Some steps) false = Ok (Arr1 p).
Proof.
  intros HM Hlen Hfix.
  destruct steps as [|k].
  { rewrite diffusion_steps_value by assumption.
    simpl matrix_power. unfold nrows. rewrite <- Hlen, vec_mat_identity. reflexivity. }
  assert (Hpow : vec_mat p (matrix_power M (S k)) = p).
  { induction k as [|k IH]; [exact Hfix|].
    rewrite vec_mat_matrix_power_succ by exact HM. now rewrite Hfix. }
  rewrite diffusion_steps_value by assumption. now rewrite Hpow.
Qed.

Lemma diffusion_steps_fix_stationary_witness :
  diffusion eig_one M_absorbing (Some [1; 0]) (Some 7%nat) false = Ok (Arr1 [1; 0]).
Proof.
  apply (diffusion_steps_fix_stationary eig_one M_absorbing [1; 0] 7).
  - repeat constructor.
  - reflexivity.
  - unfold vec_mat, col, dot, M_absorbing. simpl. list_R_eq.
Defined.

(** *** The backward pass when the column sums agree *)

Lemma zip_with_div_repeat (r : vec) (s : R) (n : nat) :
  length r = n -> zip_with Rdiv r (repeat s n) = map (fun x => x / s) r.
Proof.
  revert n. induction r as [|x r IH]; intros n Hn; [destruct n; reflexivity|].
  destruct n as [|n]; [discriminate|]. simpl. f_equal. apply IH. simpl in Hn. lia.
Qed.

Lemma div_bcast_rows_repeat (A : mat) (s : R) (n : nat) :
  length A = n -> div_bcast_rows A (repeat s n) = map (map (fun x => x / s)) A.
Proof.
  unfold div_bcast_rows. revert n. induction A as [|r A IH]; intros n Hn;
    [destruct n; reflexivity|].
  destruct n as [|n]; [discriminate|]. simpl. f_equal. apply IH. simpl in Hn. lia.
Qed.

Lemma map_const_seq {A : Type} (a : A) (s n : nat) :
  map (fun _ => a) (seq s n) = repeat a n.
Proof. revert s. induction n as [|n IH]; intros s; simpl; [|rewrite IH]; reflexivity. Qed.

Lemma backward_matrix_equal_column_sums (M : mat) (s : R) :
  has_shape (length M) (length M) M ->
  (forall j, (j < length M)%nat -> vsum (col j M) = s) ->
  backward_matrix M = transpose_row_renormalized M.
Proof.
  intros HM Hcols. unfold backward_matrix, transpose_row_renormalized.
  assert (Hsum : sum_axis1 (transpose M) = repeat s (length M)).
  { unfold sum_axis1, transpose. rewrite map_map, (ncols_square M HM).
    rewrite <- (map_const_seq s 0 (length M)). apply map_ext_in.
    intros j Hj. apply in_seq in Hj. apply Hcols. lia. }
  rewrite Hsum.
  rewrite div_bcast_rows_repeat
    by (unfold transpose; rewrite length_map, length_seq; apply ncols_square; exact HM).
  unfold div_bcast_last. apply map_ext_in. intros r Hr.
  apply zip_with_div_repeat.
  unfold transpose in Hr. apply in_map_iff in Hr. destruct Hr as (j & <- & _).
  unfold col. apply length_map.
Qed.

(** X6: when all the columns of a square [M] have the same sum (a doubly
    stochastic matrix, for one), the backward pass of [diffusion] is the
    forward pass on the transpose with its rows renormalised, whatever [P0]
    and [steps] are. *)
Theorem diffusion_backward_equal_column_sums
    (eig : mat -> result (list complex * list (list complex)))
    (M : mat) (s : R) (P0 : option vec) (steps : option nat) :
  has_shape (length M) (length M) M ->
  (forall j, (j < length M)%nat -> vsum (col j M) = s) ->
  diffusion eig M P0 steps true
  = diffusion eig (transpose_row_renormalized M) P0 steps false.
Proof.
  intros HM Hcols. unfold diffusion.
  now rewrite (backward_matrix_equal_column_sums M s HM Hcols).
Qed.

Lemma diffusion_backward_equal_column_sums_witness :
  diffusion eig_one [[1/3; 2/3]; [2/3; 1/3]] (Some [1; 0]) (Some 2%nat) true
  = diffusion eig_one (transpose_row_renormalized [[1/3; 2/3]; [2/3; 1/3]])
              (Some [1; 0]) (Some 2%nat) false.
Proof.
  apply (diffusion_backward_equal_column_sums eig_one [[1/3; 2/3]; [2/3; 1/3]] 1).
  - repeat constructor.
  - intros j Hj. simpl in Hj. destruct j as [|[|j]]; [| |lia]; simpl; lra.
Defined.

(** *** The shape of the eigen-decomposition result *)

Lemma length_compress {A : Type} (mask : list bool) (l : list A) :
  length l = length mask ->
  length (compress mask l) = length (List.filter (fun b => b) mask).
Proof.
  revert l. induction mask as [|b mask IH]; intros l Hl; [reflexivity|].
  destruct l as [|x l]; [discriminate|]. simpl.
  destruct b; simpl; [f_equal|]; apply IH; simpl in Hl; lia.
Qed.

(** X7: without [steps], whenever the eigen-solver answers with [w] and a
    matrix [vl] of matching width, [diffusion] returns a two-dimensional
    array with one row per row of [vl] and one column per eigenvalue of [w]
    that [isclose] flags as 1. *)
Theorem diffusion_eig_result_shape
    (eig : mat -> result (list complex * list (list complex)))
    (M : mat) (backward : bool) (w : list complex) (vl : list (list complex)) :
  eig (if backward then backward_matrix M else M) = Ok (w, vl) ->
  Forall (fun r => length r = length w) vl ->
  exists mu : mat,
    diffusion eig M None None backward = Ok (Arr2 mu) /\
    has_shape (length vl) (length (List.filter (fun l => isclose_c l 1) w)) mu.
Proof.
  intros Heig Hrows. unfold diffusion. rewrite Heig. simpl.
  eexists. split; [reflexivity|].
  unfold div_scalar, select_cols. split; [now rewrite !length_map|].
  rewrite !List.Forall_map. apply List.Forall_forall. intros r Hr.
  rewrite List.Forall_forall in Hrows.
  rewrite !length_map, length_compress by (rewrite !length_map; auto).
  clear. induction w as [|l w IH]; [reflexivity|].
  simpl. destruct (isclose_c l 1); simpl; [f_equal|]; exact IH.
Qed.

Lemma diffusion_eig_result_shape_witness :
  exists mu : mat,
    diffusion eig_I2 I2 None None false = Ok (Arr2 mu) /\
    has_shape 2 (length (List.filter (fun l => isclose_c l 1) [RtoC 1; RtoC 1])) mu.
Proof.
  apply (diffusion_eig_result_shape eig_I2 I2 false [RtoC 1; RtoC 1]
           [[RtoC 1; RtoC 0]; [RtoC 0; RtoC 1]]).
  - reflexivity.
  - repeat constructor.
Defined.

(** *** The total of the eigenvector answer *)

Lemma zero_negative_noise_ge (x : R) : x <= zero_negative_noise x.
Proof.
  unfold zero_negative_noise. destruct (isclose x 0 && Rltb x 0) eqn:E; [|lra].
  apply andb_true_iff in E. destruct E as [_ E]. unfold Rltb in E.
  destruct (Rlt_dec x 0); [lra | discriminate E].
Qed.

Lemma vsum_map_ge (f : R -> R) (l : vec) :
  (forall x, x <= f x) -> vsum l <= vsum (map f l).
Proof.
  intros Hf. induction l as [|x l IH]; simpl; [lra|]. pose proof (Hf x). lra.
Qed.

Lemma sum_all_map_ge (f : R -> R) (m : mat) :
  (forall x, x <= f x) -> sum_all m <= sum_all (map (map f) m).
Proof.
  intros Hf. unfold sum_all. induction m as [|r m IH]; simpl; [lra|].
  pose proof (vsum_map_ge f r Hf). lra.
Qed.

Lemma sum_all_div_scalar (m : mat) (s : R) : sum_all (div_scalar m s) = sum_all m / s.
Proof.
  unfold sum_all, div_scalar. induction m as [|r m IH]; simpl; [unfold Rdiv; lra|].
  rewrite IH, vsum_map_div. unfold Rdiv. lra.
Qed.

Lemma map_zero_negative_noise_nonneg (m : mat) :
  Forall (Forall (fun x => 0 <= x)) m -> map (map zero_negative_noise) m = m.
Proof.
  induction 1 as [|r m Hr _ IH]; [reflexivity|]. simpl. rewrite IH. f_equal.
  induction Hr as [|x r Hx _ IHr]; [reflexivity|]. simpl.
  now rewrite IHr, zero_negative_noise_nonneg.
Qed.

(** X22: without [steps], when the entries of the selected eigenvector
    columns do not sum to zero, the entries of the array that [diffusion]
    returns, all columns taken together, sum to at least 1: the columns are
    divided by their joint total and zeroing negative noise only raises
    entries.  The sum is exactly 1 when no normalised entry is negative. *)
Theorem diffusion_eig_result_total
    (eig : mat -> result (list complex * list (list complex)))
    (M : mat) (backward : bool) (w : list complex) (vl : list (list complex)) :
  eig (if backward then backward_matrix M else M) = Ok (w, vl) ->
  sum_all (select_cols (map (fun l => isclose_c l 1) w) (map (map Cre) vl)) <> 0 ->
  exists mu : mat,
    diffusion eig M None None backward = Ok (Arr2 mu) /\
    1 <= sum_all mu /\
    (Forall (Forall (fun x => 0 <= x))
       (div_scalar (select_cols (map (fun l => isclose_c l 1) w) (map (map Cre) vl))
          (sum_all (select_cols (map (fun l => isclose_c l 1) w) (map (map Cre) vl)))) ->
     sum_all mu = 1).
Proof.
  intros Heig Hs. unfold diffusion. rewrite Heig. simpl.
  set (selected := select_cols (map (fun l => isclose_c l 1) w) (map (map Cre) vl)) in *.
  eexists. split; [reflexivity|].
  assert (Hone : sum_all (div_scalar selected (sum_all selected)) = 1)
    by (rewrite sum_all_div_scalar; field; exact Hs).
  split.
  - rewrite <- Hone at 1. apply sum_all_map_ge. exact zero_negative_noise_ge.
  - intros Hpos. rewrite map_zero_negative_noise_nonneg by exact Hpos. exact Hone.
Qed.

Lemma diffusion_eig_result_total_witness :
  exists mu : mat,
    diffusion eig_I2 I2 None None false = Ok (Arr2 mu) /\ 1 <= sum_all mu.
Proof.
  destruct (diffusion_eig_result_total eig_I2 I2 false [RtoC 1; RtoC 1]
              [[RtoC 1; RtoC 0]; [RtoC 0; RtoC 1]]) as (mu & Hrun & Hge & _).
  - reflexivity.
  - simpl. rewrite isclose_c_one. unfold sum_all. simpl. lra.
  - exists mu. split; assumption.
Defined.

End PowerIterationFacts.

(** ** The empirical correlation kernel *)

Module EmpiricalFacts.

Import Np NpFacts Empirical EmpiricalExamples.
Local Open Scope R_scope.

(** *** Signs and groups *)

Lemma sgn_pos (x : R) : 0 < x -> sgn x = 1.
Proof. intros H. unfold sgn. destruct (Rlt_dec 0 x); [reflexivity | contradiction]. Qed.

Lemma sgn_neg (x : R) : x < 0 -> sgn x = -1.
Proof.
  intros H. unfold sgn. destruct (Rlt_dec 0 x); [lra|].
  destruct (Rlt_dec x 0); [reflexivity | contradiction].
Qed.

Lemma sgn_one_inv (x : R) : sgn x = 1 -> 0 < x.
Proof.
  unfold sgn. destruct (Rlt_dec 0 x); [auto|].
  destruct (Rlt_dec x 0); intros; lra.
Qed.

Lemma sgn_minus_one_inv (x : R) : sgn x = -1 -> x < 0.
Proof.
  unfold sgn. destruct (Rlt_dec 0 x); [intros; lra|].
  destruct (Rlt_dec x 0); intros; lra.
Qed.

Lemma in_where_sign (i_vals : vec) (sig : R) (j : nat) :
  In j (where_sign i_vals sig) <->
  (j < length i_vals)%nat /\ sgn (nth j i_vals 0) = sig.
Proof.
  unfold where_sign. rewrite filter_In, in_seq.
  destruct (Req_dec_T (sgn (nth j i_vals 0)) sig); intuition (try lia; try discriminate).
Qed.

Lemma NoDup_where_sign (i_vals : vec) (sig : R) : List.NoDup (where_sign i_vals sig).
Proof. unfold where_sign. apply List.NoDup_filter, seq_NoDup. Qed.

Lemma where_sign_disjoint (i_vals : vec) (s1 s2 : R) (j : nat) :
  s1 <> s2 -> In j (where_sign i_vals s1) -> ~ In j (where_sign i_vals s2).
Proof.
  intros Hne H1 H2. apply in_where_sign in H1, H2.
  destruct H1 as [_ H1], H2 as [_ H2]. congruence.
Qed.

(** *** The correlation of two antisymmetric pairs *)

Lemma sgn_opp (x : R) : sgn (- x) = - sgn x.
Proof.
  destruct (Rtotal_order x 0) as [H | [H | H]].
  - rewrite (sgn_neg x H), (sgn_pos (- x)) by lra. lra.
  - subst x. rewrite Ropp_0. unfold sgn.
    destruct (Rlt_dec 0 0); [lra|]. lra.
  - rewrite (sgn_pos x H), (sgn_neg (- x)) by lra. lra.
Qed.

Lemma sign_sqrt_pair (x x' : R) :
  x' = - x ->
  sign_sqrt [x; x'] = [sgn x * sqrt (Rabs x); - (sgn x * sqrt (Rabs x))].
Proof.
  intros ->. unfold sign_sqrt. simpl. rewrite sgn_opp, Rabs_Ropp.
  repeat f_equal. lra.
Qed.

Lemma sign_sqrt_entry_sign (x : R) :
  (0 < x -> 0 < sgn x * sqrt (Rabs x)) /\ (x < 0 -> sgn x * sqrt (Rabs x) < 0).
Proof.
  split; intros H.
  - rewrite sgn_pos by exact H. rewrite Rabs_right by lra.
    pose proof (sqrt_lt_R0 x H). lra.
  - rewrite sgn_neg by exact H. rewrite Rabs_left by exact H.
    assert (0 < sqrt (- x)) by (apply sqrt_lt_R0; lra). lra.
Qed.

Lemma cov_pair (a b : R) : cov [a; - a] [b; - b] = 2 * a * b.
Proof. unfold cov, mean, dot. simpl. field. Qed.

Lemma corrcoef01_pair (a b : R) :
  a <> 0 -> b <> 0 ->
  pearson_defined [a; - a] [b; - b] /\
  (0 < a * b -> corrcoef01 [a; - a] [b; - b] = 1) /\
  (a * b < 0 -> corrcoef01 [a; - a] [b; - b] = -1).
Proof.
  intros Ha Hb.
  assert (Haa : 0 < 2 * a * a) by nra.
  assert (Hbb : 0 < 2 * b * b) by nra.
  split.
  - unfold pearson_defined. rewrite !cov_pair. simpl. repeat split; lra.
  - unfold corrcoef01. rewrite !cov_pair.
    set (s := sqrt (2 * a * a)). set (t := sqrt (2 * b * b)).
    assert (Hs : 0 < s) by (apply sqrt_lt_R0; exact Haa).
    assert (Ht : 0 < t) by (apply sqrt_lt_R0; exact Hbb).
    assert (Hss : s * s = 2 * a * a) by (apply sqrt_sqrt; lra).
    assert (Htt : t * t = 2 * b * b) by (apply sqrt_sqrt; lra).
    assert (Hst : 0 < s * t) by (apply Rmult_lt_0_compat; assumption).
    assert (Hsq : (s * t) * (s * t) = (2 * a * b) * (2 * a * b)) by nra.
    split; intros Hab.
    + assert (E : s * t = 2 * a * b) by nra.
      replace (2 * a * b / s / t) with 1 by (rewrite <- E; field; lra).
      unfold clip. rewrite Rmax_left, Rmin_left by lra. reflexivity.
    + assert (E : s * t = - (2 * a * b)) by nra.
      replace (2 * a * b / s / t) with (-1).
      * unfold clip. rewrite Rmax_left, Rmin_left by lra. reflexivity.
      * replace (2 * a * b) with (- (s * t)) by lra. field. lra.
Qed.

(** The correlation computed for a displacement [[x, -x]] and a velocity
    [[y, -y]]. *)
Lemma pair_correlation (x x' y y' : R) :
  x' = - x -> y' = - y -> x <> 0 -> y <> 0 ->
  pearson_defined (sign_sqrt [x; x']) (sign_sqrt [y; y']) /\
  (0 < x * y -> corrcoef01 (sign_sqrt [x; x']) (sign_sqrt [y; y']) = 1) /\
  (x * y < 0 -> corrcoef01 (sign_sqrt [x; x']) (sign_sqrt [y; y']) = -1).
Proof.
  intros Hx' Hy' Hx Hy.
  rewrite (sign_sqrt_pair x x' Hx'), (sign_sqrt_pair y y' Hy').
  destruct (sign_sqrt_entry_sign x) as [Hxp Hxn].
  destruct (sign_sqrt_entry_sign y) as [Hyp Hyn].
  set (a := sgn x * sqrt (Rabs x)) in *. set (b := sgn y * sqrt (Rabs y)) in *.
  assert (Ha : a <> 0) by (destruct (Rtotal_order x 0) as [H | [H | H]];
                           [specialize (Hxn H) | contradiction | specialize (Hxp H)]; lra).
  assert (Hb : b <> 0) by (destruct (Rtotal_order y 0) as [H | [H | H]];
                           [specialize (Hyn H) | contradiction | specialize (Hyp H)]; lra).
  destruct (corrcoef01_pair a b Ha Hb) as (Hdef & Hpos & Hneg).
  split; [exact Hdef|]. split; intros Hxy.
  - apply Hpos.
    destruct (Rtotal_order x 0) as [H | [H | H]]; [|contradiction|].
    + assert (y < 0) by nra. specialize (Hxn H). specialize (Hyn H0). nra.
    + assert (0 < y) by nra. specialize (Hxp H). specialize (Hyp H0). nra.
  - apply Hneg.
    destruct (Rtotal_order x 0) as [H | [H | H]]; [|contradiction|].
    + assert (0 < y) by nra. specialize (Hxn H). specialize (Hyp H0). nra.
    + assert (y < 0) by nra. specialize (Hxp H). specialize (Hyn H0). nra.
Qed.

(** *** Python's [max] *)

Lemma fold_max_ge_acc (v : vec) (acc : R) :
  acc <= fold_left (fun a y => if Rlt_dec a y then y else a) v acc.
Proof.
  revert acc. induction v as [|y v IH]; intros acc; simpl; [lra|].
  destruct (Rlt_dec acc y); eapply Rle_trans; [| apply IH | | apply IH]; lra.
Qed.

Lemma fold_max_ge_in (v : vec) (acc x : R) :
  In x v -> x <= fold_left (fun a y => if Rlt_dec a y then y else a) v acc.
Proof.
  revert acc. induction v as [|y v IH]; intros acc Hin; [contradiction|].
  simpl. destruct Hin as [-> | Hin]; [|apply IH; exact Hin].
  eapply Rle_trans; [|apply fold_max_ge_acc].
  destruct (Rlt_dec acc x); lra.
Qed.

Lemma pymax_ge (v : vec) (x : R) : In x v -> x <= pymax v.
Proof.
  destruct v as [|y v]; [contradiction|]. simpl.
  intros [-> | Hin]; [apply fold_max_ge_acc | apply fold_max_ge_in; exact Hin].
Qed.

(** *** Softmax *)

Lemma vsum_exp_pos {A : Type} (f : A -> R) (l : list A) :
  l <> [] -> 0 < vsum (map (fun a => exp (f a)) l).
Proof.
  intros Hl. destruct l as [|a l]; [congruence|]. simpl.
  assert (0 <= vsum (map (fun a => exp (f a)) l)).
  { apply vsum_nonneg. clear. induction l; simpl; constructor; auto.
    left. apply exp_pos. }
  pose proof (exp_pos (f a)). lra.
Qed.

Lemma softmax_sums_to_one {A : Type} (f : A -> R) (l : list A) :
  l <> [] ->
  vsum (map (fun e => e / vsum (map (fun a => exp (f a)) l))
            (map (fun a => exp (f a)) l)) = 1.
Proof.
  intros Hl. rewrite vsum_map_div. field.
  pose proof (vsum_exp_pos f l Hl). lra.
Qed.

Lemma length_group_prob (i_vals : vec) (sig : R) :
  length (group_prob i_vals sig) = length (where_sign i_vals sig).
Proof. unfold group_prob, take_at. now rewrite !length_map. Qed.

Lemma vsum_group_prob (i_vals : vec) (sig : R) :
  where_sign i_vals sig <> [] -> vsum (group_prob i_vals sig) = 1.
Proof.
  intros Hne. unfold group_prob.
  apply (softmax_sums_to_one (fun v => Rabs v / _)).
  unfold take_at. destruct (where_sign i_vals sig); [congruence | discriminate].
Qed.

Lemma length_plain_prob (i_vals : vec) : length (plain_prob i_vals) = length i_vals.
Proof. unfold plain_prob. now rewrite !length_map. Qed.

Lemma vsum_plain_prob (i_vals : vec) : i_vals <> [] -> vsum (plain_prob i_vals) = 1.
Proof.
  intros Hne. unfold plain_prob.
  apply (softmax_sums_to_one (fun v => v / _)). exact Hne.
Qed.

(** *** Index arrays *)

Lemma take_at_seq {A : Type} (d : A) (l : list A) :
  take_at d l (seq 0 (length l)) = l.
Proof.
  unfold take_at. induction l as [|x l IH]; [reflexivity|].
  simpl. f_equal. rewrite <- seq_shift, map_map. exact IH.
Qed.

Lemma filter_all {A : Type} (f : A -> bool) (l : list A) :
  (forall x, In x l -> f x = true) -> List.filter f l = l.
Proof.
  induction l as [|x l IH]; intros H; [reflexivity|].
  simpl. rewrite (H x) by (left; reflexivity). f_equal.
  apply IH. intros y Hy. apply H. right. exact Hy.
Qed.

Lemma filter_none {A : Type} (f : A -> bool) (l : list A) :
  (forall x, In x l -> f x = false) -> List.filter f l = [].
Proof.
  induction l as [|x l IH]; intros H; [reflexivity|].
  simpl. rewrite (H x) by (left; reflexivity).
  apply IH. intros y Hy. apply H. right. exact Hy.
Qed.

Lemma where_sign_all_positive (i_vals : vec) :
  Forall (fun c => 0 < c) i_vals ->
  where_sign i_vals 1 = seq 0 (length i_vals) /\ where_sign i_vals (-1) = [].
Proof.
  intros Hpos.
  assert (Hs : forall j, In j (seq 0 (length i_vals)) -> sgn (nth j i_vals 0) = 1).
  { intros j Hj. apply in_seq in Hj. apply sgn_pos.
    rewrite List.Forall_forall in Hpos. apply Hpos, nth_In. lia. }
  unfold where_sign. split.
  - apply filter_all. intros j Hj. rewrite (Hs j Hj).
    destruct (Req_dec_T 1 1); [reflexivity | congruence].
  - apply filter_none. intros j Hj. rewrite (Hs j Hj).
    destruct (Req_dec_T 1 (-1)); [lra | reflexivity].
Qed.

Lemma length_scatter (a : vec) (idx : list nat) (v : vec) :
  length (scatter a idx v) = length a.
Proof.
  revert a v. induction idx as [|j idx IH]; intros a v; [reflexivity|].
  destruct v as [|x v]; [reflexivity|]. simpl.
  rewrite IH. apply length_insert.
Qed.

Lemma vsum_insert (a : vec) (j : nat) (x : R) :
  (j < length a)%nat -> vsum (<[j := x]> a) = vsum a - nth j a 0 + x.
Proof.
  revert j. induction a as [|y a IH]; intros j Hj; [simpl in Hj; lia|].
  destruct j as [|j]; simpl; [lra|].
  rewrite IH by (simpl in Hj; lia). lra.
Qed.

Lemma nth_insert_ne (a : vec) (j k : nat) (x : R) :
  j <> k -> nth k (<[j := x]> a) 0 = nth k a 0.
Proof.
  revert j k. induction a as [|y a IH]; intros j k Hne; [destruct j; reflexivity|].
  destruct j as [|j], k as [|k]; simpl; try reflexivity; try congruence.
  apply IH. congruence.
Qed.

(** Writing [v] at distinct positions that hold 0 adds [sum(v)]. *)
Lemma vsum_scatter_zero (a : vec) (idx : list nat) (v : vec) :
  List.NoDup idx ->
  (forall j, In j idx -> (j < length a)%nat /\ nth j a 0 = 0) ->
  length v = length idx ->
  vsum (scatter a idx v) = vsum a + vsum v.
Proof.
  intros Hnd. revert a v. induction Hnd as [|j idx Hj Hnd IH]; intros a v Hz Hlen.
  - destruct v; [simpl; lra | discriminate].
  - destruct v as [|x v]; [discriminate|]. simpl.
    destruct (Hz j) as [Hjlt Hj0]; [left; reflexivity|].
    rewrite IH.
    + rewrite vsum_insert, Hj0 by exact Hjlt. lra.
    + intros k Hk. destruct (Hz k) as [Hklt Hk0]; [right; exact Hk|].
      rewrite length_insert. split; [exact Hklt|].
      rewrite nth_insert_ne; [exact Hk0 | intros ->; contradiction].
    + simpl in Hlen. lia.
Qed.

Lemma nth_scatter_notin (a : vec) (idx : list nat) (v : vec) (k : nat) :
  ~ In k idx -> nth k (scatter a idx v) 0 = nth k a 0.
Proof.
  revert a v. induction idx as [|j idx IH]; intros a v Hk; [reflexivity|].
  destruct v as [|x v]; [reflexivity|]. simpl.
  rewrite IH by (intros H; apply Hk; right; exact H).
  apply nth_insert_ne. intros ->. apply Hk. left. reflexivity.
Qed.

Lemma scatter_seq_app (pre old v : vec) :
  length old = length v ->
  scatter (pre ++ old) (seq (length pre) (length v)) v = pre ++ v.
Proof.
  revert pre old. induction v as [|x v IH]; intros pre old Hlen.
  - destruct old; [reflexivity | discriminate].
  - destruct old as [|o old]; [discriminate|]. simpl.
    replace (<[length pre := x]> (pre ++ o :: old)) with ((pre ++ [x]) ++ old).
    + replace (S (length pre)) with (length (pre ++ [x]))
        by (rewrite length_app; simpl; lia).
      rewrite IH by (simpl in Hlen; lia).
      now rewrite <- app_assoc.
    + rewrite <- app_assoc. simpl. clear.
      induction pre as [|p pre IHp]; [reflexivity|]. simpl. f_equal. exact IHp.
Qed.

Lemma scatter_all (v : vec) : scatter (repeat 0 (length v)) (seq 0 (length v)) v = v.
Proof.
  apply (scatter_seq_app [] (repeat 0 (length v)) v). apply repeat_length.
Qed.

(** The scale [sigma] of a non-empty sign group is positive, so the
    division by it is defined. *)
Lemma group_sigma_pos (i_vals : vec) (sig : R) :
  sig = -1 \/ sig = 1 ->
  where_sign i_vals sig <> [] ->
  0 < pymax (map Rabs (take_at 0 i_vals (where_sign i_vals sig))).
Proof.
  intros Hsig Hne.
  destruct (where_sign i_vals sig) as [|j idx] eqn:E; [congruence|].
  assert (Hj : In j (where_sign i_vals sig)) by (rewrite E; left; reflexivity).
  apply in_where_sign in Hj. destruct Hj as [_ Hj].
  assert (Hnz : 0 < Rabs (nth j i_vals 0)).
  { apply Rabs_pos_lt. destruct Hsig; subst sig.
    - apply sgn_minus_one_inv in Hj. lra.
    - apply sgn_one_inv in Hj. lra. }
  eapply Rlt_le_trans; [exact Hnz|].
  apply pymax_ge. simpl. left. reflexivity.
Qed.

(** *** One cell with and without [neg_cells_trick] *)

Lemma group_prob_all_positive (i_vals : vec) :
  Forall (fun c => 0 < c) i_vals -> group_prob i_vals 1 = plain_prob i_vals.
Proof.
  intros Hpos. unfold group_prob, plain_prob.
  destruct (where_sign_all_positive i_vals Hpos) as [-> _].
  rewrite take_at_seq.
  assert (E : map (fun v => exp (Rabs v / pymax (map Rabs i_vals))) i_vals
              = map (fun v => exp (v / pymax (map Rabs i_vals))) i_vals).
  { apply map_ext_in. intros v Hv. rewrite Rabs_right; [reflexivity|].
    rewrite List.Forall_forall in Hpos. specialize (Hpos v Hv). lra. }
  rewrite E. reflexivity.
Qed.

Lemma pscale_one (a : point) : pscale 1 a = a.
Proof. destruct a as [x y]. unfold pscale. simpl. f_equal; lra. Qed.

Lemma neg_cells_row_all_positive (X_embedding : list point) (nbrs : list nat)
    (i : nat) (i_vals : vec) :
  Forall (fun c => 0 < c) i_vals ->
  length nbrs = length i_vals ->
  neg_cells_row X_embedding nbrs i i_vals
  = (fst (plain_row X_embedding nbrs i i_vals),
     pscale (1/2) (snd (plain_row X_embedding nbrs i i_vals))).
Proof.
  intros Hpos Hlen.
  destruct (where_sign_all_positive i_vals Hpos) as [Hp Hn].
  unfold neg_cells_row. simpl fold_left.
  unfold neg_cells_group at 2. rewrite Hn. simpl.
  unfold neg_cells_group. rewrite Hp, length_seq.
  destruct i_vals as [|c i_vals].
  - destruct nbrs; [|discriminate]. simpl.
    unfold plain_row, weighted_drift, pscale, dot. simpl. f_equal. f_equal; lra.
  - set (vs := c :: i_vals) in *.
    replace (Nat.eqb (length vs) 0) with false by reflexivity.
    rewrite group_prob_all_positive by exact Hpos.
    unfold plain_row. cbn [fst snd].
    rewrite <- Hlen, take_at_seq, Hlen.
    f_equal.
    + rewrite (map_ext _ (fun x => x)) by (intros; lra).
      rewrite map_id. rewrite <- (length_plain_prob vs) at 1 2.
      apply scatter_all.
    + rewrite (map_ext (fun j => pscale 1 _) (fun j => psub (emb X_embedding j) (emb X_embedding i)))
        by (intros; apply pscale_one).
      unfold padd, pscale. simpl. f_equal; lra.
Qed.

Lemma length_neg_cells_group (X_embedding : list point) (nbrs : list nat) (i : nat)
    (i_vals : vec) (st : vec * point) (sig : R) :
  length (fst (neg_cells_group X_embedding nbrs i i_vals st sig)) = length (fst st).
Proof.
  unfold neg_cells_group.
  destruct (Nat.eqb (length (where_sign i_vals sig)) 0); [reflexivity|].
  simpl. apply length_scatter.
Qed.

Lemma length_cell_row (X_embedding : list point) (X_pca V_mat : mat)
    (indices : list (list nat)) (trick : bool) (i : nat) :
  length (fst (cell_row X_embedding X_pca V_mat indices trick i)) = knn indices.
Proof.
  unfold cell_row.
  assert (Hc : length (cell_correlations X_pca V_mat indices i) = knn indices).
  { unfold cell_correlations. now rewrite length_map, length_seq. }
  destruct trick.
  - unfold neg_cells_row. simpl fold_left.
    rewrite !length_neg_cells_group. simpl. now rewrite repeat_length.
  - unfold plain_row. simpl. now rewrite length_plain_prob.
Qed.

(** *** Row sums of one cell *)

Lemma vsum_repeat_zero (n : nat) : vsum (repeat 0 n) = 0.
Proof. induction n as [|n IH]; simpl; [reflexivity | rewrite IH; lra]. Qed.

Lemma neg_cells_group_sum (X_embedding : list point) (nbrs : list nat) (i : nat)
    (i_vals : vec) (st : vec * point) (sig : R) :
  length (fst st) = length i_vals ->
  (forall j, In j (where_sign i_vals sig) -> nth j (fst st) 0 = 0) ->
  vsum (fst (neg_cells_group X_embedding nbrs i i_vals st sig))
  = vsum (fst st) + sig * group_count i_vals sig.
Proof.
  intros Hlen Hzero. unfold neg_cells_group, group_count.
  destruct (where_sign i_vals sig) as [|j0 idx] eqn:E; simpl Nat.eqb; cbv iota; [lra|].
  rewrite <- E in *. cbn [fst].
  rewrite vsum_scatter_zero.
  - pose proof (vsum_map_scale sig (fun a => a) (group_prob i_vals sig)) as Hs.
    rewrite map_id in Hs.
    rewrite (map_ext (Rmult sig) (fun a => sig * a)) by reflexivity.
    rewrite Hs, vsum_group_prob by (rewrite E; discriminate). lra.
  - apply NoDup_where_sign.
  - intros j Hj. split; [|apply Hzero; exact Hj].
    apply in_where_sign in Hj. lia.
  - now rewrite length_map, length_group_prob.
Qed.

Lemma neg_cells_group_untouched (X_embedding : list point) (nbrs : list nat) (i : nat)
    (i_vals : vec) (st : vec * point) (sig : R) (k : nat) :
  ~ In k (where_sign i_vals sig) ->
  nth k (fst (neg_cells_group X_embedding nbrs i i_vals st sig)) 0 = nth k (fst st) 0.
Proof.
  intros Hk. unfold neg_cells_group.
  destruct (Nat.eqb (length (where_sign i_vals sig)) 0); [reflexivity|].
  cbn [fst]. apply nth_scatter_notin. exact Hk.
Qed.

(** With [neg_cells_trick=True] the values written for a cell sum to
    (+1 if a positive group exists) + (-1 if a negative group exists). *)
Lemma vsum_neg_cells_row (X_embedding : list point) (nbrs : list nat) (i : nat)
    (i_vals : vec) :
  vsum (fst (neg_cells_row X_embedding nbrs i i_vals))
  = group_count i_vals 1 - group_count i_vals (-1).
Proof.
  unfold neg_cells_row. simpl fold_left.
  set (st0 := (repeat 0 (length i_vals), (0, 0))).
  set (st1 := neg_cells_group X_embedding nbrs i i_vals st0 (-1)).
  assert (Hz0 : forall j, nth j (fst st0) 0 = 0).
  { intros j. unfold st0. cbn [fst]. apply nth_repeat. }
  rewrite neg_cells_group_sum.
  - unfold st1. rewrite neg_cells_group_sum.
    + unfold st0 at 1. cbn [fst]. rewrite vsum_repeat_zero. lra.
    + unfold st0. cbn [fst]. apply repeat_length.
    + intros j _. apply Hz0.
  - unfold st1. rewrite length_neg_cells_group. unfold st0. cbn [fst].
    apply repeat_length.
  - intros j Hj. unfold st1. rewrite neg_cells_group_untouched; [apply Hz0|].
    apply (where_sign_disjoint i_vals 1 (-1)); [lra | exact Hj].
Qed.

Lemma vsum_plain_row (X_embedding : list point) (nbrs : list nat) (i : nat)
    (i_vals : vec) :
  i_vals <> [] -> vsum (fst (plain_row X_embedding nbrs i i_vals)) = 1.
Proof. intros H. unfold plain_row. cbn [fst]. apply vsum_plain_prob. exact H. Qed.

(** *** The sparse matrix *)

Lemma nth_map_seq {A : Type} (f : nat -> A) (n i : nat) (d : A) :
  (i < n)%nat -> nth i (map f (seq 0 n)) d = f i.
Proof.
  intros Hi. rewrite (nth_indep _ d (f 0%nat)) by (now rewrite length_map, length_seq).
  rewrite (map_nth f (seq 0 n) 0%nat i), seq_nth by exact Hi. reflexivity.
Qed.

Lemma vsum_indicator (c : nat) (v : R) (s n : nat) :
  vsum (map (fun b => if Nat.eqb c b then v else 0) (seq s n))
  = if (Nat.leb s c && Nat.ltb c (s + n))%bool then v else 0.
Proof.
  revert s. induction n as [|n IH]; intros s.
  - simpl. destruct (Nat.leb s c) eqn:E1; simpl; [|reflexivity].
    destruct (Nat.ltb c (s + 0)) eqn:E2; [|reflexivity].
    apply Nat.leb_le in E1. apply Nat.ltb_lt in E2. lia.
  - simpl seq. simpl map. rewrite vsum_cons, IH.
    destruct (Nat.eqb c s) eqn:E.
    + apply Nat.eqb_eq in E. subst s.
      replace (Nat.leb (S c) c) with false by (symmetry; apply Nat.leb_gt; lia).
      replace (Nat.leb c c) with true by (symmetry; apply Nat.leb_le; lia).
      replace (Nat.ltb c (c + S n)) with true by (symmetry; apply Nat.ltb_lt; lia).
      simpl. lra.
    + apply Nat.eqb_neq in E.
      destruct (Nat.leb s c) eqn:E1.
      * apply Nat.leb_le in E1.
        replace (Nat.leb (S s) c) with true by (symmetry; apply Nat.leb_le; lia).
        replace (S s + n)%nat with (s + S n)%nat by lia. simpl. lra.
      * apply Nat.leb_gt in E1.
        replace (Nat.leb (S s) c) with false by (symmetry; apply Nat.leb_gt; lia).
        simpl. lra.
Qed.

(** Summing a dense row over its columns gives the sum of the values of the
    triples of that row. *)
Lemma vsum_columns_of_row (ts : list triple) (i nc : nat) :
  Forall (fun t => fst (fst t) = i /\ (snd (fst t) < nc)%nat) ts ->
  vsum (map (fun b => vsum (map snd (List.filter (at_position i b) ts))) (seq 0 nc))
  = vsum (map snd ts).
Proof.
  induction 1 as [|t ts [Hrow Hcol] _ IH].
  - simpl. apply vsum_map_zero.
  - destruct t as [[a c] v]. simpl in Hrow, Hcol. subst a.
    rewrite (map_ext _ (fun b => (if Nat.eqb c b then v else 0)
                                 + vsum (map snd (List.filter (at_position i b) ts)))).
    + rewrite vsum_map_plus, IH, vsum_indicator. simpl.
      replace (Nat.ltb c nc) with true by (symmetry; apply Nat.ltb_lt; lia).
      reflexivity.
    + intros b. simpl. unfold at_position at 1. simpl. rewrite Nat.eqb_refl. simpl.
      destruct (Nat.eqb c b); simpl; lra.
Qed.

Lemma filter_row_flat_map (f : nat -> list triple) (l : list nat) (i b : nat) :
  List.NoDup l ->
  (forall k, Forall (fun t => fst (fst t) = k) (f k)) ->
  In i l ->
  List.filter (at_position i b) (flat_map f l) = List.filter (at_position i b) (f i).
Proof.
  intros Hnd Hrows.
  assert (Hother : forall k, k <> i -> List.filter (at_position i b) (f k) = []).
  { intros k Hk. apply filter_none. intros t Ht.
    specialize (Hrows k). rewrite List.Forall_forall in Hrows.
    unfold at_position. rewrite (Hrows t Ht).
    replace (Nat.eqb k i) with false by (symmetry; apply Nat.eqb_neq; exact Hk).
    reflexivity. }
  induction Hnd as [|k l Hk Hnd IH]; intros Hin; [contradiction|].
  simpl. rewrite List.filter_app. destruct Hin as [-> | Hin].
  - rewrite <- (app_nil_r (List.filter (at_position i b) (f i))) at 2. f_equal.
    clear IH. induction l as [|k l IHl]; [reflexivity|].
    simpl. rewrite List.filter_app, Hother.
    + apply IHl; [intros H; apply Hk; right; exact H | now inversion Hnd].
    + intros ->. apply Hk. left. reflexivity.
  - rewrite Hother by (intros ->; contradiction). simpl. apply IH. exact Hin.
Qed.

Lemma cell_triples_row (X_embedding : list point) (X_pca V_mat : mat)
    (indices : list (list nat)) (trick : bool) (i : nat) :
  Forall (fun t => fst (fst t) = i)
         (cell_triples X_embedding X_pca V_mat indices trick i).
Proof.
  unfold cell_triples.
  generalize (fst (cell_row X_embedding X_pca V_mat indices trick i)).
  generalize (seq 1 (knn indices)).
  intros l. induction l as [|j l IH]; intros vals; [constructor|].
  destruct vals as [|v vals]; [constructor|].
  simpl. constructor; [reflexivity | apply IH].
Qed.

Lemma cell_triples_values (X_embedding : list point) (X_pca V_mat : mat)
    (indices : list (list nat)) (trick : bool) (i : nat) :
  map snd (cell_triples X_embedding X_pca V_mat indices trick i)
  = fst (cell_row X_embedding X_pca V_mat indices trick i).
Proof.
  unfold cell_triples.
  assert (Hlen : length (seq 1 (knn indices))
                 = length (fst (cell_row X_embedding X_pca V_mat indices trick i))).
  { now rewrite length_cell_row, length_seq. }
  revert Hlen.
  generalize (fst (cell_row X_embedding X_pca V_mat indices trick i)).
  generalize (seq 1 (knn indices)).
  intros l. induction l as [|j l IH]; intros vals Hlen.
  - destruct vals; [reflexivity | discriminate].
  - destruct vals as [|v vals]; [discriminate|].
    simpl. f_equal. apply IH. simpl in Hlen. lia.
Qed.

Section WholeFacts.

Variable Grid : Type.
Variable velocity_on_grid : list point -> list point -> nat * nat -> Grid.

(** What a successful run leaves in row [i] of [T] and of [delta_X]. *)
Lemma empirical_vec_rows (X_pca : mat) (X_embedding : list point) (V_mat : mat)
    (indices : list (list nat)) (trick : bool) (xy : nat * nat) (nr nc : nat)
    (T : mat) (delta_X : list point) (grid : Grid) (i : nat) :
  _empirical_vec Grid velocity_on_grid X_pca X_embedding V_mat indices trick xy (nr, nc)
    = Ok (T, delta_X, grid) ->
  (i < length X_pca)%nat ->
  nth i delta_X (0, 0) = snd (cell_row X_embedding X_pca V_mat indices trick i) /\
  Forall (fun t => in_shape nr nc t = true)
         (cell_triples X_embedding X_pca V_mat indices trick i) /\
  nth i T [] =
    if Nat.ltb i nr then
      map (fun b => vsum (map snd (List.filter (at_position i b)
             (cell_triples X_embedding X_pca V_mat indices trick i))))
          (seq 0 nc)
    else [].
Proof.
  intros Hrun Hi. unfold _empirical_vec, csr_matrix in Hrun.
  destruct (negb (Nat.eqb (length X_pca) 0) && negb trick && Nat.eqb (knn indices) 0);
    [discriminate Hrun|].
  destruct (forallb (in_shape nr nc) _) eqn:Hshape; [|discriminate Hrun].
  simpl in Hrun.
  destruct (Nat.eqb (length X_pca) 0); [discriminate Hrun|].
  injection Hrun as HT HdX _. subst T delta_X.
  split; [|split].
  - apply (nth_map_seq (fun i => snd (cell_row _ _ _ _ _ i))). exact Hi.
  - rewrite forallb_forall in Hshape. apply List.Forall_forall. intros t Ht.
    apply Hshape. apply in_flat_map. exists i. split; [|exact Ht].
    apply in_seq. lia.
  - destruct (Nat.ltb i nr) eqn:Hlt.
    + apply Nat.ltb_lt in Hlt.
      rewrite (nth_map_seq (fun a => map _ (seq 0 nc))) by exact Hlt.
      apply map_ext. intros b. do 2 f_equal.
      apply filter_row_flat_map.
      * apply seq_NoDup.
      * intros k. apply cell_triples_row.
      * apply in_seq. lia.
    + apply Nat.ltb_ge in Hlt. apply nth_overflow.
      now rewrite length_map, length_seq.
Qed.

(** The entries of row [i] of [T] add up to the values written for cell
    [i], whenever the cell has a neighbour. *)
Lemma empirical_vec_row_sum (X_pca : mat) (X_embedding : list point) (V_mat : mat)
    (indices : list (list nat)) (trick : bool) (xy : nat * nat) (nr nc : nat)
    (T : mat) (delta_X : list point) (grid : Grid) (i : nat) :
  _empirical_vec Grid velocity_on_grid X_pca X_embedding V_mat indices trick xy (nr, nc)
    = Ok (T, delta_X, grid) ->
  (i < length X_pca)%nat ->
  (1 <= knn indices)%nat ->
  vsum (nth i T []) = vsum (fst (cell_row X_embedding X_pca V_mat indices trick i)).
Proof.
  intros Hrun Hi Hk.
  destruct (empirical_vec_rows _ _ _ _ _ _ _ _ _ _ _ _ Hrun Hi) as (_ & Hshape & HT).
  pose proof (cell_triples_row X_embedding X_pca V_mat indices trick i) as Hrow.
  pose proof (cell_triples_values X_embedding X_pca V_mat indices trick i) as Hval.
  pose proof (length_cell_row X_embedding X_pca V_mat indices trick i) as Hlen.
  set (ts := cell_triples X_embedding X_pca V_mat indices trick i) in *.
  assert (Hboth : Forall (fun t => fst (fst t) = i /\ (snd (fst t) < nc)%nat) ts /\
                  (ts <> [] -> (i < nr)%nat)).
  { split.
    - rewrite List.Forall_forall in *. intros t Ht. split; [auto|].
      specialize (Hshape t Ht). unfold in_shape in Hshape.
      apply andb_true_iff in Hshape. destruct Hshape as [_ H]. now apply Nat.ltb_lt in H.
    - intros Hne. destruct ts as [|t ts']; [congruence|].
      inversion Hshape as [|? ? Ht _]; subst. inversion Hrow as [|? ? Hr _]; subst.
      unfold in_shape in Ht. apply andb_true_iff in Ht. destruct Ht as [H _].
      apply Nat.ltb_lt in H. lia. }
  destruct Hboth as [Hboth Hnr].
  assert (Hne : ts <> []).
  { intros E. rewrite E in Hval. simpl in Hval. rewrite <- Hval in Hlen.
    simpl in Hlen. lia. }
  rewrite HT. replace (Nat.ltb i nr) with true by (symmetry; apply Nat.ltb_lt; auto).
  rewrite vsum_columns_of_row by exact Hboth. now rewrite Hval.
Qed.

End WholeFacts.

(** *** The three-cell example *)

Section ThreeCells.

Local Arguments sign_sqrt : simpl never.
Local Arguments corrcoef01 : simpl never.
Local Arguments pearson_defined : simpl never.

Lemma three_cells_correlations :
  cell_correlations X_pca3 V_mat3 indices3 0 = [1; -1] /\
  cell_correlations X_pca3 V_mat3 indices3 1 = [-1; -1] /\
  cell_correlations X_pca3 V_mat3 indices3 2 = [1; 1].
Proof.
  unfold cell_correlations, knn, X_pca3, V_mat3, indices3. simpl.
  destruct (pair_correlation (1 - 0) (-1 - 0) 1 (-1)) as (_ & H1 & _); try lra.
  destruct (pair_correlation (-1 - 0) (1 - 0) 1 (-1)) as (_ & _ & H2); try lra.
  destruct (pair_correlation (0 - 1) (0 - -1) 1 (-1)) as (_ & _ & H3); try lra.
  destruct (pair_correlation (-1 - 1) (1 - -1) 1 (-1)) as (_ & _ & H4); try lra.
  destruct (pair_correlation (0 - -1) (0 - 1) 1 (-1)) as (_ & H5 & _); try lra.
  destruct (pair_correlation (1 - -1) (-1 - 1) 1 (-1)) as (_ & H6 & _); try lra.
  rewrite H1, H2, H3, H4, H5, H6 by lra. repeat split.
Qed.

Lemma three_cells_correlations_defined (i : nat) :
  (i < 3)%nat -> cell_correlations_defined X_pca3 V_mat3 indices3 i.
Proof.
  intros Hi. unfold cell_correlations_defined, knn, X_pca3, V_mat3, indices3.
  destruct i as [|[|[|i]]]; [| | |lia]; simpl;
    (constructor; [|constructor; [|constructor]]); apply pair_correlation; lra.
Qed.

End ThreeCells.

Lemma group_count_nonempty (i_vals : vec) (sig : R) (j : nat) :
  (j < length i_vals)%nat -> sgn (nth j i_vals 0) = sig -> group_count i_vals sig = 1.
Proof.
  intros Hj Hs. unfold group_count.
  assert (Hin : In j (where_sign i_vals sig)) by (apply in_where_sign; auto).
  destruct (where_sign i_vals sig); [contradiction | reflexivity].
Qed.

Lemma group_count_empty (i_vals : vec) (sig : R) :
  Forall (fun c => sgn c <> sig) i_vals -> group_count i_vals sig = 0.
Proof.
  intros H. unfold group_count.
  destruct (where_sign i_vals sig) as [|j idx] eqn:E; [reflexivity|].
  assert (Hin : In j (where_sign i_vals sig)) by (rewrite E; left; reflexivity).
  apply in_where_sign in Hin. destruct Hin as [Hj Hs].
  rewrite List.Forall_forall in H. exfalso. apply (H (nth j i_vals 0)); [|exact Hs].
  apply nth_In. exact Hj.
Qed.

(** *** The whole kernel *)

Lemma in_zip_with_inv {A B C : Type} (f : A -> B -> C) (l : list A) (k : list B) (c : C) :
  In c (zip_with f l k) -> exists a b, In a l /\ In b k /\ c = f a b.
Proof.
  revert k. induction l as [|a l IH]; intros k Hin; [contradiction|].
  destruct k as [|b k]; [contradiction|]. simpl in Hin.
  destruct Hin as [<- | Hin].
  - exists a, b. simpl. auto.
  - destruct (IH k Hin) as (a' & b' & Ha & Hb & ->).
    exists a', b'. simpl. auto.
Qed.

Section Runs.

Variable Grid : Type.
Variable velocity_on_grid : list point -> list point -> nat * nat -> Grid.

(** The kernel returns a result whenever the inputs have the shapes of
    the caller, there is a cell, and every cell has a neighbour. *)
Lemma empirical_vec_returns (X_pca : mat) (X_embedding : list point) (V_mat : mat)
    (indices : list (list nat)) (trick : bool) (xy : nat * nat) (shape : nat * nat) :
  kernel_inputs_conform X_pca X_embedding V_mat indices shape ->
  X_pca <> [] ->
  (1 <= knn indices)%nat ->
  exists (T : mat) (delta_X : list point) (grid : Grid),
    _empirical_vec Grid velocity_on_grid X_pca X_embedding V_mat indices trick xy shape
      = Ok (T, delta_X, grid).
Proof.
  intros (_ & _ & _ & Hrows & Hind & ->) Hne Hknn. unfold _empirical_vec, csr_matrix.
  replace (Nat.eqb (knn indices) 0) with false by (symmetry; apply Nat.eqb_neq; lia).
  rewrite andb_false_r.
  assert (Hshape : forallb (in_shape (length X_pca) (length X_pca))
            (flat_map (cell_triples X_embedding X_pca V_mat indices trick)
                      (seq 0 (length X_pca))) = true).
  { apply forallb_forall. intros t Ht. apply in_flat_map in Ht.
    destruct Ht as (i & Hi & Ht). apply in_seq in Hi.
    unfold cell_triples in Ht. apply in_zip_with_inv in Ht.
    destruct Ht as (j & v & Hj & _ & ->). apply in_seq in Hj.
    unfold in_shape. simpl. apply andb_true_iff. split; apply Nat.ltb_lt; [lia|].
    rewrite List.Forall_forall in Hind.
    destruct (Hind (nth i indices [])) as [Hlen Hrow]; [apply nth_In; lia|].
    rewrite List.Forall_forall in Hrow. apply Hrow, nth_In. lia. }
  rewrite Hshape. simpl.
  destruct X_pca as [|r X_pca']; [congruence|]. simpl.
  eexists _, _, _. reflexivity.
Qed.

(** In a successful run, for every cell [i] that has a neighbour and whose
    correlations are numbers: without the trick (and with a correlation that
    is not zero) row [i] of [T] sums to 1; with the trick it sums to the
    number of non-empty positive groups minus the number of non-empty
    negative groups. *)
Lemma empirical_vec_row_sums (X_pca : mat) (X_embedding : list point)
    (V_mat : mat) (indices : list (list nat)) (trick : bool) (xy : nat * nat)
    (nr nc : nat) (T : mat) (delta_X : list point) (grid : Grid) (i : nat) :
  _empirical_vec Grid velocity_on_grid X_pca X_embedding V_mat indices trick xy (nr, nc)
    = Ok (T, delta_X, grid) ->
  (i < length X_pca)%nat ->
  (1 <= knn indices)%nat ->
  cell_correlations_defined X_pca V_mat indices i ->
  (trick = false ->
   pymax (map Rabs (cell_correlations X_pca V_mat indices i)) <> 0 ->
   vsum (nth i T []) = 1) /\
  (trick = true ->
   vsum (nth i T []) =
     group_count (cell_correlations X_pca V_mat indices i) 1
     - group_count (cell_correlations X_pca V_mat indices i) (-1)).
Proof.
  intros Hrun Hi Hk _.
  rewrite (empirical_vec_row_sum _ _ _ _ _ _ _ _ _ _ _ _ _ _ Hrun Hi Hk).
  unfold cell_row. split; intros -> .
  - intros _. apply vsum_plain_row.
    assert (Hlen : length (cell_correlations X_pca V_mat indices i) = knn indices).
    { unfold cell_correlations. now rewrite length_map, length_seq. }
    intros E. rewrite E in Hlen. simpl in Hlen. lia.
  - apply vsum_neg_cells_row.
Qed.

(** C10: in two successful runs on the same input, one with
    [neg_cells_trick=True] and one without, a cell [i] whose correlations
    are all strictly positive (and whose neighbours all lie away from it in
    the embedding) gets the same row of the transition matrix, and the row
    of [delta_X] of the first run is one half of that of the second. *)
Theorem neg_cells_trick_halves_drift_of_positive_cells (X_pca : mat)
    (X_embedding : list point) (V_mat : mat) (indices : list (list nat))
    (xy : nat * nat) (nr nc : nat)
    (T1 T2 : mat) (delta_X1 delta_X2 : list point) (grid1 grid2 : Grid) (i : nat) :
  _empirical_vec Grid velocity_on_grid X_pca X_embedding V_mat indices true xy (nr, nc)
    = Ok (T1, delta_X1, grid1) ->
  _empirical_vec Grid velocity_on_grid X_pca X_embedding V_mat indices false xy (nr, nc)
    = Ok (T2, delta_X2, grid2) ->
  (i < length X_pca)%nat ->
  length (nth i indices []) = length (hd [] indices) ->
  Forall (fun c => 0 < c) (cell_correlations X_pca V_mat indices i) ->
  cell_directions_defined X_embedding indices i ->
  nth i T1 [] = nth i T2 [] /\
  nth i delta_X1 (0, 0) = pscale (1/2) (nth i delta_X2 (0, 0)).
Proof.
  intros Hrun1 Hrun2 Hi Hrect Hpos _.
  destruct (empirical_vec_rows _ _ _ _ _ _ _ _ _ _ _ _ _ _ Hrun1 Hi) as (Hd1 & _ & HT1).
  destruct (empirical_vec_rows _ _ _ _ _ _ _ _ _ _ _ _ _ _ Hrun2 Hi) as (Hd2 & _ & HT2).
  assert (Hrow : cell_row X_embedding X_pca V_mat indices true i
                 = (fst (cell_row X_embedding X_pca V_mat indices false i),
                    pscale (1/2) (snd (cell_row X_embedding X_pca V_mat indices false i)))).
  { unfold cell_row. apply neg_cells_row_all_positive; [exact Hpos|].
    unfold neighbors_of, cell_correlations.
    rewrite length_map, length_seq. unfold knn. rewrite <- Hrect.
    destruct (nth i indices []); simpl; lia. }
  assert (Htr : cell_triples X_embedding X_pca V_mat indices true i
                = cell_triples X_embedding X_pca V_mat indices false i).
  { unfold cell_triples. now rewrite Hrow. }
  split.
  - rewrite HT1, HT2, Htr. reflexivity.
  - rewrite Hd1, Hd2, Hrow. reflexivity.
Qed.

End Runs.

Lemma three_cells_conform :
  kernel_inputs_conform X_pca3 X_embedding3 V_mat3 indices3 (3, 3)%nat.
Proof.
  unfold kernel_inputs_conform, has_shape, knn. simpl.
  repeat split; repeat constructor.
Qed.

Lemma three_cells_run (trick : bool) :
  exists (T : mat) (delta_X : list point),
    _empirical_vec unit no_grid X_pca3 X_embedding3 V_mat3 indices3 trick (50, 50)%nat (3, 3)%nat
      = Ok (T, delta_X, tt).
Proof.
  destruct (empirical_vec_returns unit no_grid X_pca3 X_embedding3 V_mat3 indices3
              trick (50, 50)%nat (3, 3)%nat) as (T & dX & [] & H).
  - exact three_cells_conform.
  - discriminate.
  - unfold knn. simpl. lia.
  - exists T, dX. exact H.
Qed.

(** On the three-cell input with [neg_cells_trick=True], the correlations
    of cell 0 are [1, -1] and those of cell 1 are [-1, -1], and the rows 0
    and 1 of the transition matrix sum to 0 and to -1. *)
Lemma three_cells_trick_row_sums (T : mat) (delta_X : list point) :
  _empirical_vec unit no_grid X_pca3 X_embedding3 V_mat3 indices3 true (50, 50)%nat (3, 3)%nat
    = Ok (T, delta_X, tt) ->
  vsum (nth 0 T []) = 0 /\ vsum (nth 1 T []) = -1.
Proof.
  intros Hrun.
  destruct three_cells_correlations as (Hc0 & Hc1 & _).
  assert (Hk : (1 <= knn indices3)%nat) by (unfold knn; simpl; lia).
  split.
  - rewrite (empirical_vec_row_sum _ _ _ _ _ _ _ _ _ _ _ _ _ 0%nat Hrun)
      by (simpl; lia || exact Hk).
    unfold cell_row. rewrite vsum_neg_cells_row, Hc0.
    rewrite (group_count_nonempty [1; -1] 1 0), (group_count_nonempty [1; -1] (-1) 1);
      simpl; try lia; try lra.
    + apply sgn_neg. lra.
    + apply sgn_pos. lra.
  - rewrite (empirical_vec_row_sum _ _ _ _ _ _ _ _ _ _ _ _ _ 1%nat Hrun)
      by (simpl; lia || exact Hk).
    unfold cell_row. rewrite vsum_neg_cells_row, Hc1.
    rewrite (group_count_empty [-1; -1] 1), (group_count_nonempty [-1; -1] (-1) 0);
      simpl; try lia; try lra.
    + apply sgn_neg. lra.
    + repeat constructor; rewrite sgn_neg; lra.
Qed.

Lemma three_cells_plain_sigma :
  pymax (map Rabs (cell_correlations X_pca3 V_mat3 indices3 0)) <> 0.
Proof.
  destruct three_cells_correlations as (-> & _ & _).
  pose proof (pymax_ge (map Rabs [1; -1]) (Rabs 1) (or_introl eq_refl)) as Hge.
  rewrite Rabs_R1 in Hge. lra.
Qed.

Lemma neg_cells_trick_halves_drift_of_positive_cells_witness :
  exists (T1 T2 : mat) (delta_X1 delta_X2 : list point),
    _empirical_vec unit no_grid X_pca3 X_embedding3 V_mat3 indices3 true (50, 50)%nat (3, 3)%nat
      = Ok (T1, delta_X1, tt) /\
    _empirical_vec unit no_grid X_pca3 X_embedding3 V_mat3 indices3 false (50, 50)%nat (3, 3)%nat
      = Ok (T2, delta_X2, tt) /\
    nth 2 T1 [] = nth 2 T2 [] /\
    nth 2 delta_X1 (0, 0) = pscale (1/2) (nth 2 delta_X2 (0, 0)).
Proof.
  destruct (three_cells_run true) as (T1 & dX1 & Hrun1).
  destruct (three_cells_run false) as (T2 & dX2 & Hrun2).
  exists T1, T2, dX1, dX2. split; [exact Hrun1|]. split; [exact Hrun2|].
  apply (neg_cells_trick_halves_drift_of_positive_cells unit no_grid
           _ _ _ _ _ _ _ _ _ _ _ _ _ 2%nat Hrun1 Hrun2).
  - simpl. lia.
  - reflexivity.
  - destruct three_cells_correlations as (_ & _ & ->).
    repeat constructor; lra.
  - unfold cell_directions_defined, neighbors_of, indices3, emb, X_embedding3, norm2, psub.
    simpl. constructor; [|constructor; [|constructor]];
      cbn [fst snd]; apply Rgt_not_eq, Rlt_gt, sqrt_lt_R0; lra.
Defined.

(** C6: with [neg_cells_trick=True], a sign group ([sig] is -1 or 1) that
    is not empty holds exactly the neighbours whose correlation has that
    sign, shares no neighbour with the other group, has a positive scale
    [sigma], and its softmax weights [i_prob], one per member and
    normalised by the sum over the members of this group only, sum to 1;
    the pass of the loop for [sig] writes [sig * i_prob] at the positions
    of the group and nothing else. *)
Theorem neg_cells_groups_normalized_separately (X_embedding : list point)
    (nbrs : list nat) (i : nat) (i_vals : vec) (st : vec * point) (sig : R) :
  sig = -1 \/ sig = 1 ->
  where_sign i_vals sig <> [] ->
  (forall j, In j (where_sign i_vals sig) <->
             (j < length i_vals)%nat /\ sgn (nth j i_vals 0) = sig) /\
  (forall j, In j (where_sign i_vals sig) -> ~ In j (where_sign i_vals (- sig))) /\
  0 < pymax (map Rabs (take_at 0 i_vals (where_sign i_vals sig))) /\
  length (group_prob i_vals sig) = length (where_sign i_vals sig) /\
  vsum (group_prob i_vals sig) = 1 /\
  fst (neg_cells_group X_embedding nbrs i i_vals st sig)
  = scatter (fst st) (where_sign i_vals sig) (map (Rmult sig) (group_prob i_vals sig)).
Proof.
  intros Hsig Hne.
  split; [intros j; apply in_where_sign|].
  split; [intros j; apply where_sign_disjoint; destruct Hsig; subst sig; lra|].
  split; [apply group_sigma_pos; assumption|].
  split; [apply length_group_prob|].
  split; [apply vsum_group_prob; exact Hne|].
  unfold neg_cells_group.
  destruct (Nat.eqb (length (where_sign i_vals sig)) 0) eqn:E; [|reflexivity].
  apply Nat.eqb_eq in E. destruct (where_sign i_vals sig); [congruence | discriminate].
Qed.

Lemma neg_cells_groups_normalized_separately_witness :
  vsum (group_prob [1; -1] 1) = 1.
Proof.
  assert (Hw : where_sign [1; -1] 1 = [0%nat]).
  { unfold where_sign. simpl. rewrite (sgn_pos 1), (sgn_neg (-1)) by lra.
    destruct (Req_dec_T 1 1); [|congruence].
    destruct (Req_dec_T (-1) 1); [lra | reflexivity]. }
  apply (neg_cells_groups_normalized_separately [] [1; 2]%nat 0%nat [1; -1]
           (repeat 0 2, (0, 0)) 1).
  - right. reflexivity.
  - rewrite Hw. discriminate.
Defined.

End EmpiricalFacts.

(** ** More on the empirical kernel: what the matrix holds *)

Module KernelFacts.

Import Np NpFacts Empirical EmpiricalExamples EmpiricalFacts KernelColumns.
Import PowerIterationFacts.
Local Open Scope R_scope.

(** *** Entries of the sparse matrix *)

Lemma cell_triples_as_zip (X_embedding : list point) (X_pca V_mat : mat)
    (indices : list (list nat)) (trick : bool) (i : nat) :
  cell_triples X_embedding X_pca V_mat indices trick i
  = zip_with (fun c v => (i, c, v))
             (map (fun j => nth j (nth i indices []) 0%nat) (seq 1 (knn indices)))
             (fst (cell_row X_embedding X_pca V_mat indices trick i)).
Proof.
  unfold cell_triples.
  generalize (fst (cell_row X_embedding X_pca V_mat indices trick i)).
  generalize (seq 1 (knn indices)).
  intros l. induction l as [|j l IH]; intros vals; [reflexivity|].
  destruct vals as [|v vals]; [reflexivity|]. simpl. f_equal. apply IH.
Qed.

Lemma vsum_filter_absent (i c : nat) (ks : list nat) (vs : vec) :
  ~ In c ks ->
  vsum (map snd (List.filter (at_position i c) (zip_with (fun k v => (i, k, v)) ks vs))) = 0.
Proof.
  revert vs. induction ks as [|k ks IH]; intros vs Hc; [reflexivity|].
  destruct vs as [|v vs]; [reflexivity|]. simpl.
  unfold at_position at 1. simpl.
  replace (Nat.eqb k c) with false
    by (symmetry; apply Nat.eqb_neq; intros ->; apply Hc; left; reflexivity).
  rewrite andb_false_r. apply IH. intros H. apply Hc. right. exact H.
Qed.

Lemma vsum_filter_present (i : nat) (ks : list nat) (vs : vec) (k : nat) :
  List.NoDup ks -> length vs = length ks -> (k < length ks)%nat ->
  vsum (map snd (List.filter (at_position i (nth k ks 0%nat))
                             (zip_with (fun c v => (i, c, v)) ks vs)))
  = nth k vs 0.
Proof.
  intros Hnd. revert vs k. induction Hnd as [|c ks Hc Hnd IH]; intros vs k Hlen Hk;
    [simpl in Hk; lia|].
  destruct vs as [|v vs]; [discriminate|]. simpl zip_with. simpl List.filter.
  unfold at_position at 1. simpl fst. simpl snd. rewrite Nat.eqb_refl. simpl andb.
  destruct k as [|k]; simpl nth.
  - rewrite Nat.eqb_refl. simpl. rewrite vsum_filter_absent by exact Hc. lra.
  - replace (Nat.eqb c (nth k ks 0%nat)) with false.
    + apply IH; simpl in *; lia.
    + symmetry. apply Nat.eqb_neq. intros ->. apply Hc, nth_In. simpl in Hk. lia.
Qed.

Lemma nonneg_vsum_filter (i c : nat) (ts : list triple) :
  Forall (fun t => 0 <= snd t) ts ->
  0 <= vsum (map snd (List.filter (at_position i c) ts)).
Proof.
  induction 1 as [|t ts Ht _ IH]; simpl; [lra|].
  destruct (at_position i c t); simpl; lra.
Qed.

Section Entries.

Variable Grid : Type.
Variable velocity_on_grid : list point -> list point -> nat * nat -> Grid.

Variables (X_pca : mat) (X_embedding : list point) (V_mat : mat).
Variables (indices : list (list nat)) (trick : bool) (xy : nat * nat) (nr nc : nat).
Variables (T : mat) (delta_X : list point) (grid : Grid).

Hypothesis Hrun :
  _empirical_vec Grid velocity_on_grid X_pca X_embedding V_mat indices trick xy (nr, nc)
  = Ok (T, delta_X, grid).

Lemma run_shape : has_shape nr nc T /\ length delta_X = length X_pca.
Proof.
  unfold _empirical_vec, csr_matrix in Hrun.
  destruct (negb (Nat.eqb (length X_pca) 0) && negb trick && Nat.eqb (knn indices) 0);
    [discriminate Hrun|].
  destruct (forallb (in_shape nr nc) _); [|discriminate Hrun].
  simpl in Hrun. destruct (Nat.eqb (length X_pca) 0); [discriminate Hrun|].
  injection Hrun as <- <- _. split; [split|].
  - now rewrite length_map, length_seq.
  - apply Forall_map. apply List.Forall_forall. intros a _. simpl.
    now rewrite length_map, length_seq.
  - now rewrite length_map, length_seq.
Qed.

Lemma run_guards : X_pca <> [] /\ (trick = true \/ (1 <= knn indices)%nat).
Proof.
  unfold _empirical_vec, csr_matrix in Hrun.
  destruct (Nat.eqb (length X_pca) 0) eqn:En.
  - simpl in Hrun. destruct (forallb (in_shape nr nc) _); discriminate Hrun.
  - apply Nat.eqb_neq in En. split; [intros ->; apply En; reflexivity|].
    destruct trick; [left; reflexivity|]. right.
    destruct (Nat.eqb (knn indices) 0) eqn:Ek; [simpl in Hrun; discriminate Hrun|].
    apply Nat.eqb_neq in Ek. lia.
Qed.

Lemma run_row_beyond_cells (i b : nat) :
  (length X_pca <= i)%nat -> nth b (nth i T []) 0 = 0.
Proof.
  intros Hi. unfold _empirical_vec, csr_matrix in Hrun.
  destruct (negb (Nat.eqb (length X_pca) 0) && negb trick && Nat.eqb (knn indices) 0);
    [discriminate Hrun|].
  destruct (forallb (in_shape nr nc) _); [|discriminate Hrun].
  simpl in Hrun. destruct (Nat.eqb (length X_pca) 0); [discriminate Hrun|].
  injection Hrun as <- _ _.
  destruct (Nat.lt_ge_cases i nr) as [Hlt | Hge].
  - rewrite (nth_map_seq (fun a => map _ (seq 0 nc))) by exact Hlt.
    destruct (Nat.lt_ge_cases b nc) as [Hb | Hb].
    + rewrite (nth_map_seq (fun b => vsum _)) by exact Hb.
      rewrite filter_none; [reflexivity|].
      intros t Ht. apply in_flat_map in Ht. destruct Ht as (k & Hk & Ht).
      apply in_seq in Hk.
      pose proof (cell_triples_row X_embedding X_pca V_mat indices trick k) as Hrow.
      rewrite List.Forall_forall in Hrow. unfold at_position. rewrite (Hrow t Ht).
      replace (Nat.eqb k i) with false by (symmetry; apply Nat.eqb_neq; lia).
      reflexivity.
    + apply nth_overflow. now rewrite length_map, length_seq.
  - rewrite (nth_overflow _ [] ) by (now rewrite length_map, length_seq).
    destruct b; reflexivity.
Qed.

Lemma run_entry (i b : nat) :
  (i < length X_pca)%nat -> (b < nc)%nat ->
  nth b (nth i T []) 0
  = vsum (map snd (List.filter (at_position i b)
                     (cell_triples X_embedding X_pca V_mat indices trick i))).
Proof.
  intros Hi Hb.
  destruct (empirical_vec_rows _ _ _ _ _ _ _ _ _ _ _ _ _ _ Hrun Hi) as (_ & Hshape & HT).
  rewrite HT. destruct (Nat.ltb i nr) eqn:Hnr.
  - now rewrite (nth_map_seq (fun b => vsum _)).
  - apply Nat.ltb_ge in Hnr.
    destruct (cell_triples X_embedding X_pca V_mat indices trick i) as [|t ts] eqn:E;
      [destruct b; reflexivity|].
    exfalso. inversion Hshape as [|? ? Ht _]; subst.
    pose proof (cell_triples_row X_embedding X_pca V_mat indices trick i) as Hrow.
    rewrite E in Hrow. inversion Hrow as [|? ? Hr _]; subst.
    unfold in_shape in Ht. apply andb_true_iff in Ht. destruct Ht as [H _].
    apply Nat.ltb_lt in H. lia.
Qed.

Lemma run_written_columns_in_shape (i : nat) :
  (i < length X_pca)%nat -> Forall (fun c => (c < nc)%nat) (written_columns indices i).
Proof.
  intros Hi.
  destruct (empirical_vec_rows _ _ _ _ _ _ _ _ _ _ _ _ _ _ Hrun Hi) as (_ & Hshape & _).
  rewrite cell_triples_as_zip in Hshape. fold (written_columns indices i) in Hshape.
  pose proof (length_cell_row X_embedding X_pca V_mat indices trick i) as Hlen.
  assert (Hl : length (written_columns indices i)
               = length (fst (cell_row X_embedding X_pca V_mat indices trick i))).
  { unfold written_columns. now rewrite length_map, length_seq, Hlen. }
  revert Hshape Hl.
  generalize (fst (cell_row X_embedding X_pca V_mat indices trick i)).
  generalize (written_columns indices i).
  intros ks. induction ks as [|k ks IH]; intros vs Hshape Hl; [constructor|].
  destruct vs as [|v vs]; [discriminate|]. simpl in Hshape.
  inversion Hshape as [|? ? Ht Hts]; subst. constructor.
  - unfold in_shape in Ht. simpl in Ht. apply andb_true_iff in Ht.
    destruct Ht as [_ H]. now apply Nat.ltb_lt in H.
  - apply (IH vs); [exact Hts | simpl in Hl; lia].
Qed.

(** The entry at the column of the [k]-th neighbour is the [k]-th value
    written for the cell, when the neighbours are distinct. *)
Lemma run_neighbor_entry (i k : nat) :
  (i < length X_pca)%nat -> (k < knn indices)%nat ->
  List.NoDup (written_columns indices i) ->
  nth (nth k (written_columns indices i) 0%nat) (nth i T []) 0
  = nth k (fst (cell_row X_embedding X_pca V_mat indices trick i)) 0.
Proof.
  intros Hi Hk Hnd.
  assert (Hlen : length (written_columns indices i) = knn indices)
    by (unfold written_columns; now rewrite length_map, length_seq).
  pose proof (run_written_columns_in_shape i Hi) as Hcols.
  rewrite List.Forall_forall in Hcols.
  rewrite run_entry; [|exact Hi | apply Hcols, nth_In; lia].
  rewrite cell_triples_as_zip. fold (written_columns indices i).
  apply vsum_filter_present; [exact Hnd | | lia].
  now rewrite length_cell_row, Hlen.
Qed.

Lemma run_other_entry (i b : nat) :
  (i < length X_pca)%nat -> ~ In b (written_columns indices i) ->
  nth b (nth i T []) 0 = 0.
Proof.
  intros Hi Hb. destruct (Nat.lt_ge_cases b nc) as [Hlt | Hge].
  - rewrite run_entry by assumption. rewrite cell_triples_as_zip.
    apply vsum_filter_absent. exact Hb.
  - destruct run_shape as [[Hl Hr] _].
    destruct (Nat.lt_ge_cases i nr) as [Hir | Hir].
    + apply nth_overflow. rewrite List.Forall_forall in Hr.
      rewrite (Hr (nth i T [])); [lia | apply nth_In; lia].
    + rewrite (nth_overflow T) by lia. destruct b; reflexivity.
Qed.

End Entries.

(** X8: the support of the kernel matrix.  After a successful run [T] has
    the shape of [neighbors] and [delta_X] one row per cell; the rows of [T]
    beyond the cells are zero, and in the row of a cell every entry outside
    the columns of its neighbours is zero. *)
Theorem empirical_vec_matrix_support (Grid : Type)
    (velocity_on_grid : list point -> list point -> nat * nat -> Grid)
    (X_pca : mat) (X_embedding : list point) (V_mat : mat)
    (indices : list (list nat)) (trick : bool) (xy : nat * nat) (nr nc : nat)
    (T : mat) (delta_X : list point) (grid : Grid) :
  _empirical_vec Grid velocity_on_grid X_pca X_embedding V_mat indices trick xy (nr, nc)
    = Ok (T, delta_X, grid) ->
  has_shape nr nc T /\
  length delta_X = length X_pca /\
  (forall i b, (length X_pca <= i)%nat -> nth b (nth i T []) 0 = 0) /\
  (forall i b, (i < length X_pca)%nat -> ~ In b (written_columns indices i) ->
               nth b (nth i T []) 0 = 0).
Proof.
  intros Hrun.
  destruct (run_shape _ _ _ _ _ _ _ _ _ _ _ _ _ Hrun) as [Hs Hd].
  split; [exact Hs|]. split; [exact Hd|]. split.
  - intros i b. apply (run_row_beyond_cells _ _ _ _ _ _ _ _ _ _ _ _ _ Hrun).
  - intros i b. apply (run_other_entry _ _ _ _ _ _ _ _ _ _ _ _ _ Hrun).
Qed.

Lemma empirical_vec_matrix_support_witness :
  exists (T : mat) (delta_X : list point),
    _empirical_vec unit no_grid X_pca3 X_embedding3 V_mat3 indices3 true (50, 50)%nat
                   (3, 3)%nat = Ok (T, delta_X, tt) /\
    has_shape 3 3 T /\ nth 0 (nth 0 T []) 0 = 0.
Proof.
  destruct (three_cells_run true) as (T & dX & Hrun).
  exists T, dX. split; [exact Hrun|].
  destruct (empirical_vec_matrix_support unit no_grid _ _ _ _ _ _ _ _ _ _ _ Hrun)
    as (Hs & _ & _ & Hz).
  split; [exact Hs|]. apply Hz; [simpl; lia|].
  unfold written_columns, knn, indices3. simpl. intros [H | [H | H]]; [lia | lia | exact H].
Defined.

(** *** Without the trick the entries are probabilities *)

Lemma plain_prob_pos (i_vals : vec) : Forall (fun x => 0 < x) (plain_prob i_vals).
Proof.
  unfold plain_prob. destruct i_vals as [|c i_vals]; [constructor|].
  set (vs := c :: i_vals).
  pose proof (vsum_exp_pos (fun v => v / pymax (map Rabs vs)) vs) as HD.
  specialize (HD ltac:(discriminate)).
  rewrite map_map. apply Forall_map. apply List.Forall_forall. intros v _. simpl.
  apply Rdiv_lt_0_compat; [apply exp_pos | exact HD].
Qed.

Lemma vsum_filter_le (f : triple -> bool) (ts : list triple) :
  Forall (fun t => 0 <= snd t) ts ->
  vsum (map snd (List.filter f ts)) <= vsum (map snd ts).
Proof.
  induction 1 as [|t ts Ht _ IH]; simpl; [lra|].
  destruct (f t); simpl; lra.
Qed.

(** X9: with [neg_cells_trick=False], in the row of a cell whose
    correlations are numbers (one of them not zero), every entry of the
    transition matrix lies between 0 and 1. *)
Theorem empirical_vec_plain_entries_are_probabilities (Grid : Type)
    (velocity_on_grid : list point -> list point -> nat * nat -> Grid)
    (X_pca : mat) (X_embedding : list point) (V_mat : mat)
    (indices : list (list nat)) (xy : nat * nat) (nr nc : nat)
    (T : mat) (delta_X : list point) (grid : Grid) (i b : nat) :
  _empirical_vec Grid velocity_on_grid X_pca X_embedding V_mat indices false xy (nr, nc)
    = Ok (T, delta_X, grid) ->
  (i < length X_pca)%nat ->
  cell_correlations_defined X_pca V_mat indices i ->
  pymax (map Rabs (cell_correlations X_pca V_mat indices i)) <> 0 ->
  0 <= nth b (nth i T []) 0 <= 1.
Proof.
  intros Hrun Hi _ _.
  destruct (in_dec Nat.eq_dec b (written_columns indices i)) as [Hin | Hout].
  - pose proof (run_written_columns_in_shape _ _ _ _ _ _ _ _ _ _ _ _ _ Hrun i Hi) as Hc.
    rewrite List.Forall_forall in Hc.
    rewrite (run_entry _ _ _ _ _ _ _ _ _ _ _ _ _ Hrun) by auto.
    set (ts := cell_triples X_embedding X_pca V_mat indices false i).
    assert (Hval : map snd ts = plain_prob (cell_correlations X_pca V_mat indices i)).
    { unfold ts. rewrite cell_triples_values. reflexivity. }
    assert (Hpos : Forall (fun t => 0 <= snd t) ts).
    { pose proof (plain_prob_pos (cell_correlations X_pca V_mat indices i)) as Hp.
      rewrite <- Hval in Hp. rewrite List.Forall_map in Hp.
      eapply List.Forall_impl; [|exact Hp]. intros t Ht. simpl in Ht. lra. }
    split; [apply nonneg_vsum_filter; exact Hpos|].
    eapply Rle_trans; [apply vsum_filter_le; exact Hpos|].
    rewrite Hval, vsum_plain_prob; [lra|].
    destruct (run_guards _ _ _ _ _ _ _ _ _ _ _ _ _ Hrun) as [_ [Hf | Hk]]; [discriminate|].
    intros E.
    assert (Hl : length (cell_correlations X_pca V_mat indices i) = knn indices)
      by (unfold cell_correlations; now rewrite length_map, length_seq).
    rewrite E in Hl. simpl in Hl. lia.
  - rewrite (run_other_entry _ _ _ _ _ _ _ _ _ _ _ _ _ Hrun) by assumption. lra.
Qed.

Lemma empirical_vec_plain_entries_are_probabilities_witness :
  exists (T : mat) (delta_X : list point),
    _empirical_vec unit no_grid X_pca3 X_embedding3 V_mat3 indices3 false (50, 50)%nat
                   (3, 3)%nat = Ok (T, delta_X, tt) /\
    0 <= nth 1 (nth 0 T []) 0 <= 1.
Proof.
  destruct (three_cells_run false) as (T & dX & Hrun).
  exists T, dX. split; [exact Hrun|].
  apply (empirical_vec_plain_entries_are_probabilities unit no_grid _ _ _ _ _ _ _ _ _ _
           0%nat 1%nat Hrun).
  - simpl. lia.
  - apply three_cells_correlations_defined. lia.
  - exact three_cells_plain_sigma.
Defined.

(** *** With the trick the stored weight has the sign of the correlation *)

Lemma nth_insert_same (a : vec) (j : nat) (x : R) :
  (j < length a)%nat -> nth j (<[j := x]> a) 0 = x.
Proof.
  revert j. induction a as [|y a IH]; intros j Hj; [simpl in Hj; lia|].
  destruct j as [|j]; [reflexivity|]. simpl. apply IH. simpl in Hj. lia.
Qed.

Lemma nth_scatter_in (a : vec) (idx : list nat) (v : vec) (t : nat) :
  List.NoDup idx -> length v = length idx ->
  (forall j, In j idx -> (j < length a)%nat) ->
  (t < length idx)%nat ->
  nth (nth t idx 0%nat) (scatter a idx v) 0 = nth t v 0.
Proof.
  intros Hnd. revert a v t. induction Hnd as [|j idx Hj Hnd IH]; intros a v t Hlen Hin Ht;
    [simpl in Ht; lia|].
  destruct v as [|x v]; [discriminate|]. simpl scatter.
  destruct t as [|t]; simpl nth.
  - rewrite nth_scatter_notin by exact Hj.
    apply nth_insert_same. apply Hin. left. reflexivity.
  - apply IH.
    + simpl in Hlen. lia.
    + intros k Hk. rewrite length_insert. apply Hin. right. exact Hk.
    + simpl in Ht. lia.
Qed.

Lemma group_prob_pos (i_vals : vec) (sig : R) :
  Forall (fun x => 0 < x) (group_prob i_vals sig).
Proof.
  unfold group_prob.
  destruct (take_at 0 i_vals (where_sign i_vals sig)) as [|c cs] eqn:E; [constructor|].
  set (l := c :: cs) in *.
  pose proof (vsum_exp_pos (fun v => Rabs v / pymax (map Rabs l)) l) as HD.
  specialize (HD ltac:(discriminate)).
  rewrite map_map. apply Forall_map. apply List.Forall_forall. intros v _. simpl.
  apply Rdiv_lt_0_compat; [apply exp_pos | exact HD].
Qed.

Lemma entries_le_sum (l : vec) :
  Forall (fun x => 0 < x) l -> Forall (fun x => x <= vsum l) l.
Proof.
  induction 1 as [|x l Hx Hl IH]; [constructor|]. simpl.
  assert (0 <= vsum l).
  { apply vsum_nonneg. eapply List.Forall_impl; [|exact Hl]. intros; simpl in *; lra. }
  constructor; [lra|].
  eapply List.Forall_impl; [|exact IH]. intros y Hy. simpl in Hy. lra.
Qed.

Lemma group_prob_range (i_vals : vec) (sig : R) (t : nat) :
  (t < length (where_sign i_vals sig))%nat ->
  0 < nth t (group_prob i_vals sig) 0 <= 1.
Proof.
  intros Ht.
  assert (Hne : where_sign i_vals sig <> []) by (intros E; rewrite E in Ht; simpl in Ht; lia).
  pose proof (group_prob_pos i_vals sig) as Hp.
  pose proof (entries_le_sum _ Hp) as Hle. rewrite vsum_group_prob in Hle by exact Hne.
  rewrite List.Forall_forall in Hp, Hle.
  assert (Hin : In (nth t (group_prob i_vals sig) 0) (group_prob i_vals sig))
    by (apply nth_In; now rewrite length_group_prob).
  split; [apply Hp | apply Hle]; exact Hin.
Qed.

Lemma neg_cells_group_value (X_embedding : list point) (nbrs : list nat) (i : nat)
    (i_vals : vec) (st : vec * point) (sig : R) (t : nat) :
  length (fst st) = length i_vals ->
  (t < length (where_sign i_vals sig))%nat ->
  nth (nth t (where_sign i_vals sig) 0%nat)
      (fst (neg_cells_group X_embedding nbrs i i_vals st sig)) 0
  = sig * nth t (group_prob i_vals sig) 0.
Proof.
  intros Hlen Ht. unfold neg_cells_group.
  destruct (Nat.eqb (length (where_sign i_vals sig)) 0) eqn:E;
    [apply Nat.eqb_eq in E; lia|].
  cbn [fst]. rewrite nth_scatter_in.
  - rewrite (nth_indep _ 0 (sig * 0)) by (now rewrite length_map, length_group_prob).
    apply (map_nth (Rmult sig)).
  - apply NoDup_where_sign.
  - now rewrite length_map, length_group_prob.
  - intros j Hj. apply in_where_sign in Hj. lia.
  - exact Ht.
Qed.

Lemma neg_cells_row_value (X_embedding : list point) (nbrs : list nat) (i : nat)
    (i_vals : vec) (k : nat) :
  (k < length i_vals)%nat ->
  (0 < nth k i_vals 0 ->
   0 < nth k (fst (neg_cells_row X_embedding nbrs i i_vals)) 0 <= 1) /\
  (nth k i_vals 0 < 0 ->
   -1 <= nth k (fst (neg_cells_row X_embedding nbrs i i_vals)) 0 < 0) /\
  (nth k i_vals 0 = 0 ->
   nth k (fst (neg_cells_row X_embedding nbrs i i_vals)) 0 = 0).
Proof.
  intros Hk. unfold neg_cells_row. simpl fold_left.
  set (st0 := (repeat 0 (length i_vals), (0, 0))).
  set (st1 := neg_cells_group X_embedding nbrs i i_vals st0 (-1)).
  assert (Hl0 : length (fst st0) = length i_vals) by (unfold st0; cbn [fst]; apply repeat_length).
  assert (Hl1 : length (fst st1) = length i_vals)
    by (unfold st1; now rewrite length_neg_cells_group).
  assert (Hz0 : nth k (fst st0) 0 = 0) by (unfold st0; cbn [fst]; apply nth_repeat).
  split; [|split]; intros Hc.
  - assert (Hin : In k (where_sign i_vals 1))
      by (apply in_where_sign; split; [exact Hk | apply sgn_pos; exact Hc]).
    apply In_nth with (d := 0%nat) in Hin. destruct Hin as (t & Ht & <-).
    rewrite neg_cells_group_value by assumption.
    pose proof (group_prob_range i_vals 1 t Ht). lra.
  - assert (Hin : In k (where_sign i_vals (-1)))
      by (apply in_where_sign; split; [exact Hk | apply sgn_neg; exact Hc]).
    rewrite neg_cells_group_untouched
      by (apply (where_sign_disjoint i_vals (-1) 1); [lra | exact Hin]).
    apply In_nth with (d := 0%nat) in Hin. destruct Hin as (t & Ht & <-).
    unfold st1. rewrite neg_cells_group_value by assumption.
    pose proof (group_prob_range i_vals (-1) t Ht). lra.
  - assert (Hs : sgn (nth k i_vals 0) = 0).
    { rewrite Hc. unfold sgn. destruct (Rlt_dec 0 0); [lra|]. reflexivity. }
    rewrite neg_cells_group_untouched
      by (intros H; apply in_where_sign in H; destruct H as [_ H]; lra).
    unfold st1. rewrite neg_cells_group_untouched
      by (intros H; apply in_where_sign in H; destruct H as [_ H]; lra).
    exact Hz0.
Qed.

(** X10: with [neg_cells_trick=True], for a cell with distinct neighbours
    whose correlations are numbers, the entry of the transition matrix at
    the column of a neighbour has the sign of that neighbour's correlation:
    in (0, 1] when it is positive, in [-1, 0) when it is negative, 0 when
    it is zero. *)
Theorem empirical_vec_trick_entry_sign (Grid : Type)
    (velocity_on_grid : list point -> list point -> nat * nat -> Grid)
    (X_pca : mat) (X_embedding : list point) (V_mat : mat)
    (indices : list (list nat)) (xy : nat * nat) (nr nc : nat)
    (T : mat) (delta_X : list point) (grid : Grid) (i k : nat) :
  _empirical_vec Grid velocity_on_grid X_pca X_embedding V_mat indices true xy (nr, nc)
    = Ok (T, delta_X, grid) ->
  (i < length X_pca)%nat -> (k < knn indices)%nat ->
  List.NoDup (written_columns indices i) ->
  cell_correlations_defined X_pca V_mat indices i ->
  (0 < nth k (cell_correlations X_pca V_mat indices i) 0 ->
   0 < nth (nth k (written_columns indices i) 0%nat) (nth i T []) 0 <= 1) /\
  (nth k (cell_correlations X_pca V_mat indices i) 0 < 0 ->
   -1 <= nth (nth k (written_columns indices i) 0%nat) (nth i T []) 0 < 0) /\
  (nth k (cell_correlations X_pca V_mat indices i) 0 = 0 ->
   nth (nth k (written_columns indices i) 0%nat) (nth i T []) 0 = 0).
Proof.
  intros Hrun Hi Hk Hnd _.
  rewrite (run_neighbor_entry _ _ _ _ _ _ _ _ _ _ _ _ _ Hrun i k Hi Hk Hnd).
  unfold cell_row. apply neg_cells_row_value.
  unfold cell_correlations. now rewrite length_map, length_seq.
Qed.

Lemma empirical_vec_trick_entry_sign_witness :
  exists (T : mat) (delta_X : list point),
    _empirical_vec unit no_grid X_pca3 X_embedding3 V_mat3 indices3 true (50, 50)%nat
                   (3, 3)%nat = Ok (T, delta_X, tt) /\
    -1 <= nth 2 (nth 0 T []) 0 < 0.
Proof.
  destruct (three_cells_run true) as (T & dX & Hrun).
  exists T, dX. split; [exact Hrun|].
  destruct (empirical_vec_trick_entry_sign unit no_grid _ _ _ _ _ _ _ _ _ _
              0%nat 1%nat Hrun) as (_ & Hneg & _).
  - simpl. lia.
  - unfold knn. simpl. lia.
  - unfold written_columns, knn, indices3. simpl.
    repeat constructor; simpl; intuition lia.
  - apply three_cells_correlations_defined. lia.
  - apply Hneg. destruct three_cells_correlations as (-> & _ & _). simpl. lra.
Defined.

(** *** Without the trick the weights follow the correlations *)

Lemma nth_plain_prob (i_vals : vec) (k : nat) :
  (k < length i_vals)%nat ->
  nth k (plain_prob i_vals) 0
  = exp (nth k i_vals 0 / pymax (map Rabs i_vals))
    / vsum (map (fun v => exp (v / pymax (map Rabs i_vals))) i_vals).
Proof.
  intros Hk. unfold plain_prob. rewrite map_map.
  set (g := fun v => exp (v / pymax (map Rabs i_vals)) / _).
  rewrite (nth_indep _ 0 (g 0)) by (now rewrite length_map).
  apply (map_nth g).
Qed.

Lemma plain_sigma_pos (i_vals : vec) :
  pymax (map Rabs i_vals) <> 0 -> 0 < pymax (map Rabs i_vals).
Proof.
  intros Hs. destruct i_vals as [|c i_vals]; [simpl in Hs; congruence|].
  pose proof (pymax_ge (map Rabs (c :: i_vals)) (Rabs c) (or_introl eq_refl)) as Hge.
  pose proof (Rabs_pos c). lra.
Qed.

Lemma plain_prob_increasing (i_vals : vec) (k1 k2 : nat) :
  (k1 < length i_vals)%nat -> (k2 < length i_vals)%nat ->
  pymax (map Rabs i_vals) <> 0 ->
  nth k1 i_vals 0 < nth k2 i_vals 0 ->
  nth k1 (plain_prob i_vals) 0 < nth k2 (plain_prob i_vals) 0.
Proof.
  intros H1 H2 Hs Hlt. rewrite !nth_plain_prob by assumption.
  pose proof (plain_sigma_pos i_vals Hs) as Hpos.
  assert (HD : 0 < vsum (map (fun v => exp (v / pymax (map Rabs i_vals))) i_vals)).
  { apply (vsum_exp_pos (fun v => v / pymax (map Rabs i_vals))).
    intros E. rewrite E in H1. simpl in H1. lia. }
  unfold Rdiv at 1 3. apply Rmult_lt_compat_r; [apply Rinv_0_lt_compat; exact HD|].
  apply exp_increasing. unfold Rdiv. apply Rmult_lt_compat_r; [|exact Hlt].
  apply Rinv_0_lt_compat. exact Hpos.
Qed.

(** X11: with [neg_cells_trick=False], for a cell with distinct neighbours
    whose correlations are numbers (one of them not zero), a neighbour with
    a larger correlation gets a larger entry of the transition matrix. *)
Theorem empirical_vec_plain_entries_increase_with_correlation (Grid : Type)
    (velocity_on_grid : list point -> list point -> nat * nat -> Grid)
    (X_pca : mat) (X_embedding : list point) (V_mat : mat)
    (indices : list (list nat)) (xy : nat * nat) (nr nc : nat)
    (T : mat) (delta_X : list point) (grid : Grid) (i k1 k2 : nat) :
  _empirical_vec Grid velocity_on_grid X_pca X_embedding V_mat indices false xy (nr, nc)
    = Ok (T, delta_X, grid) ->
  (i < length X_pca)%nat -> (k1 < knn indices)%nat -> (k2 < knn indices)%nat ->
  List.NoDup (written_columns indices i) ->
  cell_correlations_defined X_pca V_mat indices i ->
  pymax (map Rabs (cell_correlations X_pca V_mat indices i)) <> 0 ->
  nth k1 (cell_correlations X_pca V_mat indices i) 0
    < nth k2 (cell_correlations X_pca V_mat indices i) 0 ->
  nth (nth k1 (written_columns indices i) 0%nat) (nth i T []) 0
    < nth (nth k2 (written_columns indices i) 0%nat) (nth i T []) 0.
Proof.
  intros Hrun Hi Hk1 Hk2 Hnd _ Hs Hlt.
  rewrite !(run_neighbor_entry _ _ _ _ _ _ _ _ _ _ _ _ _ Hrun i) by assumption.
  unfold cell_row, plain_row. cbn [fst].
  assert (Hl : length (cell_correlations X_pca V_mat indices i) = knn indices)
    by (unfold cell_correlations; now rewrite length_map, length_seq).
  apply plain_prob_increasing; try assumption; lia.
Qed.

Lemma empirical_vec_plain_entries_increase_with_correlation_witness :
  exists (T : mat) (delta_X : list point),
    _empirical_vec unit no_grid X_pca3 X_embedding3 V_mat3 indices3 false (50, 50)%nat
                   (3, 3)%nat = Ok (T, delta_X, tt) /\
    nth 2 (nth 0 T []) 0 < nth 1 (nth 0 T []) 0.
Proof.
  destruct (three_cells_run false) as (T & dX & Hrun).
  exists T, dX. split; [exact Hrun|].
  apply (empirical_vec_plain_entries_increase_with_correlation unit no_grid
           _ _ _ _ _ _ _ _ _ _ 0%nat 1%nat 0%nat Hrun).
  - simpl. lia.
  - unfold knn. simpl. lia.
  - unfold knn. simpl. lia.
  - unfold written_columns, knn, indices3. simpl.
    repeat constructor; simpl; intuition lia.
  - apply three_cells_correlations_defined. lia.
  - exact three_cells_plain_sigma.
  - destruct three_cells_correlations as (-> & _ & _). simpl. lra.
Defined.

(** *** Equal correlations give no drift *)

Lemma vsum_repeat (x : R) (n : nat) : vsum (repeat x n) = INR n * x.
Proof.
  induction n as [|n IH]; [simpl; lra|].
  change (repeat x (S n)) with (x :: repeat x n). rewrite vsum_cons, IH, S_INR. lra.
Qed.

Lemma Forall_eq_repeat (c : R) (v : vec) :
  Forall (fun x => x = c) v -> v = repeat c (length v).
Proof. induction 1 as [|x v Hx _ IH]; [reflexivity|]. simpl. now rewrite Hx, <- IH. Qed.

Lemma plain_prob_uniform (c : R) (i_vals : vec) :
  Forall (fun x => x = c) i_vals ->
  Forall (fun p => p = 1 / INR (length i_vals)) (plain_prob i_vals).
Proof.
  intros Hc. unfold plain_prob.
  set (sigma := pymax (map Rabs i_vals)). clearbody sigma. cbv zeta.
  assert (Hmap : map (fun v => exp (v / sigma)) i_vals
                 = repeat (exp (c / sigma)) (length i_vals)).
  { rewrite (Forall_eq_repeat c i_vals Hc) at 1.
    generalize (length i_vals). intros m.
    induction m as [|m IH]; simpl; [reflexivity | now rewrite IH]. }
  rewrite Hmap. set (n := length i_vals).
  rewrite vsum_repeat.
  apply List.Forall_forall. intros p Hp. apply in_map_iff in Hp.
  destruct Hp as (e & <- & Hp).
  apply repeat_spec in Hp. subst e.
  destruct n as [|n]; [unfold Rdiv; simpl; rewrite Rmult_0_l, Rinv_0; lra|].
  pose proof (exp_pos (c / sigma)).
  assert (INR (S n) <> 0) by (apply not_0_INR; lia).
  field. split; lra.
Qed.

Lemma weighted_drift_zero {A : Type} (l : list A) (numerator : list point)
    (denominator : vec) :
  weighted_drift (map (fun _ => 0) l) numerator denominator = (0, 0).
Proof. unfold weighted_drift. now rewrite !dot_map_zero. Qed.

(** X12: with [neg_cells_trick=False], a cell whose neighbours all have
    the same non-zero correlation, none of them sitting on the cell in the
    embedding, gets the zero vector as its row of [delta_X]: equal weights
    are exactly cancelled by the [1/knn] that the code subtracts. *)
Theorem empirical_vec_plain_equal_correlations_no_drift (Grid : Type)
    (velocity_on_grid : list point -> list point -> nat * nat -> Grid)
    (X_pca : mat) (X_embedding : list point) (V_mat : mat)
    (indices : list (list nat)) (xy : nat * nat) (nr nc : nat)
    (T : mat) (delta_X : list point) (grid : Grid) (i : nat) (c : R) :
  _empirical_vec Grid velocity_on_grid X_pca X_embedding V_mat indices false xy (nr, nc)
    = Ok (T, delta_X, grid) ->
  (i < length X_pca)%nat ->
  cell_correlations_defined X_pca V_mat indices i ->
  cell_directions_defined X_embedding indices i ->
  c <> 0 ->
  Forall (fun x => x = c) (cell_correlations X_pca V_mat indices i) ->
  nth i delta_X (0, 0) = (0, 0).
Proof.
  intros Hrun Hi _ _ _ Hc.
  destruct (empirical_vec_rows _ _ _ _ _ _ _ _ _ _ _ _ _ _ Hrun Hi) as (-> & _ & _).
  unfold cell_row, plain_row. cbn [snd].
  pose proof (plain_prob_uniform c _ Hc) as Hu. rewrite List.Forall_forall in Hu.
  erewrite map_ext_in; [apply weighted_drift_zero|].
  intros p Hp. simpl. rewrite (Hu p Hp). lra.
Qed.

Lemma empirical_vec_plain_equal_correlations_no_drift_witness :
  exists (T : mat) (delta_X : list point),
    _empirical_vec unit no_grid X_pca3 X_embedding3 V_mat3 indices3 false (50, 50)%nat
                   (3, 3)%nat = Ok (T, delta_X, tt) /\
    nth 2 delta_X (0, 0) = (0, 0).
Proof.
  destruct (three_cells_run false) as (T & dX & Hrun).
  exists T, dX. split; [exact Hrun|].
  apply (empirical_vec_plain_equal_correlations_no_drift unit no_grid
           _ _ _ _ _ _ _ _ _ _ 2%nat 1 Hrun).
  - simpl. lia.
  - apply three_cells_correlations_defined. lia.
  - unfold cell_directions_defined, neighbors_of, emb, indices3, X_embedding3, norm2, psub.
    simpl. repeat constructor; cbn [fst snd]; apply Rgt_not_eq, Rlt_gt, sqrt_lt_R0; lra.
  - lra.
  - destruct three_cells_correlations as (_ & _ & ->). repeat constructor.
Defined.

End KernelFacts.

(** ** The random control *)

Module RandomControlFacts.

Import Np NpFacts RandomControl.
Local Open Scope R_scope.

Lemma Permutation_insert_head (l : vec) (j : nat) (x : R) :
  (j < length l)%nat -> Permutation (nth j l 0 :: <[j := x]> l) (x :: l).
Proof.
  revert j. induction l as [|y l IH]; intros j Hj; [simpl in Hj; lia|].
  destruct j as [|j]; simpl.
  - apply perm_swap.
  - eapply perm_trans; [apply perm_swap|].
    eapply perm_trans; [apply perm_skip, IH; simpl in Hj; lia|].
    apply perm_swap.
Qed.

Lemma length_swap (x : vec) (i j : nat) : length (swap x i j) = length x.
Proof. unfold swap. now rewrite !length_insert. Qed.

Lemma Permutation_swap (x : vec) (i j : nat) :
  (i < length x)%nat -> (j < length x)%nat -> Permutation (swap x i j) x.
Proof.
  revert i j. induction x as [|y x IH]; intros i j Hi Hj; [simpl in Hi; lia|].
  unfold swap. destruct i as [|i], j as [|j]; simpl.
  - reflexivity.
  - apply Permutation_insert_head. simpl in Hj. lia.
  - apply Permutation_insert_head. simpl in Hi. lia.
  - apply perm_skip. apply IH; simpl in *; lia.
Qed.

Section WithGenerator.

Context {rng : Type} `{NumbaRandom rng}.

Lemma shuffle_from_spec (i : nat) (x : vec) (st : rng) :
  (i < length x)%nat ->
  Permutation (fst (shuffle_from i x st)) x /\
  length (fst (shuffle_from i x st)) = length x.
Proof.
  revert x st. induction i as [|i IH]; intros x st Hi; [simpl; auto|].
  simpl. pose proof (randint_lt st (S (i + 1))) as Hlt.
  destruct (randint st (S (i + 1))) as [j st'] eqn:E. simpl in Hlt.
  destruct (IH (swap x (S i) j) st') as [Hp Hl]; [rewrite length_swap; lia|].
  rewrite length_swap in Hl. split; [|exact Hl].
  eapply perm_trans; [exact Hp|].
  apply Permutation_swap; lia.
Qed.

Lemma shuffle_spec (x : vec) (st : rng) :
  Permutation (fst (shuffle x st)) x /\ length (fst (shuffle x st)) = length x.
Proof.
  unfold shuffle. destruct x as [|y x]; [simpl; auto|].
  apply shuffle_from_spec. simpl. lia.
Qed.

Lemma choice_signs (size : nat) (st : rng) :
  length (fst (choice [1; -1] size st)) = size /\
  Forall (fun s => s = 1 \/ s = -1) (fst (choice [1; -1] size st)).
Proof.
  revert st. induction size as [|size IH]; intros st; [simpl; auto|].
  simpl. pose proof (randint_lt st 2) as Hlt.
  destruct (randint st 2) as [k st'] eqn:E. simpl in Hlt.
  specialize (IH st'). destruct (choice [1; -1] size st') as [rest st''].
  simpl in *. destruct IH as [Hl Hf]. split; [lia|].
  constructor; [|exact Hf].
  destruct k as [|[|k]]; simpl; [auto | auto | lia].
Qed.

Lemma map_Rabs_signed (p signs : vec) :
  length signs = length p ->
  Forall (fun s => s = 1 \/ s = -1) signs ->
  map Rabs (zip_with Rmult p signs) = map Rabs p.
Proof.
  revert signs. induction p as [|x p IH]; intros signs Hlen Hs.
  - reflexivity.
  - destruct signs as [|s signs]; [discriminate|]. simpl.
    inversion Hs as [|? ? Hs1 Hs2]; subst. f_equal.
    + destruct Hs1; subst s.
      * now rewrite Rmult_1_r.
      * replace (x * -1) with (- x) by lra. apply Rabs_Ropp.
    + apply IH; [simpl in Hlen; lia | exact Hs2].
Qed.

Lemma permute_row_nsign_spec (row : vec) (st : rng) :
  signed_permutation_of row (fst (permute_row_nsign row st)).
Proof.
  unfold permute_row_nsign.
  destruct (shuffle_spec row st) as [Hp Hl].
  destruct (shuffle row st) as [p st1]. simpl in Hp, Hl.
  destruct (choice_signs (length p) st1) as [Hcl Hcs].
  destruct (choice [1; -1] (length p) st1) as [signs st2]. simpl in *.
  exists p, signs. auto.
Qed.

Lemma signed_permutation_abs (row row' : vec) :
  signed_permutation_of row row' ->
  Permutation (map Rabs row') (map Rabs row) /\ length row' = length row.
Proof.
  intros (p & signs & Hp & Hl & Hs & ->). split.
  - rewrite map_Rabs_signed by assumption. apply Permutation_map. exact Hp.
  - rewrite length_zip_with, Hl, (Permutation_length Hp). lia.
Qed.

(** C8: after [permute_rows_nsign], started in any generator state, every
    row is a permutation of the original row with every entry multiplied by
    +1 or -1, so it has the same length and the same multiset of absolute
    values; and two runs that follow [numba_random_seed] with the same seed
    give the same matrix and leave the generator in the same state,
    whatever the generator did before. *)
Theorem permute_rows_nsign_keeps_absolute_values (A : mat) (seed : Z) (st st1 st2 : rng) :
  Forall2 (fun row row' =>
             signed_permutation_of row row' /\
             Permutation (map Rabs row') (map Rabs row) /\
             length row' = length row)
          A (fst (permute_rows_nsign A st)) /\
  permute_rows_nsign A (numba_random_seed seed st1)
  = permute_rows_nsign A (numba_random_seed seed st2).
Proof.
  split; [|reflexivity].
  revert st. induction A as [|row A IH]; intros st; [constructor|].
  simpl. pose proof (permute_row_nsign_spec row st) as Hrow.
  destruct (permute_row_nsign row st) as [row' st'].
  specialize (IH st'). destruct (permute_rows_nsign A st') as [A' st''].
  simpl in *. constructor; [|exact IH].
  split; [exact Hrow | apply signed_permutation_abs; exact Hrow].
Qed.

End WithGenerator.

Lemma permute_rows_nsign_keeps_absolute_values_witness :
  Permutation (map Rabs (nth 0 (fst (permute_rows_nsign [[1; -2; 3]; [4; 5; 6]] 7%nat)) []))
              (map Rabs [1; -2; 3]) /\
  permute_rows_nsign [[1; -2; 3]; [4; 5; 6]] (numba_random_seed 19491001%Z 0%nat)
  = permute_rows_nsign [[1; -2; 3]; [4; 5; 6]] (numba_random_seed 19491001%Z 5%nat).
Proof.
  destruct (permute_rows_nsign_keeps_absolute_values (rng := nat)
              [[1; -2; 3]; [4; 5; 6]] 19491001%Z 7%nat 0%nat 5%nat) as [Hrows Hsame].
  split; [|exact Hsame].
  remember (fst (permute_rows_nsign [[1; -2; 3]; [4; 5; 6]] 7%nat)) as A' eqn:E.
  clear E. inversion Hrows as [|r r' l l' (_ & Hp & _) _]; subst. exact Hp.
Defined.

End RandomControlFacts.
(** ** The random control: what the draws do not look at *)

Module RandomDrawFacts.

Import Np NpFacts RandomControl RandomControlFacts.
Local Open Scope R_scope.

Lemma vsum_Permutation (l l' : vec) : Permutation l l' -> vsum l = vsum l'.
Proof.
  induction 1 as [| x l l' _ IH | x y l | l l' l'' _ IH1 _ IH2]; simpl.
  - reflexivity.
  - rewrite IH. reflexivity.
  - lra.
  - now rewrite IH1.
Qed.

Lemma squares_of_abs (l : vec) :
  map (fun x => x * x) (map Rabs l) = map (fun x => x * x) l.
Proof.
  rewrite map_map. apply map_ext. intros x.
  unfold Rabs. destruct (Rcase_abs x); lra.
Qed.

Lemma signed_permutation_squares (row row' : vec) :
  signed_permutation_of row row' ->
  vsum (map (fun x => x * x) row') = vsum (map (fun x => x * x) row).
Proof.
  intros Hs. apply signed_permutation_abs in Hs. destruct Hs as [Hp _].
  rewrite <- (squares_of_abs row'), <- (squares_of_abs row).
  apply vsum_Permutation. apply Permutation_map. exact Hp.
Qed.

Lemma map_insert (f : R -> R) (x : vec) (j : nat) (v : R) :
  map f (<[j := v]> x) = <[j := f v]> (map f x).
Proof.
  revert j. induction x as [|y x IH]; intros j; [reflexivity|].
  destruct j as [|j]; simpl; [reflexivity|]. now rewrite IH.
Qed.

Lemma nth_map_zero (f : R -> R) (x : vec) (i : nat) :
  f 0 = 0 -> nth i (map f x) 0 = f (nth i x 0).
Proof.
  intros Hf. transitivity (nth i (map f x) (f 0)); [now rewrite Hf | apply map_nth].
Qed.

Lemma swap_map (f : R -> R) (x : vec) (i j : nat) :
  f 0 = 0 -> swap (map f x) i j = map f (swap x i j).
Proof.
  intros Hf. unfold swap. now rewrite !map_insert, !nth_map_zero.
Qed.

Lemma zip_with_signs_map (f : R -> R) (p signs : vec) :
  (forall x, f (- x) = - f x) ->
  Forall (fun s => s = 1 \/ s = -1) signs ->
  zip_with Rmult (map f p) signs = map f (zip_with Rmult p signs).
Proof.
  intros Hodd. revert signs. induction p as [|x p IH]; intros signs Hs; [reflexivity|].
  destruct signs as [|s signs]; [reflexivity|].
  inversion Hs as [|? ? Hs1 Hs2]; subst. simpl. rewrite (IH signs Hs2). f_equal.
  destruct Hs1 as [-> | ->].
  - now rewrite !Rmult_1_r.
  - replace (x * -1) with (- x) by lra. rewrite Hodd. lra.
Qed.

Section WithGenerator.

Context {rng : Type} `{NumbaRandom rng}.

Lemma permute_rows_nsign_rows (A : mat) (st : rng) :
  Forall2 signed_permutation_of A (fst (permute_rows_nsign A st)).
Proof.
  revert st. induction A as [|row A IH]; intros st; [constructor|].
  simpl. pose proof (permute_row_nsign_spec row st) as Hrow.
  destruct (permute_row_nsign row st) as [row' st'].
  specialize (IH st'). destruct (permute_rows_nsign A st') as [A' st''].
  simpl in *. constructor; [exact Hrow | exact IH].
Qed.

Lemma shuffle_from_map (f : R -> R) (i : nat) (x : vec) (st : rng) :
  f 0 = 0 ->
  shuffle_from i (map f x) st
  = (map f (fst (shuffle_from i x st)), snd (shuffle_from i x st)).
Proof.
  intros Hf. revert x st. induction i as [|i IH]; intros x st; [reflexivity|].
  simpl. destruct (randint st (S (i + 1))) as [j st'].
  rewrite swap_map by exact Hf. apply IH.
Qed.

Lemma shuffle_map (f : R -> R) (x : vec) (st : rng) :
  f 0 = 0 ->
  shuffle (map f x) st = (map f (fst (shuffle x st)), snd (shuffle x st)).
Proof. intros Hf. unfold shuffle. rewrite length_map. now apply shuffle_from_map. Qed.

Lemma odd_at_zero (f : R -> R) : (forall x, f (- x) = - f x) -> f 0 = 0.
Proof. intros Hodd. pose proof (Hodd 0) as H0. rewrite Ropp_0 in H0. lra. Qed.

Lemma permute_row_nsign_map (f : R -> R) (row : vec) (st : rng) :
  (forall x, f (- x) = - f x) ->
  permute_row_nsign (map f row) st
  = (map f (fst (permute_row_nsign row st)), snd (permute_row_nsign row st)).
Proof.
  intros Hodd. unfold permute_row_nsign.
  rewrite shuffle_map by (apply odd_at_zero; exact Hodd).
  destruct (shuffle row st) as [p st1]. cbn [fst snd]. rewrite length_map.
  pose proof (choice_signs (length p) st1) as [_ Hs].
  destruct (choice [1; -1] (length p) st1) as [signs st2]. cbn [fst snd] in *.
  now rewrite zip_with_signs_map.
Qed.

Lemma permute_rows_nsign_has_shape (n m : nat) (A : mat) (st : rng) :
  has_shape n m A -> has_shape n m (fst (permute_rows_nsign A st)).
Proof.
  intros [Hn Hm]. pose proof (permute_rows_nsign_rows A st) as Hrows.
  split.
  - rewrite <- Hn. symmetry. eapply Forall2_length. exact Hrows.
  - clear Hn. induction Hrows as [|row row' A0 A' Hrow _ IH]; [constructor|].
    inversion Hm as [|? ? Hr Hrest]; subst. constructor; [|apply IH; exact Hrest].
    apply signed_permutation_abs in Hrow. destruct Hrow as [_ Hl]. now rewrite Hl.
Qed.

(** X13: [permute_rows_nsign] keeps the Euclidean norm of every row: the
    sum of the squares of a row after the call is the one before, whatever
    the generator draws. *)
Theorem permute_rows_nsign_keeps_row_norms (A : mat) (st : rng) :
  Forall2 (fun row row' =>
             vsum (map (fun x => x * x) row') = vsum (map (fun x => x * x) row))
          A (fst (permute_rows_nsign A st)).
Proof.
  eapply Forall2_impl; [apply permute_rows_nsign_rows|].
  intros row row' Hs. apply signed_permutation_squares. exact Hs.
Qed.

(** X14: the draws of [permute_rows_nsign] do not look at the entries: for
    a map [f] on numbers with [f(-x) = -f(x)] (a scaling, say), permuting
    the matrix with [f] applied to every entry gives, from the same
    generator state, the permuted matrix with [f] applied to every entry,
    and leaves the generator in the same state. *)
Theorem permute_rows_nsign_commutes_with_odd_maps (f : R -> R) (A : mat) (st : rng) :
  (forall x, f (- x) = - f x) ->
  permute_rows_nsign (map (map f) A) st
  = (map (map f) (fst (permute_rows_nsign A st)), snd (permute_rows_nsign A st)).
Proof.
  intros Hodd. revert st. induction A as [|row A IH]; intros st; [reflexivity|].
  simpl. rewrite permute_row_nsign_map by exact Hodd.
  destruct (permute_row_nsign row st) as [row' st']. cbn [fst snd].
  rewrite IH. destruct (permute_rows_nsign A st') as [A' st'']. reflexivity.
Qed.

End WithGenerator.

Lemma permute_rows_nsign_commutes_with_odd_maps_witness :
  permute_rows_nsign (map (map (fun x => 2 * x)) [[1; -2; 3]; [4; 5; 6]]) 7%nat
  = (map (map (fun x => 2 * x)) (fst (permute_rows_nsign [[1; -2; 3]; [4; 5; 6]] 7%nat)),
     snd (permute_rows_nsign [[1; -2; 3]; [4; 5; 6]] 7%nat)).
Proof.
  apply (permute_rows_nsign_commutes_with_odd_maps (rng := nat) (fun x => 2 * x)).
  intros x. lra.
Defined.

End RandomDrawFacts.

(** ** The orchestrator *)

Module OrchestratorFacts.

Import Np Empirical EmpiricalExamples RandomControl Orchestrator OrchestratorExamples.
Local Open Scope R_scope.

Section Dispatch.

Context {rng : Type} `{NumbaRandom rng}.
Variable Object : Type.
Variable Grid : Type.
Variable resolve_keys :
  option string -> option string -> AnnData Object Grid ->
  result (string * string * string) * AnnData Object Grid.
Variable gather_inputs :
  string * string * string -> bool -> bool -> R -> string ->
  AnnData Object Grid -> result prepared * AnnData Object Grid.
Variable pca_project :
  option nat -> mat -> mat -> AnnData Object Grid ->
  result (mat * mat) * AnnData Object Grid.
Variable kmc_project :
  arguments Object -> mat -> mat -> option (list (list nat)) -> list point ->
  result (value Object Grid * list point * Grid * Object).
Variable umap_trans_transform : mat -> result (list point).
Variable velocity_on_grid : list point -> list point -> nat * nat -> Grid.

Local Abbreviation World := (world (rng := rng) Object Grid).
Local Abbreviation Comp := (comp (rng := rng) Object Grid).

(** C9, amended: with a [method] that is none of the three names, the call
    checks nothing at entry.  It runs the preparation (lines 72-105); if
    that raises, the call raises the same error; otherwise it raises
    [UnboundLocalError] for [T] at the first store.  In both cases the
    world is the one the preparation left: no result key has been
    written. *)
Theorem cell_velocities_unknown_method (a : arguments Object)
    (w : World) :
  method a <> "analytical"%string ->
  method a <> "empirical"%string ->
  method a <> "transform"%string ->
  cell_velocities Object Grid resolve_keys gather_inputs pca_project kmc_project
                  umap_trans_transform velocity_on_grid a w
  = match preparation Object Grid resolve_keys gather_inputs a w with
    | (Ok _, w') => (Raise (UnboundLocalError "T"), w')
    | (Raise e, w') => (Raise e, w')
    end.
Proof.
  intros Ha He Ht. unfold cell_velocities.
  apply String.eqb_neq in Ha, He, Ht. rewrite Ha, He, Ht.
  unfold bind at 1.
  destruct (preparation Object Grid resolve_keys gather_inputs a w) as [[p | e] w'];
    reflexivity.
Qed.

Lemma bind_returns {A B : Type} (m : Comp A) (k : A -> Comp B)
    (w w' : World) (b : B) :
  bind Object Grid m k w = (Ok b, w') ->
  exists (x : A) (w1 : World), m w = (Ok x, w1) /\ k x w1 = (Ok b, w').
Proof.
  unfold bind. destruct (m w) as [[x | e] w1]; intros Hk; [|discriminate Hk].
  exists x, w1. auto.
Qed.

Lemma set_uns_other_key (key key' : string) (v : value Object Grid)
    (w w' : World) (u : unit) :
  key <> key' ->
  set_uns Object Grid key v w = (Ok u, w') ->
  uns (adata w') !! key' = uns (adata w) !! key'.
Proof.
  intros Hne Hs. unfold set_uns in Hs. injection Hs as _ <-. simpl.
  apply lookup_insert_ne. exact Hne.
Qed.

Lemma set_obsm_keeps_uns (key : string) (v : value Object Grid)
    (w w' : World) (u : unit) :
  set_obsm Object Grid key v w = (Ok u, w') -> uns (adata w') = uns (adata w).
Proof. unfold set_obsm. intros Hs. injection Hs as _ <-. reflexivity. Qed.

Lemma bound_returns {A : Type} (name : string) (l : option A)
    (w w' : World) (x : A) :
  bound Object Grid name l w = (Ok x, w') -> l = Some x /\ w' = w.
Proof.
  destruct l as [y|]; simpl; unfold ret, raise; intros E; [|discriminate E].
  injection E as -> ->. auto.
Qed.

(** The stores of lines 176-183 leave under ['transition_matrix'] the
    local [T]. *)
Lemma store_results_transition_matrix (a : arguments Object) (l : locals Object Grid)
    (w w' : World) :
  store_results Object Grid a l w = (Ok tt, w') ->
  exists t, T l = Some t /\ uns (adata w') !! "transition_matrix"%string = Some t.
Proof.
  unfold store_results. intros Hs.
  apply bind_returns in Hs. destruct Hs as (t & w1 & Ht & Hs).
  apply bound_returns in Ht. destruct Ht as [Ht ->].
  exists t. split; [exact Ht|].
  apply bind_returns in Hs. destruct Hs as ([] & w2 & Hset & Hs).
  assert (H2 : uns (adata w2) !! "transition_matrix"%string = Some t).
  { unfold set_uns in Hset. injection Hset as <-. simpl. apply lookup_insert_eq. }
  apply bind_returns in Hs. destruct Hs as (dX & w3 & Hd & Hs).
  apply bound_returns in Hd. destruct Hd as [_ ->].
  apply bind_returns in Hs. destruct Hs as ([] & w4 & Hset4 & Hs).
  apply set_obsm_keeps_uns in Hset4.
  apply bind_returns in Hs. destruct Hs as (g & w5 & Hg & Hs).
  apply bound_returns in Hg. destruct Hg as [_ ->].
  apply bind_returns in Hs. destruct Hs as ([] & w6 & Hset6 & Hs).
  apply set_uns_other_key with (key' := "transition_matrix"%string) in Hset6;
    [|discriminate].
  assert (H6 : uns (adata w6) !! "transition_matrix"%string = Some t)
    by (rewrite Hset6, Hset4; exact H2).
  destruct (calc_rnd_vel a).
  - apply bind_returns in Hs. destruct Hs as ([[Tr dXr] gr] & w7 & Hr & Hs).
    apply bound_returns in Hr. destruct Hr as [_ ->].
    apply bind_returns in Hs. destruct Hs as ([] & w8 & Hset8 & Hs).
    apply set_uns_other_key with (key' := "transition_matrix"%string) in Hset8;
      [|discriminate].
    apply bind_returns in Hs. destruct Hs as ([] & w9 & Hset9 & Hs).
    apply set_obsm_keeps_uns in Hset9.
    apply set_uns_other_key with (key' := "transition_matrix"%string) in Hs;
      [|discriminate].
    rewrite Hs, Hset9, Hset8. exact H6.
  - unfold ret in Hs. injection Hs as <-. exact H6.
Qed.

(** With [method='empirical'], a call that returns has stored under
    ['transition_matrix'] the matrix that [_empirical_vec] returned for the
    prepared inputs. *)
Lemma cell_velocities_empirical_stores_kernel_matrix (a : arguments Object)
    (w w' : World) :
  method a = "empirical"%string ->
  cell_velocities Object Grid resolve_keys gather_inputs pca_project kmc_project
                  umap_trans_transform velocity_on_grid a w = (Ok tt, w') ->
  exists (p : prepared) (w1 : World) (inds : list (list nat))
         (shape : nat * nat) (T : mat) (dX : list point) (g : Grid),
    preparation Object Grid resolve_keys gather_inputs a w = (Ok p, w1) /\
    graph p = Some (inds, shape) /\
    _empirical_vec Grid velocity_on_grid (X p) (X_embedding p) (V_mat p) inds
                   (neg_cells_trick a) (xy_grid_nums a) shape = Ok (T, dX, g) /\
    uns (adata w') !! "transition_matrix"%string = Some (VMatrix Object Grid T).
Proof.
  intros Hm Hrun. unfold cell_velocities in Hrun. rewrite Hm in Hrun.
  simpl String.eqb in Hrun. cbv iota in Hrun.
  apply bind_returns in Hrun. destruct Hrun as (p & w1 & Hprep & Hrun).
  apply bind_returns in Hrun. destruct Hrun as (l & w2 & Hbranch & Hstore).
  apply store_results_transition_matrix in Hstore.
  destruct Hstore as (t & Ht & Hlook).
  unfold empirical_branch in Hbranch.
  apply bind_returns in Hbranch. destruct Hbranch as ([[t0 dX] g] & w3 & Hcall & Hrest).
  unfold empirical_call in Hcall.
  apply bind_returns in Hcall. destruct Hcall as ([inds shape] & w4 & Hg & Hcall).
  apply bound_returns in Hg. destruct Hg as [Hg ->].
  apply bind_returns in Hcall. destruct Hcall as ([[T0 dX0] g0] & w5 & Hk & Hret).
  unfold of_result in Hk. injection Hk as Hk <-.
  unfold ret in Hret. injection Hret as <- <- <- <-.
  apply bind_returns in Hrest. destruct Hrest as (r & w6 & _ & Hret).
  unfold ret in Hret. injection Hret as <- _. simpl in Ht. injection Ht as <-.
  exists p, w1, inds, shape, T0, dX0, g0. auto.
Qed.

(** C1, amended: when a call with [method='empirical'] returns, the matrix
    [T] stored under ['transition_matrix'] is the one of [_empirical_vec],
    and for every cell [i] that has a neighbour and whose correlations are
    numbers: with [neg_cells_trick=False] (and a correlation that is not
    zero) the entries of row [i] sum to 1; with [neg_cells_trick=True] they
    sum to (1 if some correlation is positive, else 0) minus (1 if some
    correlation is negative, else 0). *)
Theorem cell_velocities_empirical_row_sums (a : arguments Object) (w w' : World) :
  method a = "empirical"%string ->
  cell_velocities Object Grid resolve_keys gather_inputs pca_project kmc_project
                  umap_trans_transform velocity_on_grid a w = (Ok tt, w') ->
  exists (p : prepared) (inds : list (list nat)) (shape : nat * nat) (T : mat),
    (exists w1, preparation Object Grid resolve_keys gather_inputs a w = (Ok p, w1)) /\
    graph p = Some (inds, shape) /\
    uns (adata w') !! "transition_matrix"%string = Some (VMatrix Object Grid T) /\
    forall i : nat,
      (i < length (X p))%nat ->
      (1 <= knn inds)%nat ->
      cell_correlations_defined (X p) (V_mat p) inds i ->
      (neg_cells_trick a = false ->
       pymax (map Rabs (cell_correlations (X p) (V_mat p) inds i)) <> 0 ->
       vsum (nth i T []) = 1) /\
      (neg_cells_trick a = true ->
       vsum (nth i T []) =
         group_count (cell_correlations (X p) (V_mat p) inds i) 1
         - group_count (cell_correlations (X p) (V_mat p) inds i) (-1)).
Proof.
  intros Hm Hrun.
  destruct (cell_velocities_empirical_stores_kernel_matrix a w w' Hm Hrun)
    as (p & w1 & inds & [nr nc] & T & dX & g & Hprep & Hg & Hk & Hlook).
  exists p, inds, (nr, nc), T.
  split; [exists w1; exact Hprep|]. split; [exact Hg|]. split; [exact Hlook|].
  intros i Hi Hknn Hdef.
  exact (EmpiricalFacts.empirical_vec_row_sums Grid velocity_on_grid _ _ _ _ _ _ _ _ _ _ _ i
           Hk Hi Hknn Hdef).
Qed.

End Dispatch.

Section DemoRuns.

Local Arguments _empirical_vec : simpl never.

(** The demo call with [method='empirical'] returns, and stores the matrix
    of [_empirical_vec] for the three-cell input. *)
Lemma demo_empirical_call (trick : bool) :
  exists (T : mat) (dX : list point) (w' : world (rng := nat) unit unit),
    _empirical_vec unit no_grid X_pca3 X_embedding3 V_mat3 indices3 trick (50, 50)%nat
                   (3, 3)%nat = Ok (T, dX, tt) /\
    cell_velocities unit unit demo_resolve_keys demo_gather_inputs demo_pca demo_kmc
                    demo_umap no_grid (demo_arguments "empirical" trick) empty_world
    = (Ok tt, w') /\
    uns (adata w') !! "transition_matrix"%string = Some (VMatrix unit unit T).
Proof.
  destruct (EmpiricalFacts.three_cells_run trick) as (T & dX & Hrun).
  exists T, dX. eexists. split; [exact Hrun|].
  unfold cell_velocities, preparation, empirical_branch, empirical_call, store_results,
    bind, on_adata, bound, of_result, ret, demo_arguments. simpl.
  rewrite Hrun. simpl. split; reflexivity.
Qed.

End DemoRuns.

(** C1, as stated, fails for [neg_cells_trick=True]: the demo call on the
    three-cell input returns; every cell has two neighbours; the
    correlations of cell 0 are [1, -1] and those of cell 1 are [-1, -1];
    and the rows 0 and 1 of the matrix stored under ['transition_matrix']
    sum to 0 and to -1, not to 1. *)
Lemma cell_velocities_neg_cells_trick_rows_not_stochastic :
  exists (T : mat) (w' : world (rng := nat) unit unit),
    cell_velocities unit unit demo_resolve_keys demo_gather_inputs demo_pca demo_kmc
                    demo_umap no_grid (demo_arguments "empirical" true) empty_world
    = (Ok tt, w') /\
    uns (adata w') !! "transition_matrix"%string = Some (VMatrix unit unit T) /\
    knn indices3 = 2%nat /\
    cell_correlations X_pca3 V_mat3 indices3 0 = [1; -1] /\
    cell_correlations X_pca3 V_mat3 indices3 1 = [-1; -1] /\
    vsum (nth 0 T []) = 0 /\
    vsum (nth 1 T []) = -1.
Proof.
  destruct (demo_empirical_call true) as (T & dX & w' & Hk & Hrun & Hlook).
  destruct EmpiricalFacts.three_cells_correlations as (Hc0 & Hc1 & _).
  destruct (EmpiricalFacts.three_cells_trick_row_sums T dX Hk) as [H0 H1].
  exists T, w'. repeat split; assumption.
Qed.

Lemma cell_velocities_empirical_row_sums_witness :
  exists (T : mat) (w' : world (rng := nat) unit unit),
    cell_velocities unit unit demo_resolve_keys demo_gather_inputs demo_pca demo_kmc
                    demo_umap no_grid (demo_arguments "empirical" false) empty_world
    = (Ok tt, w') /\
    uns (adata w') !! "transition_matrix"%string = Some (VMatrix unit unit T) /\
    vsum (nth 0 T []) = 1.
Proof.
  destruct (demo_empirical_call false) as (T0 & dX & w' & _ & Hrun & Hlook0).
  destruct (cell_velocities_empirical_row_sums unit unit demo_resolve_keys
              demo_gather_inputs demo_pca demo_kmc demo_umap no_grid
              (demo_arguments "empirical" false) empty_world w' eq_refl Hrun)
    as (p & inds & shape & T & (w1 & Hprep) & Hg & Hlook & Hrows).
  exists T, w'. split; [exact Hrun|]. split; [exact Hlook|].
  injection Hprep as <- _. injection Hg as <- _.
  destruct (Hrows 0%nat) as [Hplain _].
  - simpl. lia.
  - unfold knn. simpl. lia.
  - apply EmpiricalFacts.three_cells_correlations_defined. lia.
  - apply Hplain; [reflexivity|]. exact EmpiricalFacts.three_cells_plain_sigma.
Defined.

(** C9, as stated, fails: with the method name "louvain" and a preparation
    that succeeds, the call raises [UnboundLocalError] for [T], which is not
    an invalid-input error and does not name the method; with a container
    that lacks the embedding, it is the [KeyError] of the preparation that
    comes out, before [method] is ever looked at. *)
Lemma cell_velocities_unknown_method_not_rejected_at_entry :
  cell_velocities unit unit demo_resolve_keys demo_gather_inputs demo_pca demo_kmc
                  demo_umap no_grid (demo_arguments "louvain" false) empty_world
  = (Raise (UnboundLocalError "T"), empty_world) /\
  cell_velocities unit unit demo_resolve_keys missing_embedding demo_pca demo_kmc
                  demo_umap no_grid (demo_arguments "louvain" false) empty_world
  = (Raise (KeyError "X_umap"), empty_world) /\
  ~ (exists msg : string,
       cell_velocities unit unit demo_resolve_keys demo_gather_inputs demo_pca demo_kmc
                       demo_umap no_grid (demo_arguments "louvain" false) empty_world
       = (Raise (ValueError msg), empty_world)).
Proof.
  assert (H1 : cell_velocities unit unit demo_resolve_keys demo_gather_inputs demo_pca
                 demo_kmc demo_umap no_grid (demo_arguments "louvain" false) empty_world
               = (Raise (UnboundLocalError "T"), empty_world)) by reflexivity.
  split; [exact H1|]. split; [reflexivity|].
  intros [msg Hmsg]. rewrite H1 in Hmsg. discriminate Hmsg.
Qed.

Lemma cell_velocities_unknown_method_witness :
  cell_velocities unit unit demo_resolve_keys demo_gather_inputs demo_pca demo_kmc
                  demo_umap no_grid (demo_arguments "louvain" false) empty_world
  = (Raise (UnboundLocalError "T"), empty_world).
Proof.
  rewrite (cell_velocities_unknown_method unit unit demo_resolve_keys demo_gather_inputs
             demo_pca demo_kmc demo_umap no_grid (demo_arguments "louvain" false) empty_world).
  - reflexivity.
  - discriminate.
  - discriminate.
  - discriminate.
Defined.

End OrchestratorFacts.

(** ** The orchestrator: what a call touches, and what it depends on *)

Module OrchestratorFrameFacts.

Import Np Empirical EmpiricalExamples RandomControl Orchestrator OrchestratorExamples.
Import OrchestratorFrames OrchestratorFacts EmpiricalFacts RandomDrawFacts.
Local Open Scope R_scope.

Section Frames.

Context {rng : Type} `{NumbaRandom rng}.
Variable Object : Type.
Variable Grid : Type.
Variable resolve_keys :
  option string -> option string -> AnnData Object Grid ->
  result (string * string * string) * AnnData Object Grid.
Variable gather_inputs :
  string * string * string -> bool -> bool -> R -> string ->
  AnnData Object Grid -> result prepared * AnnData Object Grid.
Variable pca_project :
  option nat -> mat -> mat -> AnnData Object Grid ->
  result (mat * mat) * AnnData Object Grid.
Variable kmc_project :
  arguments Object -> mat -> mat -> option (list (list nat)) -> list point ->
  result (value Object Grid * list point * Grid * Object).
Variable umap_trans_transform : mat -> result (list point).
Variable velocity_on_grid : list point -> list point -> nat * nat -> Grid.

Local Abbreviation World := (world (rng := rng) Object Grid).
Local Abbreviation Comp := (comp (rng := rng) Object Grid).
Local Abbreviation same_generator :=
  (fun w w' : World => generator w' = generator w).
Local Abbreviation same_adata :=
  (fun w w' : World => adata w' = adata w).

(** *** Computations that preserve a relation between worlds *)

Section Preserves.

Variable P : World -> World -> Prop.
Hypothesis P_refl : forall w, P w w.
Hypothesis P_trans : forall w1 w2 w3, P w1 w2 -> P w2 w3 -> P w1 w3.

Lemma preserves_ret {A : Type} (x : A) : preserves (rng := rng) Object Grid P (ret Object Grid x).
Proof. intros w. apply P_refl. Qed.

Lemma preserves_raise {A : Type} (e : exception) :
  preserves (rng := rng) Object Grid P (raise Object Grid (A := A) e).
Proof. intros w. apply P_refl. Qed.

Lemma preserves_of_result {A : Type} (r : result A) :
  preserves (rng := rng) Object Grid P (of_result Object Grid r).
Proof. intros w. apply P_refl. Qed.

Lemma preserves_bound {A : Type} (name : string) (l : option A) :
  preserves (rng := rng) Object Grid P (bound Object Grid name l).
Proof. destruct l; intros w; apply P_refl. Qed.

Lemma preserves_bind {A B : Type} (m : Comp A) (k : A -> Comp B) :
  preserves (rng := rng) Object Grid P m -> (forall x, preserves (rng := rng) Object Grid P (k x)) ->
  preserves (rng := rng) Object Grid P (bind Object Grid m k).
Proof.
  intros Hm Hk w. unfold bind. specialize (Hm w).
  destruct (m w) as [[x | e] w1]; simpl in *; [|exact Hm].
  eapply P_trans; [exact Hm | apply Hk].
Qed.

End Preserves.

Ltac preserves_steps refl trans leaf :=
  repeat first
    [ apply (preserves_ret _ refl)
    | apply (preserves_raise _ refl)
    | apply (preserves_of_result _ refl)
    | apply (preserves_bound _ refl)
    | apply (preserves_bind _ trans); [|intros ?; cbv beta]
    | match goal with
      | |- preserves _ _ _ (match ?x with _ => _ end) => destruct x
      end
    | leaf ].

(** *** The generator *)

Lemma same_generator_refl (w : World) : same_generator w w.
Proof. reflexivity. Qed.

Lemma same_generator_trans (w1 w2 w3 : World) :
  same_generator w1 w2 -> same_generator w2 w3 -> same_generator w1 w3.
Proof. simpl. intros H1 H2. congruence. Qed.

Lemma on_adata_same_generator {A : Type}
    (f : AnnData Object Grid -> result A * AnnData Object Grid) :
  preserves (rng := rng) Object Grid same_generator (on_adata Object Grid f).
Proof. intros w. unfold on_adata. destruct (f (adata w)). reflexivity. Qed.

Lemma set_uns_same_generator (key : string) (v : value Object Grid) :
  preserves (rng := rng) Object Grid same_generator (set_uns Object Grid key v).
Proof. intros w. reflexivity. Qed.

Lemma set_obsm_same_generator (key : string) (v : value Object Grid) :
  preserves (rng := rng) Object Grid same_generator (set_obsm Object Grid key v).
Proof. intros w. reflexivity. Qed.

(** *** The container *)

Lemma same_adata_refl (w : World) : same_adata w w.
Proof. reflexivity. Qed.

Lemma same_adata_trans (w1 w2 w3 : World) :
  same_adata w1 w2 -> same_adata w2 w3 -> same_adata w1 w3.
Proof. simpl. intros H1 H2. congruence. Qed.

Lemma permute_in_place_same_adata (V : mat) :
  preserves (rng := rng) Object Grid same_adata (permute_in_place Object Grid V).
Proof.
  intros w. unfold permute_in_place.
  destruct (permute_rows_nsign V (generator w)). reflexivity.
Qed.

Lemma empirical_branch_same_adata (a : arguments Object) (p : prepared) :
  preserves (rng := rng) Object Grid same_adata (empirical_branch Object Grid velocity_on_grid a p).
Proof.
  unfold empirical_branch, empirical_call.
  preserves_steps same_adata_refl same_adata_trans
    ltac:(apply permute_in_place_same_adata).
Qed.

Lemma writes_only_refl (uk ok : list string) (w : World) :
  writes_only (rng := rng) Object Grid uk ok w w.
Proof. repeat split. Qed.

Lemma writes_only_trans (uk ok : list string) (w1 w2 w3 : World) :
  writes_only (rng := rng) Object Grid uk ok w1 w2 -> writes_only (rng := rng) Object Grid uk ok w2 w3 ->
  writes_only (rng := rng) Object Grid uk ok w1 w3.
Proof.
  intros (Ho1 & Hu1 & Hm1) (Ho2 & Hu2 & Hm2). split; [|split].
  - now rewrite Ho2.
  - intros k Hk. now rewrite Hu2, Hu1.
  - intros k Hk. now rewrite Hm2, Hm1.
Qed.

Lemma same_adata_writes_only (uk ok : list string) (w w' : World) :
  adata w' = adata w -> writes_only (rng := rng) Object Grid uk ok w w'.
Proof. intros E. unfold writes_only. rewrite E. repeat split. Qed.

Lemma set_uns_writes_only (uk ok : list string) (key : string) (v : value Object Grid) :
  In key uk -> preserves (rng := rng) Object Grid (writes_only (rng := rng) Object Grid uk ok) (set_uns Object Grid key v).
Proof.
  intros Hin w. split; [|split]; simpl; [reflexivity| |reflexivity].
  intros k Hk. apply lookup_insert_ne. intros E. subst k. contradiction.
Qed.

Lemma set_obsm_writes_only (uk ok : list string) (key : string) (v : value Object Grid) :
  In key ok -> preserves (rng := rng) Object Grid (writes_only (rng := rng) Object Grid uk ok) (set_obsm Object Grid key v).
Proof.
  intros Hin w. split; [|split]; simpl; [reflexivity|reflexivity|].
  intros k Hk. apply lookup_insert_ne. intros E. subst k. contradiction.
Qed.

Lemma store_results_writes_only (a : arguments Object) (l : locals Object Grid) :
  preserves (rng := rng) Object Grid (writes_only (rng := rng) Object Grid (uns_result_keys Object a) (obsm_result_keys Object a))
    (store_results Object Grid a l).
Proof.
  unfold store_results.
  assert (Hu : forall k, In k ["transition_matrix"; "grid_velocity_" ++ basis a]%string ->
                         In k (uns_result_keys Object a))
    by (intros k Hk; unfold uns_result_keys; apply in_or_app; now left).
  assert (Ho : In ("velocity_" ++ basis a)%string (obsm_result_keys Object a))
    by (unfold obsm_result_keys; apply in_or_app; left; now left).
  assert (Hur : calc_rnd_vel a = true ->
                forall k, In k ["transition_matrix_rnd";
                                "grid_velocity_" ++ basis a ++ "_rnd"]%string ->
                          In k (uns_result_keys Object a))
    by (intros E k Hk; unfold uns_result_keys; rewrite E; apply in_or_app; now right).
  assert (Hor : calc_rnd_vel a = true ->
                In ("velocity_" ++ basis a ++ "_rnd")%string (obsm_result_keys Object a))
    by (intros E; unfold obsm_result_keys; rewrite E; apply in_or_app; right; now left).
  destruct (calc_rnd_vel a) eqn:Hc;
    preserves_steps (writes_only_refl (uns_result_keys Object a) (obsm_result_keys Object a))
      (writes_only_trans (uns_result_keys Object a) (obsm_result_keys Object a))
      ltac:(first [ apply set_uns_writes_only;
                    first [ apply Hu; simpl; tauto
                          | apply Hur; [reflexivity | simpl; tauto] ]
                  | apply set_obsm_writes_only;
                    first [ exact Ho | apply Hor; reflexivity ] ]).
Qed.

(** *** What a branch that returns has assigned *)

Lemma empirical_call_returns (a : arguments Object) (p : prepared) (V : mat)
    (w w' : World) (t : value Object Grid) (dX : list point) (g : Grid) :
  empirical_call Object Grid velocity_on_grid a p V w = (Ok (t, dX, g), w') ->
  exists (inds : list (list nat)) (shape : nat * nat) (T : mat),
    graph p = Some (inds, shape) /\
    _empirical_vec Grid velocity_on_grid (X p) (X_embedding p) V inds
                   (neg_cells_trick a) (xy_grid_nums a) shape = Ok (T, dX, g) /\
    t = VMatrix Object Grid T /\ w' = w.
Proof.
  unfold empirical_call. intros Hcall.
  apply bind_returns in Hcall. destruct Hcall as ([inds shape] & w1 & Hg & Hcall).
  apply bound_returns in Hg. destruct Hg as [Hg ->].
  apply bind_returns in Hcall. destruct Hcall as ([[T0 dX0] g0] & w2 & Hk & Hret).
  unfold of_result in Hk. injection Hk as Hk <-.
  unfold ret in Hret. injection Hret as <- <- <- <-.
  exists inds, shape, T0. auto.
Qed.

Lemma empirical_branch_locals (a : arguments Object) (p : prepared) (w w' : World)
    (l : locals Object Grid) :
  empirical_branch Object Grid velocity_on_grid a p w = (Ok l, w') ->
  T l <> None /\ delta_X l <> None /\ X_grid l <> None /\
  (calc_rnd_vel a = true -> rnd l <> None).
Proof.
  unfold empirical_branch. intros Hb.
  apply bind_returns in Hb. destruct Hb as ([[t dX] g] & w1 & _ & Hb).
  apply bind_returns in Hb. destruct Hb as (r & w2 & Hr & Hret).
  unfold ret in Hret. injection Hret as <- _. simpl.
  repeat (split; [discriminate|]). intros Hc. rewrite Hc in Hr.
  apply bind_returns in Hr. destruct Hr as (V & w3 & _ & Hr).
  apply bind_returns in Hr. destruct Hr as (rr & w4 & _ & Hret).
  unfold ret in Hret. injection Hret as <- _. discriminate.
Qed.

Lemma store_results_returns (a : arguments Object) (l : locals Object Grid) (w : World) :
  T l <> None -> delta_X l <> None -> X_grid l <> None ->
  (calc_rnd_vel a = true -> rnd l <> None) ->
  exists w', store_results Object Grid a l w = (Ok tt, w').
Proof.
  destruct l as [[t|] [d|] [g|] r]; simpl; intros HT Hd Hg Hr; try congruence.
  unfold store_results, bind, bound, ret, set_uns, set_obsm. simpl.
  destruct (calc_rnd_vel a).
  - destruct r as [[[Tr dr] gr]|]; [|exfalso; now apply Hr]. simpl.
    eexists. reflexivity.
  - eexists. reflexivity.
Qed.

Lemma store_results_rnd_keys (a : arguments Object) (l : locals Object Grid)
    (w w' : World) :
  calc_rnd_vel a = true ->
  store_results Object Grid a l w = (Ok tt, w') ->
  exists (Tr : value Object Grid) (dXr : list point) (gr : Grid),
    rnd l = Some (Tr, dXr, gr) /\
    uns (adata w') !! "transition_matrix_rnd"%string = Some Tr /\
    obsm (adata w') !! ("velocity_" ++ basis a ++ "_rnd")%string
      = Some (VPoints Object Grid dXr) /\
    uns (adata w') !! ("grid_velocity_" ++ basis a ++ "_rnd")%string
      = Some (VGrid Object Grid gr) /\
    generator w' = generator w.
Proof.
  intros Hc. destruct l as [[t|] [d|] [g|] [[[Tr dr] gr]|]];
    unfold store_results, bind, bound, ret, raise, set_uns, set_obsm; rewrite Hc; simpl;
    intros Hs; try discriminate Hs.
  injection Hs as <-. simpl. exists Tr, dr, gr.
  split; [reflexivity|]. split; [|split; [|split]].
  - rewrite lookup_insert_ne by discriminate. apply lookup_insert_eq.
  - apply lookup_insert_eq.
  - apply lookup_insert_eq.
  - reflexivity.
Qed.

Lemma preparation_seeds (a : arguments Object) (w w1 : World) (p : prepared) :
  calc_rnd_vel a = true ->
  preparation Object Grid resolve_keys gather_inputs a w = (Ok p, w1) ->
  generator w1 = numba_random_seed (random_seed a) (generator w).
Proof.
  intros Hc. unfold preparation. rewrite Hc. intros Hp.
  apply bind_returns in Hp. destruct Hp as (keys & w2 & _ & Hp).
  apply bind_returns in Hp. destruct Hp as ([] & w3 & Hseed & Hp).
  unfold seed_generator in Hseed. injection Hseed as <-.
  pose proof (on_adata_same_generator
                (gather_inputs keys (use_mnn a) (neighbors_from_basis a) (min_r2 a) (basis a))
                (mkWorld Object Grid (adata w2) (numba_random_seed (random_seed a) (generator w2))))
    as Hg.
  rewrite Hp in Hg. simpl in Hg. rewrite Hg. reflexivity.
Qed.

(** X15: with [calc_rnd_vel=False], a call never touches numba's random
    generator: whatever the method and whether the call returns or raises,
    the generator is left in the state it was in.  (The only uses of the
    generator in this file are lines 76, 155 and 167, all under
    [calc_rnd_vel]; the collaborators work on the container and their
    arguments.) *)
Theorem cell_velocities_without_rnd_keeps_generator (a : arguments Object) (w : World) :
  calc_rnd_vel a = false ->
  generator (snd (cell_velocities Object Grid resolve_keys gather_inputs pca_project
                    kmc_project umap_trans_transform velocity_on_grid a w))
  = generator w.
Proof.
  intros Hc. revert w.
  change (preserves (rng := rng) Object Grid same_generator
            (cell_velocities Object Grid resolve_keys gather_inputs pca_project
               kmc_project umap_trans_transform velocity_on_grid a)).
  unfold cell_velocities, preparation, analytical_branch, empirical_branch,
    empirical_call, transform_branch, store_results.
  rewrite Hc.
  preserves_steps same_generator_refl same_generator_trans
    ltac:(first [ apply on_adata_same_generator
                | apply set_uns_same_generator
                | apply set_obsm_same_generator ]).
Qed.

(** X16: with [calc_rnd_vel=True], a call does not depend on the state
    numba's generator had before it, because line 76 seeds the generator
    before any draw: from the same container and with the same
    collaborators, two calls started in different generator states give
    the same result (or the same exception) and the same container, and,
    when they return, leave the generator in the same state. *)
Theorem cell_velocities_with_rnd_is_reproducible (a : arguments Object)
    (ad : AnnData Object Grid) (g1 g2 : rng) :
  calc_rnd_vel a = true ->
  let run g := cell_velocities Object Grid resolve_keys gather_inputs pca_project
                 kmc_project umap_trans_transform velocity_on_grid a
                 (mkWorld Object Grid ad g) in
  fst (run g1) = fst (run g2) /\
  adata (snd (run g1)) = adata (snd (run g2)) /\
  (fst (run g1) = Ok tt -> run g1 = run g2).
Proof.
  intros Hc. cbv zeta.
  assert (Hprep :
    preparation Object Grid resolve_keys gather_inputs a (mkWorld Object Grid ad g1)
    = preparation Object Grid resolve_keys gather_inputs a (mkWorld Object Grid ad g2)
    \/ exists e ad',
         preparation Object Grid resolve_keys gather_inputs a (mkWorld Object Grid ad g1)
         = (Raise e, mkWorld Object Grid ad' g1) /\
         preparation Object Grid resolve_keys gather_inputs a (mkWorld Object Grid ad g2)
         = (Raise e, mkWorld Object Grid ad' g2)).
  { unfold preparation. rewrite Hc.
    unfold bind, on_adata, seed_generator, numba_random_seed. simpl.
    destruct (resolve_keys (ekey a) (vkey a) ad) as [[keys | e] ad'];
      [left; reflexivity | right; eauto]. }
  unfold cell_velocities.
  set (k := fun p : prepared => bind Object Grid _ _). unfold bind.
  destruct Hprep as [-> | (e & ad' & -> & ->)].
  - auto.
  - simpl. split; [reflexivity|]. split; [reflexivity|]. discriminate.
Qed.

Lemma transform_then_store (a : arguments Object) (p : prepared) (w1 : World) :
  exists e,
    bind Object Grid (transform_branch Object Grid umap_trans_transform velocity_on_grid a p)
         (fun l => store_results Object Grid a l) w1 = (Raise e, w1) /\
    (forall X_v, umap_trans_transform (zip_with (zip_with Rplus) (X p) (V_mat p)) = Ok X_v ->
                 e = UnboundLocalError "T").
Proof.
  unfold transform_branch, store_results, bind, of_result, ret, bound, raise.
  destruct (umap_trans_transform (zip_with (zip_with Rplus) (X p) (V_mat p)))
    as [X_v | e]; simpl.
  - eexists. split; [reflexivity|]. intros. reflexivity.
  - exists e. split; [reflexivity|]. intros X_v E. discriminate E.
Qed.

(** X17: with [method='transform'] a call never returns: the branch of
    lines 170-174 assigns no [T], so that if the preparation and
    [umap_trans.transform] do not raise, line 176 does; and the world is
    left as the preparation left it, no result key written. *)
Theorem cell_velocities_transform_never_returns (a : arguments Object) (w : World) :
  method a = "transform"%string ->
  (exists e, fst (cell_velocities Object Grid resolve_keys gather_inputs pca_project
                    kmc_project umap_trans_transform velocity_on_grid a w) = Raise e) /\
  snd (cell_velocities Object Grid resolve_keys gather_inputs pca_project
         kmc_project umap_trans_transform velocity_on_grid a w)
  = snd (preparation Object Grid resolve_keys gather_inputs a w) /\
  ((exists p w1 X_v,
      preparation Object Grid resolve_keys gather_inputs a w = (Ok p, w1) /\
      umap_trans_transform (zip_with (zip_with Rplus) (X p) (V_mat p)) = Ok X_v) ->
   fst (cell_velocities Object Grid resolve_keys gather_inputs pca_project
          kmc_project umap_trans_transform velocity_on_grid a w)
   = Raise (UnboundLocalError "T")).
Proof.
  intros Hm.
  assert (Hcv :
    cell_velocities Object Grid resolve_keys gather_inputs pca_project
      kmc_project umap_trans_transform velocity_on_grid a w
    = match preparation Object Grid resolve_keys gather_inputs a w with
      | (Ok p, w1) =>
          bind Object Grid (transform_branch Object Grid umap_trans_transform
                              velocity_on_grid a p)
               (fun l => store_results Object Grid a l) w1
      | (Raise e, w1) => (Raise e, w1)
      end).
  { unfold cell_velocities. rewrite Hm. simpl String.eqb. cbv iota. unfold bind at 1.
    destruct (preparation Object Grid resolve_keys gather_inputs a w) as [[p | e] w1];
      reflexivity. }
  rewrite Hcv.
  destruct (preparation Object Grid resolve_keys gather_inputs a w) as [[p | e] w1].
  - destruct (transform_then_store a p w1) as (e & -> & He). simpl.
    split; [eexists; reflexivity|]. split; [reflexivity|].
    intros (p' & w' & X_v & Hp & Hu). injection Hp as <- _.
    f_equal. apply (He X_v). exact Hu.
  - simpl. split; [eexists; reflexivity|]. split; [reflexivity|].
    intros (p' & w' & X_v & Hp & _). discriminate Hp.
Qed.

(** X18: with [method='empirical'] the stores are all or nothing: if the
    call raises after a preparation that succeeded, the container is the one
    the preparation left, no result key written. *)
Theorem cell_velocities_empirical_all_or_nothing (a : arguments Object)
    (w w1 w2 : World) (p : prepared) (e : exception) :
  method a = "empirical"%string ->
  preparation Object Grid resolve_keys gather_inputs a w = (Ok p, w1) ->
  cell_velocities Object Grid resolve_keys gather_inputs pca_project kmc_project
                  umap_trans_transform velocity_on_grid a w = (Raise e, w2) ->
  adata w2 = adata w1.
Proof.
  intros Hm Hprep. unfold cell_velocities. rewrite Hm. simpl String.eqb. cbv iota.
  unfold bind at 1. rewrite Hprep. unfold bind at 1.
  pose proof (empirical_branch_same_adata a p w1) as Hsame.
  destruct (empirical_branch Object Grid velocity_on_grid a p w1) as [[l | e'] w3] eqn:Eb.
  - destruct (empirical_branch_locals a p w1 w3 l Eb) as (HT & Hd & Hg & Hr).
    destruct (store_results_returns a l w3 HT Hd Hg Hr) as (w4 & ->). discriminate.
  - intros E. injection E as _ <-. exact Hsame.
Qed.

(** X19: with [method='empirical'], whether the call returns or raises, it
    changes the container that the preparation left only at the result
    keys: ['transition_matrix'] and ['grid_velocity_<basis>'] of [uns],
    ['velocity_<basis>'] of [obsm], and their ['_rnd'] variants when
    [calc_rnd_vel=True]; every other entry of [uns] and [obsm] and the rest
    of the container stay as they were. *)
Theorem cell_velocities_empirical_writes_only_result_keys (a : arguments Object)
    (w w1 : World) (p : prepared) :
  method a = "empirical"%string ->
  preparation Object Grid resolve_keys gather_inputs a w = (Ok p, w1) ->
  writes_only (rng := rng) Object Grid (uns_result_keys Object a) (obsm_result_keys Object a) w1
    (snd (cell_velocities Object Grid resolve_keys gather_inputs pca_project kmc_project
            umap_trans_transform velocity_on_grid a w)).
Proof.
  intros Hm Hprep. unfold cell_velocities. rewrite Hm. simpl String.eqb. cbv iota.
  unfold bind at 1. rewrite Hprep.
  apply (preserves_bind _ (writes_only_trans _ _)).
  - intros w'. apply same_adata_writes_only. apply empirical_branch_same_adata.
  - intros l. apply store_results_writes_only.
Qed.

(** X20: with [method='empirical'] and [calc_rnd_vel=True], a call that
    returns has stored as random control the outputs of [_empirical_vec]
    for the velocity matrix that [permute_rows_nsign] makes from the
    generator state [numba_random_seed(random_seed)]: the matrix under
    ['transition_matrix_rnd'], the drift under ['velocity_<basis>_rnd'];
    and the generator is left in the state after that permutation. *)
Theorem cell_velocities_empirical_random_control (a : arguments Object) (w w' : World) :
  method a = "empirical"%string ->
  calc_rnd_vel a = true ->
  cell_velocities Object Grid resolve_keys gather_inputs pca_project kmc_project
                  umap_trans_transform velocity_on_grid a w = (Ok tt, w') ->
  exists (p : prepared) (w1 : World) (inds : list (list nat)) (shape : nat * nat)
         (T_rnd : mat) (dX_rnd : list point) (g_rnd : Grid),
    let permuted := permute_rows_nsign (V_mat p)
                      (numba_random_seed (random_seed a) (generator w)) in
    preparation Object Grid resolve_keys gather_inputs a w = (Ok p, w1) /\
    graph p = Some (inds, shape) /\
    _empirical_vec Grid velocity_on_grid (X p) (X_embedding p) (fst permuted) inds
                   (neg_cells_trick a) (xy_grid_nums a) shape
      = Ok (T_rnd, dX_rnd, g_rnd) /\
    uns (adata w') !! "transition_matrix_rnd"%string = Some (VMatrix Object Grid T_rnd) /\
    obsm (adata w') !! ("velocity_" ++ basis a ++ "_rnd")%string
      = Some (VPoints Object Grid dX_rnd) /\
    generator w' = snd permuted.
Proof.
  intros Hm Hc Hrun. unfold cell_velocities in Hrun. rewrite Hm in Hrun.
  simpl String.eqb in Hrun. cbv iota in Hrun.
  apply bind_returns in Hrun. destruct Hrun as (p & w1 & Hprep & Hrun).
  pose proof (preparation_seeds a w w1 p Hc Hprep) as Hseed.
  apply bind_returns in Hrun. destruct Hrun as (l & w2 & Hbranch & Hstore).
  destruct (store_results_rnd_keys a l w2 w' Hc Hstore)
    as (Tr & dXr & gr & Hl & Hu & Ho & _ & Hgen).
  unfold empirical_branch in Hbranch.
  apply bind_returns in Hbranch. destruct Hbranch as ([[t0 dX0] g0] & w3 & Hcall & Hrest).
  apply empirical_call_returns in Hcall. destruct Hcall as (_ & _ & _ & _ & _ & _ & ->).
  rewrite Hc in Hrest.
  apply bind_returns in Hrest. destruct Hrest as (r & w4 & Hr & Hret).
  unfold ret in Hret. injection Hret as <- <-. simpl in Hl. subst r.
  apply bind_returns in Hr. destruct Hr as (V & w5 & Hperm & Hr).
  unfold permute_in_place in Hperm. rewrite Hseed in Hperm.
  destruct (permute_rows_nsign (V_mat p) (numba_random_seed (random_seed a) (generator w)))
    as [V' st] eqn:Eperm.
  injection Hperm as <- <-.
  apply bind_returns in Hr. destruct Hr as (rr & w6 & Hcall2 & Hret).
  unfold ret in Hret. injection Hret as -> <-.
  apply empirical_call_returns in Hcall2.
  destruct Hcall2 as (inds & shape & T0 & Hg & Hk & -> & ->).
  exists p, w1, inds, shape, T0, dXr, gr. cbv zeta. rewrite Eperm. cbn [fst snd].
  repeat (split; [assumption|]). rewrite Hgen. reflexivity.
Qed.

(** *** Enough for the empirical method to return *)

Lemma empirical_call_ok (a : arguments Object) (p : prepared) (V : mat) (w : World)
    (inds : list (list nat)) (shape : nat * nat) :
  graph p = Some (inds, shape) ->
  kernel_inputs_conform (X p) (X_embedding p) V inds shape ->
  X p <> [] -> (1 <= knn inds)%nat ->
  exists r, empirical_call Object Grid velocity_on_grid a p V w = (Ok r, w).
Proof.
  intros Hg Hconf Hne Hk.
  destruct (empirical_vec_returns Grid velocity_on_grid (X p) (X_embedding p) V inds
              (neg_cells_trick a) (xy_grid_nums a) shape Hconf Hne Hk)
    as (T0 & dX & g & Hrun).
  exists (VMatrix Object Grid T0, dX, g).
  unfold empirical_call, bind, bound, of_result, ret. rewrite Hg. simpl.
  rewrite Hrun. reflexivity.
Qed.

Lemma conform_after_permutation (p : prepared) (inds : list (list nat))
    (shape : nat * nat) (st : rng) :
  kernel_inputs_conform (X p) (X_embedding p) (V_mat p) inds shape ->
  kernel_inputs_conform (X p) (X_embedding p)
    (fst (permute_rows_nsign (V_mat p) st)) inds shape.
Proof.
  unfold kernel_inputs_conform. intros (HX & HV & Hrest).
  split; [exact HX|]. split; [|exact Hrest].
  apply permute_rows_nsign_has_shape. exact HV.
Qed.

Lemma empirical_branch_returns (a : arguments Object) (w1 : World) (p : prepared)
    (inds : list (list nat)) (shape : nat * nat) :
  graph p = Some (inds, shape) ->
  kernel_inputs_conform (X p) (X_embedding p) (V_mat p) inds shape ->
  X p <> [] -> (1 <= knn inds)%nat ->
  exists l w2, empirical_branch Object Grid velocity_on_grid a p w1 = (Ok l, w2).
Proof.
  intros Hg Hconf Hne Hk.
  unfold empirical_branch. unfold bind at 1.
  destruct (empirical_call_ok a p (V_mat p) w1 inds shape Hg Hconf Hne Hk)
    as ([[t dX] g] & ->).
  destruct (calc_rnd_vel a).
  - unfold bind at 1. unfold bind at 1. unfold permute_in_place.
    pose proof (conform_after_permutation p inds shape (generator w1) Hconf) as Hconf'.
    destruct (permute_rows_nsign (V_mat p) (generator w1)) as [V' st]. cbn [fst] in Hconf'.
    unfold bind at 1.
    destruct (empirical_call_ok a p V' (mkWorld Object Grid (adata w1) st) inds shape
                Hg Hconf' Hne Hk) as (r & ->).
    unfold ret. eauto.
  - unfold bind, ret. eauto.
Qed.

Lemma empirical_method_steps (a : arguments Object) (w w1 w2 w' : World) (p : prepared)
    (l : locals Object Grid) :
  method a = "empirical"%string ->
  preparation Object Grid resolve_keys gather_inputs a w = (Ok p, w1) ->
  empirical_branch Object Grid velocity_on_grid a p w1 = (Ok l, w2) ->
  store_results Object Grid a l w2 = (Ok tt, w') ->
  cell_velocities Object Grid resolve_keys gather_inputs pca_project kmc_project
    umap_trans_transform velocity_on_grid a w = (Ok tt, w').
Proof.
  intros Hm Hprep Hbranch Hstore.
  unfold cell_velocities. rewrite Hm. simpl String.eqb. cbv iota.
  unfold bind at 1. rewrite Hprep. unfold bind at 1. rewrite Hbranch. exact Hstore.
Qed.


End Frames.

Section DemoRuns.

Local Abbreviation demo_run gather umap a w :=
  (cell_velocities (rng := nat) unit unit demo_resolve_keys gather demo_pca demo_kmc
                   umap no_grid a w).

Lemma demo_rnd_call (trick : bool) :
  exists w', demo_run demo_gather_inputs demo_umap (rnd_arguments "empirical" trick)
                      empty_world = (Ok tt, w').
Proof.
  set (a := rnd_arguments "empirical" trick).
  set (p := mkPrepared X_pca3 V_mat3 X_embedding3 (Some (indices3, (3, 3)%nat))).
  set (w1 := mkWorld unit unit (mkAnnData unit unit ∅ ∅ tt) (numba_random_seed 7%Z 0%nat)).
  assert (Hk : (1 <= knn indices3)%nat) by (unfold knn; simpl; lia).
  destruct (empirical_branch_returns unit unit no_grid a w1 p indices3 (3, 3)%nat
              eq_refl three_cells_conform ltac:(discriminate) Hk) as (l & w2 & Hbranch).
  destruct (empirical_branch_locals unit unit no_grid a p w1 w2 l Hbranch)
    as (HT & Hd & Hgr & Hr).
  destruct (store_results_returns unit unit a l w2 HT Hd Hgr Hr) as (w' & Hstore).
  exists w'.
  exact (empirical_method_steps unit unit demo_resolve_keys demo_gather_inputs demo_pca
           demo_kmc demo_umap no_grid a empty_world w1 w2 w' p l eq_refl eq_refl
           Hbranch Hstore).
Qed.

End DemoRuns.

Lemma cell_velocities_without_rnd_keeps_generator_witness :
  generator (snd (cell_velocities (rng := nat) unit unit demo_resolve_keys
                    demo_gather_inputs demo_pca demo_kmc demo_umap no_grid
                    (demo_arguments "analytical" false) empty_world))
  = generator empty_world.
Proof.
  apply (cell_velocities_without_rnd_keeps_generator unit unit demo_resolve_keys
           demo_gather_inputs demo_pca demo_kmc demo_umap no_grid
           (demo_arguments "analytical" false) empty_world).
  reflexivity.
Defined.

Lemma cell_velocities_with_rnd_is_reproducible_witness :
  fst (cell_velocities (rng := nat) unit unit demo_resolve_keys demo_gather_inputs demo_pca
         demo_kmc demo_umap no_grid (rnd_arguments "empirical" true)
         (mkWorld unit unit (mkAnnData unit unit ∅ ∅ tt) 0%nat))
  = fst (cell_velocities (rng := nat) unit unit demo_resolve_keys demo_gather_inputs demo_pca
           demo_kmc demo_umap no_grid (rnd_arguments "empirical" true)
           (mkWorld unit unit (mkAnnData unit unit ∅ ∅ tt) 5%nat)).
Proof.
  destruct (cell_velocities_with_rnd_is_reproducible unit unit demo_resolve_keys
              demo_gather_inputs demo_pca demo_kmc demo_umap no_grid
              (rnd_arguments "empirical" true) (mkAnnData unit unit ∅ ∅ tt)
              0%nat 5%nat eq_refl) as [Hsame _].
  exact Hsame.
Defined.

Lemma cell_velocities_transform_never_returns_witness :
  fst (cell_velocities (rng := nat) unit unit demo_resolve_keys demo_gather_inputs demo_pca
         demo_kmc demo_umap_two_columns no_grid (demo_arguments "transform" false)
         empty_world)
  = Raise (UnboundLocalError "T").
Proof.
  destruct (cell_velocities_transform_never_returns unit unit demo_resolve_keys
              demo_gather_inputs demo_pca demo_kmc demo_umap_two_columns no_grid
              (demo_arguments "transform" false) empty_world eq_refl) as (_ & _ & HT).
  apply HT.
  exists (mkPrepared X_pca3 V_mat3 X_embedding3 (Some (indices3, (3, 3)%nat))), empty_world.
  eexists. split; reflexivity.
Defined.

Lemma cell_velocities_empirical_all_or_nothing_witness :
  fst (cell_velocities (rng := nat) unit unit demo_resolve_keys demo_gather_without_graph
         demo_pca demo_kmc demo_umap no_grid (demo_arguments "empirical" false) empty_world)
  = Raise (UnboundLocalError "indices") /\
  adata (snd (cell_velocities (rng := nat) unit unit demo_resolve_keys
                demo_gather_without_graph demo_pca demo_kmc demo_umap no_grid
                (demo_arguments "empirical" false) empty_world))
  = mkAnnData unit unit ∅ ∅ tt.
Proof.
  split; [reflexivity|].
  apply (cell_velocities_empirical_all_or_nothing unit unit demo_resolve_keys
           demo_gather_without_graph demo_pca demo_kmc demo_umap no_grid
           (demo_arguments "empirical" false) empty_world empty_world
           (snd (cell_velocities (rng := nat) unit unit demo_resolve_keys
                   demo_gather_without_graph demo_pca demo_kmc demo_umap no_grid
                   (demo_arguments "empirical" false) empty_world))
           (mkPrepared X_pca3 V_mat3 X_embedding3 None) (UnboundLocalError "indices")).
  - reflexivity.
  - reflexivity.
  - reflexivity.
Defined.

Lemma cell_velocities_empirical_writes_only_result_keys_witness :
  writes_only (rng := nat) unit unit
    ["transition_matrix"; "grid_velocity_umap"]%string ["velocity_umap"]%string
    empty_world
    (snd (cell_velocities (rng := nat) unit unit demo_resolve_keys demo_gather_inputs
            demo_pca demo_kmc demo_umap no_grid (demo_arguments "empirical" false)
            empty_world)).
Proof.
  apply (cell_velocities_empirical_writes_only_result_keys unit unit demo_resolve_keys
           demo_gather_inputs demo_pca demo_kmc demo_umap no_grid
           (demo_arguments "empirical" false) empty_world empty_world
           (mkPrepared X_pca3 V_mat3 X_embedding3 (Some (indices3, (3, 3)%nat)))).
  - reflexivity.
  - reflexivity.
Defined.

Lemma cell_velocities_empirical_random_control_witness :
  exists (w' : world (rng := nat) unit unit) (T_rnd : mat),
    cell_velocities (rng := nat) unit unit demo_resolve_keys demo_gather_inputs demo_pca
      demo_kmc demo_umap no_grid (rnd_arguments "empirical" false) empty_world
    = (Ok tt, w') /\
    uns (adata w') !! "transition_matrix_rnd"%string = Some (VMatrix unit unit T_rnd) /\
    generator w' = snd (permute_rows_nsign V_mat3 (numba_random_seed 7%Z 0%nat)).
Proof.
  destruct (demo_rnd_call false) as (w' & Hrun).
  destruct (cell_velocities_empirical_random_control unit unit demo_resolve_keys
              demo_gather_inputs demo_pca demo_kmc demo_umap no_grid
              (rnd_arguments "empirical" false) empty_world w' eq_refl eq_refl Hrun)
    as (p & w1 & inds & shape & T_rnd & dX & g & Hprep & _ & _ & Hu & _ & Hgen).
  exists w', T_rnd. split; [exact Hrun|]. split; [exact Hu|].
  injection Hprep as <- _. exact Hgen.
Defined.


End OrchestratorFrameFacts.
